(** * caldav/lib/vcal.py: fixups of calendar text and assembly of fragments

    A shallow embedding of [fix], [LineFilterDiscardingDuplicates] and
    [create_ical], and the properties of them that the specification
    states.

    Texts.  A Python [str] is modelled as a list of characters.  The
    characters are the 8-bit ones of [Ascii], read as the code points
    0..255; on that range the classes of Python's [re] module and of
    [str.strip] are the ones given by [isdigit] and [isspace] below. *)

From Stdlib Require Import List Ascii String ZArith Lia Bool Arith.
Import ListNotations.
Open Scope list_scope.
Set Warnings "-register-all".

(** ** Texts *)

Definition str := list ascii.

Definition NL : ascii := "010"%char.
Definition CR : ascii := "013"%char.
Definition TAB : ascii := "009"%char.
Definition SP : ascii := "032"%char.
Definition BACKSLASH : ascii := "092"%char.
Definition DQUOTE : ascii := "034"%char.
Definition SQUOTE : ascii := "039"%char.

Definition hexval (c : ascii) : option nat :=
  let n := nat_of_ascii c in
  if (48 <=? n) && (n <=? 57) then Some (n - 48)
  else if (97 <=? n) && (n <=? 102) then Some (n - 87)
  else if (65 <=? n) && (n <=? 70) then Some (n - 55)
  else None.

(** Reads a text written the way a Python literal is written: the
    escapes [\n], [\r], [\t], [\\] and [\xHH] stand for one character
    each.  It is used to write the inputs and outputs of the examples. *)
Fixpoint unescape (s : str) : str :=
  match s with
  | [] => []
  | c :: s1 =>
      if Ascii.eqb c BACKSLASH then
        match s1 with
        | e :: s2 =>
            if Ascii.eqb e "n" then NL :: unescape s2
            else if Ascii.eqb e "r" then CR :: unescape s2
            else if Ascii.eqb e "t" then TAB :: unescape s2
            else if Ascii.eqb e BACKSLASH then BACKSLASH :: unescape s2
            else if Ascii.eqb e "x" then
              match s2 with
              | h1 :: h2 :: s3 =>
                  match hexval h1, hexval h2 with
                  | Some a, Some b => ascii_of_nat (16 * a + b) :: unescape s3
                  | _, _ => c :: unescape s1
                  end
              | _ => c :: unescape s1
              end
            else c :: unescape s1
        | [] => [c]
        end
      else c :: unescape s1
  end.

Definition lit (s : string) : str := unescape (list_ascii_of_string s).

Definition str_eqb (a b : str) : bool :=
  if list_eq_dec ascii_dec a b then true else false.

(** [\d] of a Python 3 [str] pattern, on the code points 0..255. *)
Definition isdigit (c : ascii) : bool :=
  let n := nat_of_ascii c in (48 <=? n) && (n <=? 57).

(** [\s] of a Python 3 [str] pattern and the characters [str.strip]
    removes, on the code points 0..255: TAB, LF, VT, FF, CR, FS, GS, RS,
    US, space, NEL and the no-break space. *)
Definition isspace (c : ascii) : bool :=
  let n := nat_of_ascii c in
  ((9 <=? n) && (n <=? 13)) || ((28 <=? n) && (n <=? 32))
  || (n =? 133) || (n =? 160).

(** [s.startswith(p)] *)
Fixpoint startswith (p s : str) : bool :=
  match p, s with
  | [], _ => true
  | a :: p', b :: s' => Ascii.eqb a b && startswith p' s'
  | _ :: _, [] => false
  end.

(** [s.endswith(p)] *)
Definition endswith (p s : str) : bool := startswith (rev p) (rev s).

Fixpoint dropwhile (f : ascii -> bool) (s : str) : str :=
  match s with
  | [] => []
  | c :: s' => if f c then dropwhile f s' else s
  end.

Fixpoint takewhile (f : ascii -> bool) (s : str) : str :=
  match s with
  | [] => []
  | c :: s' => if f c then c :: takewhile f s' else []
  end.

Definition lstrip (s : str) : str := dropwhile isspace s.
Definition rstrip (s : str) : str := rev (dropwhile isspace (rev s)).

(** [s.strip()] *)
Definition strip (s : str) : str := lstrip (rstrip s).

(** [s.split(sep)] for a separator of one character: never the empty
    list, and the empty text gives one empty line. *)
Fixpoint split (sep : ascii) (s : str) : list str :=
  match s with
  | [] => [[]]
  | c :: s' =>
      if Ascii.eqb c sep then [] :: split sep s'
      else match split sep s' with
           | l :: ls => (c :: l) :: ls
           | [] => [[c]]
           end
  end.

(** [sep.join(lines)] *)
Fixpoint join (sep : str) (lines : list str) : str :=
  match lines with
  | [] => []
  | l :: ls =>
      match ls with
      | [] => l
      | _ :: _ => l ++ sep ++ join sep ls
      end
  end.

(** [text.replace(old, new)] for a two-character [old] and a
    one-character [new]. *)
Fixpoint replace2 (o1 o2 n : ascii) (s : str) : str :=
  match s with
  | c1 :: ((c2 :: s2) as s1) =>
      if Ascii.eqb c1 o1 && Ascii.eqb c2 o2 then n :: replace2 o1 o2 n s2
      else c1 :: replace2 o1 o2 n s1
  | _ => s
  end.

(** Modelled from the spec: [to_normal_str] of
    [caldav.lib.python_utilities] is not among the sources.  The
    TextCanonicalizer "coerces input to a canonical line-oriented string
    form (consistent encoding, consistent line endings ...)": on a text
    that is already a [str] the encoding is settled, and the line endings
    are made the ones the rest of the module uses (every CR LF becomes
    LF).  [None] stays [None]. *)
Definition to_normal_str (text : str) : str := replace2 CR NL NL text.

Definition to_normal_str_opt (text : option str) : option str :=
  option_map to_normal_str text.

(** ** The regular expressions of the module

    [re.sub(pattern, repl, text, count)] scans the text from left to
    right.  At a position it takes the first match that starts there,
    writes the expansion of [repl] and goes on after the match; where
    nothing matches it copies one character.  An empty match is replaced
    too, and the character after it is copied.  A pattern with its
    replacement is given as a [matcher]: from the character before the
    position ([None] at the start of the text) and the text from the
    position on, the length of the match and the text that replaces it.
    None of the patterns below has a non-empty match at a position where
    its first match is empty. *)

Definition matcher := option ascii -> str -> option (nat * str).

(** [count = 0] replaces every match. *)
Definition budget (count : nat) : option nat :=
  match count with O => None | S _ => Some count end.

Definition spent (b : option nat) : bool :=
  match b with Some O => true | _ => false end.

Definition pay (b : option nat) : option nat := option_map pred b.

Fixpoint sub_scan (m : matcher) (b : option nat) (skip : nat)
    (prev : option ascii) (s : str) : str :=
  match s with
  | [] =>
      match skip with
      | S _ => []
      | O =>
          if spent b then []
          else match m prev [] with
               | Some (_, r) => r
               | None => []
               end
      end
  | c :: s' =>
      match skip with
      | S k => sub_scan m b k (Some c) s'
      | O =>
          if spent b then c :: sub_scan m b 0 (Some c) s'
          else match m prev s with
               | Some (O, r) => r ++ c :: sub_scan m (pay b) 0 (Some c) s'
               | Some (S k, r) => r ++ sub_scan m (pay b) k (Some c) s'
               | None => c :: sub_scan m b 0 (Some c) s'
               end
      end
  end.

Definition re_sub (m : matcher) (count : nat) (s : str) : str :=
  sub_scan m (budget count) 0 None s.

(** [s] without the prefix [p], when it starts with it. *)
Fixpoint strip_prefix (p s : str) : option str :=
  match p, s with
  | [], _ => Some s
  | a :: p', b :: s' => if Ascii.eqb a b then strip_prefix p' s' else None
  | _ :: _, [] => None
  end.

(** [re.sub(r"COMPLETED:(\d+)\s", r"COMPLETED:\g<1>T120000Z", _)]: the
    literal, one or more digits (as many as there are: a digit is no
    white space, so giving one back cannot help), one white-space
    character; the replacement keeps the digits of group 1 and drops the
    white-space character. *)
Definition m_completed : matcher := fun _ s =>
  match strip_prefix (lit "COMPLETED:") s with
  | Some rest =>
      let ds := takewhile isdigit rest in
      match ds, dropwhile isdigit rest with
      | _ :: _, c :: _ =>
          if isspace c
          then Some (10 + List.length ds + 1, lit "COMPLETED:" ++ ds ++ lit "T120000Z")
          else None
      | _, _ => None
      end
  | None => None
  end.

(** [re.sub("CREATED:00001231T000000Z", "CREATED:19700101T000000Z", _)] *)
Definition m_created : matcher := fun _ s =>
  if startswith (lit "CREATED:00001231T000000Z") s
  then Some (24, lit "CREATED:19700101T000000Z")
  else None.

(** Line 71, the third substitution.  Its pattern is the raw string made
    of the eight characters backslash, backslash, plus, opening bracket,
    apostrophe, backslash, double quote, closing bracket: one or more
    backslashes, then group 1, which is the apostrophe followed by the
    double quote (the group holds the two characters in sequence, it is
    not a character class).  The replacement is group 1. *)
Definition m_quotes : matcher := fun _ s =>
  let bs := takewhile (Ascii.eqb BACKSLASH) s in
  match bs with
  | _ :: _ =>
      if startswith [SQUOTE; DQUOTE] (dropwhile (Ascii.eqb BACKSLASH) s)
      then Some (List.length bs + 2, [SQUOTE; DQUOTE])
      else None
  | [] => None
  end.

(** [$] without [re.MULTILINE]: at the end of the text, and before a
    newline that is the last character of the text. *)
Definition at_dollar (rest : str) : bool :=
  match rest with
  | [] => true
  | [c] => Ascii.eqb c NL
  | _ => false
  end.

(** [re.sub(" *$", "", _)]: as many spaces as there are, then [$]. *)
Definition m_trailing : matcher := fun _ s =>
  if at_dollar (dropwhile (Ascii.eqb SP) s)
  then Some (List.length (takewhile (Ascii.eqb SP) s), [])
  else None.

(** [^] with [re.MULTILINE]: at the start of the text and after every
    newline. *)
Definition at_caret (prev : option ascii) : bool :=
  match prev with
  | None => true
  | Some c => Ascii.eqb c NL
  end.

(** [re.search("^BEGIN:V", s, re.MULTILINE)], as a truth value. *)
Fixpoint search_from (p : str) (prev : option ascii) (s : str) : bool :=
  (at_caret prev && startswith p s)
  || match s with
     | [] => false
     | c :: s' => search_from p (Some c) s'
     end.

Definition search_line_start (p s : str) : bool := search_from p None s.

(** [re.match("(A|B|...)[:;]", line)], as a truth value: one of the
    names, then a colon or a semicolon, at the start of the line. *)
Definition match_name (names : list str) (line : str) : bool :=
  existsb (fun n =>
             match strip_prefix n line with
             | Some (c :: _) => Ascii.eqb c ":" || Ascii.eqb c ";"
             | _ => false
             end) names.

(** ** [LineFilterDiscardingDuplicates] *)

Record LineFilterDiscardingDuplicates := mkFilter { stamped : Z; ended : Z }.

(** [__init__] *)
Definition new_filter : LineFilterDiscardingDuplicates :=
  {| stamped := 0; ended := 0 |}.

Definition ENDERS : list str := [lit "DURATION"; lit "DTEND"; lit "DUE"].
Definition STAMPS : list str := [lit "DTSTAMP"].

(** [__call__]: the truth value returned and the object after the call. *)
Definition call (self : LineFilterDiscardingDuplicates) (line : str)
    : bool * LineFilterDiscardingDuplicates :=
  if startswith (lit "BEGIN:V") line then
    (true, {| stamped := 0; ended := 0 |})
  else if match_name ENDERS line then
    if negb (ended self =? 0)%Z then (false, self)
    else (true, {| stamped := stamped self; ended := ended self + 1 |})
  else if match_name STAMPS line then
    if negb (stamped self =? 0)%Z then (false, self)
    else (true, {| stamped := stamped self + 1; ended := ended self |})
  else (true, self).

(** [filter(obj, lines)], consumed from the first line to the last. *)
Fixpoint py_filter (self : LineFilterDiscardingDuplicates) (lines : list str)
    : list str :=
  match lines with
  | [] => []
  | l :: ls =>
      let (keep, self') := call self l in
      if keep then l :: py_filter self' ls else py_filter self' ls
  end.

(** The truth values [__call__] returns along the lines, in order. *)
Fixpoint verdicts (self : LineFilterDiscardingDuplicates) (lines : list str)
    : list bool :=
  match lines with
  | [] => []
  | l :: ls => let (keep, self') := call self l in keep :: verdicts self' ls
  end.

(** The object after the lines have gone through it. *)
Definition run_filter (self : LineFilterDiscardingDuplicates)
    (lines : list str) : LineFilterDiscardingDuplicates :=
  fold_left (fun st l => snd (call st l)) lines self.

(** ** [fix] *)

(** Lines 60 to 62: the text the later comparison is made with. *)
Definition canonical (event : str) : str :=
  let event := to_normal_str event in
  if endswith [NL] event then event else event ++ [NL].

Definition fix_completed (s : str) : str := re_sub m_completed 0 s.
Definition fix_created (s : str) : str := re_sub m_created 0 s.
Definition fix_quotes (s : str) : str := re_sub m_quotes 0 s.
Definition fix_trailing (s : str) : str := re_sub m_trailing 0 s.

(** Lines 66 to 74: the four substitutions, in order. *)
Definition fixed (event : str) : str :=
  fix_trailing (fix_quotes (fix_created (fix_completed event))).

(** Lines 80 to 83. *)
Definition dedup (fixed : str) : str :=
  join [NL] (py_filter new_filter (split NL (strip fixed))) ++ [NL].

Definition fixed2 (event : str) : str := dedup (fixed event).

(** The diagnostics of lines 85 to 113.  The process holds the counter
    [fixup_error_loggings]; what is logged is kept as the list of the
    calls made to the logger, the newest first: the message with the
    error count, then the two texts whose difference is logged. *)
Inductive severity := ERROR | DEBUG.

Inductive log_call :=
  | Modified (sev : severity) (error_count : Z)
  | Diff (sev : severity) (original modified : str).

Record process := mkProcess { fixup_error_loggings : Z; logged : list log_call }.

Definition remove_bit (n : Z) : Z := Z.land n (n - 1).

(** [fix(event)], run in a process; [fix] is a keyword of Rocq, so the
    function is called [vcal_fix] here. *)
Definition vcal_fix (event : str) (p : process) : str * process :=
  let event := canonical event in
  let fixed2 := fixed2 event in
  if negb (str_eqb fixed2 event) then
    let n := (fixup_error_loggings p + 1)%Z in
    let log := if (remove_bit n =? 0)%Z then ERROR else DEBUG in
    (fixed2,
     {| fixup_error_loggings := n;
        logged := Diff log event fixed2 :: Modified log n :: logged p |})
  else (fixed2, p).

(** The text [vcal_fix] returns; it does not depend on the process. *)
Definition fix_text (event : str) : str := fixed2 (canonical event).

(** The process as the module leaves it when it is imported. *)
Definition fresh_process : process :=
  {| fixup_error_loggings := 0; logged := [] |}.


(** ** The rule of the duplicate filter, as the specification words it

    A block is opened by a line that starts with [BEGIN:V].  [open_block
    pre] is the part of the lines [pre] that belongs to the block open
    at their end: the lines after the last [BEGIN:V] line (all of them
    when there is none). *)

Definition is_begin (line : str) : bool := startswith (lit "BEGIN:V") line.
Definition is_ender (line : str) : bool := match_name ENDERS line.
Definition is_stamp (line : str) : bool := match_name STAMPS line.

Definition open_block (pre : list str) : list str :=
  fold_left (fun block l => if is_begin l then [] else block ++ [l]) pre [].

(** Whether the line [l] that comes after the lines [pre] is to be
    kept: a [BEGIN:V] line always; a DURATION, DTEND or DUE line when no
    line of these three names came before it in its block; a DTSTAMP
    line when no DTSTAMP line came before it in its block; any other
    line always. *)
Definition keeps (pre : list str) (l : str) : bool :=
  if is_begin l then true
  else if is_ender l then negb (existsb is_ender (open_block pre))
  else if is_stamp l then negb (existsb is_stamp (open_block pre))
  else true.

(** The lines of [lines] that come after [pre] and are to be kept. *)
Fixpoint kept_lines (pre lines : list str) : list str :=
  match lines with
  | [] => []
  | l :: ls =>
      if keeps pre l then l :: kept_lines (pre ++ [l]) ls
      else kept_lines (pre ++ [l]) ls
  end.

(** ** Values of Python that [create_ical] handles *)

(** A [datetime.datetime]: the fields of the wall clock, and [tzinfo] as
    the offset from UTC in seconds ([None] for a naive value). *)
Record datetime := mkDatetime {
  year : Z; month : Z; day : Z; hour : Z; minute : Z; second : Z;
  tzinfo : option Z
}.

(** The arithmetic of [datetime], as the [datetime] module does it: a
    date is turned into its ordinal (day 1 is 1 January of year 1) and
    back. *)
Definition is_leap (y : Z) : bool :=
  ((y mod 4 =? 0) && (negb (y mod 100 =? 0) || (y mod 400 =? 0)))%Z.

Definition days_before_year (y : Z) : Z :=
  let y := (y - 1)%Z in (y * 365 + y / 4 - y / 100 + y / 400)%Z.

Definition DAYS_IN_MONTH : list Z :=
  [31; 28; 31; 30; 31; 30; 31; 31; 30; 31; 30; 31]%Z.

Definition DAYS_BEFORE_MONTH : list Z :=
  [0; 31; 59; 90; 120; 151; 181; 212; 243; 273; 304; 334]%Z.

Definition month_entry (table : list Z) (m : Z) : Z :=
  nth (Z.to_nat (m - 1)) table 0%Z.

Definition days_before_month (y m : Z) : Z :=
  (month_entry DAYS_BEFORE_MONTH m
   + (if (2 <? m) && is_leap y then 1 else 0))%Z.

Definition ymd2ord (y m d : Z) : Z :=
  (days_before_year y + days_before_month y m + d)%Z.

Definition ord2ymd (n : Z) : Z * Z * Z :=
  let n := (n - 1)%Z in
  let n400 := (n / 146097)%Z in
  let n := (n mod 146097)%Z in
  let n100 := (n / 36524)%Z in
  let n := (n mod 36524)%Z in
  let n4 := (n / 1461)%Z in
  let n := (n mod 1461)%Z in
  let n1 := (n / 365)%Z in
  let n := (n mod 365)%Z in
  let y := (n400 * 400 + 1 + n100 * 100 + n4 * 4 + n1)%Z in
  if ((n1 =? 4) || (n100 =? 4))%Z then ((y - 1)%Z, 12%Z, 31%Z)
  else
    let leapyear := ((n1 =? 3) && (negb (n4 =? 24) || (n100 =? 3)))%Z in
    let m := Z.shiftr (n + 50) 5 in
    let preceding :=
      (month_entry DAYS_BEFORE_MONTH m
       + (if (2 <? m) && leapyear then 1 else 0))%Z in
    if (n <? preceding)%Z then
      let m' := (m - 1)%Z in
      let preceding' :=
        (preceding - (month_entry DAYS_IN_MONTH m'
                      + (if (m' =? 2) && leapyear then 1 else 0)))%Z in
      (y, m', (n - preceding' + 1)%Z)
    else (y, m, (n - preceding + 1)%Z).

(** The wall clock as a number of seconds, and back. *)
Definition wall_seconds (d : datetime) : Z :=
  (ymd2ord (year d) (month d) (day d) * 86400
   + hour d * 3600 + minute d * 60 + second d)%Z.

Definition of_wall_seconds (s : Z) (tz : option Z) : datetime :=
  let '(y, m, d) := ord2ymd (s / 86400) in
  let r := (s mod 86400)%Z in
  {| year := y; month := m; day := d;
     hour := r / 3600; minute := (r mod 3600) / 60; second := r mod 60;
     tzinfo := tz |}.

(** What the function reads from the world around it: the clock, the
    generator of identifiers, and the local time zone of the system, as
    the offset from UTC, in seconds, that holds at a local wall-clock
    time. *)
Record environment := mkEnv {
  now_utc : datetime;
  uuid1 : str;
  local_utcoffset : datetime -> Z
}.

(** [d.astimezone(datetime.timezone.utc)].  A naive value is taken to be
    in the local time zone of the system; the value is moved by the
    offset of its zone, and UTC is attached. *)
Definition astimezone_utc (env : environment) (d : datetime) : datetime :=
  let offset := match tzinfo d with
                | Some o => o
                | None => local_utcoffset env d
                end in
  of_wall_seconds (wall_seconds d - offset) (Some 0%Z).

(** [d.replace(tzinfo=datetime.timezone.utc)]: the wall clock as it is,
    with UTC attached. *)
Definition replace_tzinfo_utc (d : datetime) : datetime :=
  {| year := year d; month := month d; day := day d; hour := hour d;
     minute := minute d; second := second d; tzinfo := Some 0%Z |}.

(** The values a property is given: [None], a text, a [datetime], a
    [uuid.UUID] (by its text), and a sequence of identifiers (each by
    the text [str] gives for it). *)
Inductive pyval :=
  | PNone
  | PStr (s : str)
  | PDatetime (d : datetime)
  | PUuid (u : str)
  | PList (l : list str).

(** The truth value of a value, as [not v] reads it. *)
Definition truthy (v : pyval) : bool :=
  match v with
  | PNone => false
  | PStr s => match s with [] => false | _ => true end
  | PDatetime _ => true
  | PUuid _ => true
  | PList l => match l with [] => false | _ => true end
  end.

(** ** The calendar objects of the [icalendar] library

    A component is held as what has been put into it: its name, the
    properties added to it in order (name, value, parameters), and the
    components under it.  The library's parser and serializer are not
    part of the module; they are taken as the interface [icalendar]. *)

Record property := mkProperty {
  pname : str; pvalue : pyval; pparams : list (str * str)
}.

Inductive Component :=
  | Comp (name : str) (properties : list property) (subs : list Component).

Definition subcomponents (c : Component) : list Component :=
  match c with Comp _ _ subs => subs end.

(** [c.add(name, value, parameters=params)] *)
Definition add (c : Component) (name : str) (value : pyval)
    (params : list (str * str)) : Component :=
  match c with
  | Comp n ps subs => Comp n (ps ++ [mkProperty name value params]) subs
  end.

(** [c.add_component(sub)] *)
Definition add_component (c sub : Component) : Component :=
  match c with Comp n ps subs => Comp n ps (subs ++ [sub]) end.

(** The component [component] of [create_ical] is the object that is
    first among the subcomponents of [my_instance]; a call of a method
    on it changes it where it is. *)
Definition on_first (f : Component -> Component) (inst : Component)
    : Component :=
  match inst with
  | Comp n ps (c :: subs) => Comp n ps (f c :: subs)
  | Comp n ps [] => inst
  end.

(** [icalendar.Calendar()] *)
Definition Calendar : Component := Comp (lit "VCALENDAR") [] [].

Record icalendar := mkIcalendar {
  (** [icalendar.cal.component_factory[objtype]()]; [None] stands for
      the [KeyError] of a name the factory does not have. *)
  component_factory : str -> option Component;
  (** [icalendar.Calendar.from_ical(text)]; [None] stands for the
      [ValueError] of a text that does not parse. *)
  from_ical : str -> option Component;
  (** [inst.to_ical()], decoded. *)
  to_ical : Component -> str
}.

Inductive exn := KeyError | ValueError | IndexError | TypeError | ReError.

Inductive outcome (A : Type) :=
  | Returns (a : A)
  | Raises (e : exn).
Arguments Returns {A} a.
Arguments Raises {A} e.

Definition bind {A B : Type} (x : outcome A) (f : A -> outcome B) : outcome B :=
  match x with
  | Returns a => f a
  | Raises e => Raises e
  end.

Notation "x <- c ;; k" := (bind c (fun x => k))
  (at level 61, c at next level, right associativity).
Notation "' pat <- c ;; k" := (bind c (fun x => match x with pat => k end))
  (at level 61, pat pattern, c at next level, right associativity).

(** The keyword arguments [**props]: the names in the order they were
    given, each once. *)
Definition dict := list (str * pyval).

(** [props.get(key)]; [None] when the key is absent. *)
Fixpoint get (props : dict) (key : str) : pyval :=
  match props with
  | [] => PNone
  | (k, v) :: rest => if str_eqb k key then v else get rest key
  end.

(** [props[key] = value] *)
Fixpoint set (props : dict) (key : str) (value : pyval) : dict :=
  match props with
  | [] => [(key, value)]
  | (k, v) :: rest =>
      if str_eqb k key then (k, value) :: rest else (k, v) :: set rest key value
  end.

(** [needle in text] *)
Fixpoint contains (needle text : str) : bool :=
  startswith needle text
  || match text with
     | [] => false
     | _ :: text' => contains needle text'
     end.

(** [key.upper()], on the letters a to z. *)
Definition upper (s : str) : str :=
  map (fun c => let n := nat_of_ascii c in
                if (97 <=? n) && (n <=? 122) then ascii_of_nat (n - 32) else c) s.

(** The values [for value in v] goes through: the elements of a
    sequence, the characters of a text; other values are not iterable. *)
Definition iterate (v : pyval) : outcome (list str) :=
  match v with
  | PList l => Returns l
  | PStr s => Returns (map (fun c => [c]) s)
  | _ => Raises TypeError
  end.

(** Lines 187 to 189: a [datetime] with no [tzinfo] goes through
    [astimezone]. *)
Definition with_timezone (env : environment) (v : pyval) : pyval :=
  match v with
  | PDatetime d =>
      match tzinfo d with
      | None => PDatetime (astimezone_utc env d)
      | Some _ => v
      end
  | _ => v
  end.

(** Lines 186 to 199, for one property: what is added to the component. *)
Definition merge_one (env : environment) (c : Component) (prop : str)
    (v : pyval) : outcome Component :=
  match v with
  | PNone => Returns c
  | _ =>
      let v := with_timezone env v in
      if str_eqb prop (lit "child") || str_eqb prop (lit "parent") then
        values <- iterate v ;;
        Returns (fold_left
                   (fun c value =>
                      add c (lit "related-to") (PStr value)
                          [(lit "reltype", upper prop)])
                   values c)
      else Returns (add c prop v [])
  end.

(** Lines 185 to 199: the loop over the properties. *)
Fixpoint merge_props (env : environment) (c : Component) (props : dict)
    : outcome Component :=
  match props with
  | [] => Returns c
  | (prop, v) :: rest =>
      c' <- merge_one env c prop v ;;
      merge_props env c' rest
  end.

(** The replacement text of [re.sub], a template: [\a], [\b], [\f],
    [\n], [\r], [\t], [\v] and [\\] stand for one character, [\0] and
    three octal digits for the character of that code, [\g<0>] for the
    whole match; a backslash before another letter, a reference to a
    group other than 0 (the pattern [^END:V] has no group) and a
    backslash at the end are errors; a backslash before any other
    character stays, with that character. *)
Definition escape_char (e : ascii) : option ascii :=
  if Ascii.eqb e "a" then Some (ascii_of_nat 7)
  else if Ascii.eqb e "b" then Some (ascii_of_nat 8)
  else if Ascii.eqb e "f" then Some (ascii_of_nat 12)
  else if Ascii.eqb e "n" then Some (ascii_of_nat 10)
  else if Ascii.eqb e "r" then Some (ascii_of_nat 13)
  else if Ascii.eqb e "t" then Some (ascii_of_nat 9)
  else if Ascii.eqb e "v" then Some (ascii_of_nat 11)
  else if Ascii.eqb e BACKSLASH then Some BACKSLASH
  else None.

Definition is_ascii_letter (c : ascii) : bool :=
  let n := nat_of_ascii c in
  ((65 <=? n) && (n <=? 90)) || ((97 <=? n) && (n <=? 122)).

Definition octval (c : ascii) : option nat :=
  let n := nat_of_ascii c in
  if (48 <=? n) && (n <=? 55) then Some (n - 48) else None.

Inductive template_mode :=
  | Literal
  | GroupName (seen : str).

Fixpoint expand_template (whole : str) (mode : template_mode) (s : str)
    : option str :=
  match mode, s with
  | GroupName _, [] => None
  | GroupName seen, c :: s' =>
      if Ascii.eqb c ">" then
        if str_eqb seen (lit "0")
        then option_map (app whole) (expand_template whole Literal s')
        else None
      else expand_template whole (GroupName (seen ++ [c])) s'
  | Literal, [] => Some []
  | Literal, c :: s1 =>
      if negb (Ascii.eqb c BACKSLASH)
      then option_map (cons c) (expand_template whole Literal s1)
      else
        match s1 with
        | [] => None
        | e :: s2 =>
            if Ascii.eqb e "g" then
              match s2 with
              | lt :: s3 =>
                  if Ascii.eqb lt "<"
                  then expand_template whole (GroupName []) s3
                  else None
              | [] => None
              end
            else if Ascii.eqb e "0" then
              match s2 with
              | d1 :: s3 =>
                  match octval d1 with
                  | Some a =>
                      match s3 with
                      | d2 :: s4 =>
                          match octval d2 with
                          | Some b =>
                              option_map (cons (ascii_of_nat (8 * a + b)))
                                         (expand_template whole Literal s4)
                          | None =>
                              option_map (cons (ascii_of_nat a))
                                         (expand_template whole Literal s3)
                          end
                      | [] => Some [ascii_of_nat a]
                      end
                  | None =>
                      option_map (cons (ascii_of_nat 0))
                                 (expand_template whole Literal s2)
                  end
              | [] => Some [ascii_of_nat 0]
              end
            else if isdigit e then
              match s2 with
              | d1 :: d2 :: s4 =>
                  match octval e, octval d1, octval d2 with
                  | Some a, Some b, Some c' =>
                      if 64 * a + 8 * b + c' <=? 255
                      then option_map (cons (ascii_of_nat (64 * a + 8 * b + c')))
                                      (expand_template whole Literal s4)
                      else None
                  | _, _, _ => None
                  end
              | _ => None
              end
            else
              match escape_char e with
              | Some ch => option_map (cons ch) (expand_template whole Literal s2)
              | None =>
                  if is_ascii_letter e then None
                  else option_map (fun r => c :: e :: r)
                                  (expand_template whole Literal s2)
              end
        end
  end.

(** [re.sub("^END:V", repl, text, flags=re.MULTILINE, count=1)] for a
    template that is well formed. *)
Definition m_end (replacement : str) : matcher := fun prev s =>
  if at_caret prev && startswith (lit "END:V") s
  then Some (5, replacement)
  else None.

Definition splice (repl : str) (ret : str) : outcome str :=
  match expand_template (lit "END:V") Literal repl with
  | Some replacement => Returns (re_sub (m_end replacement) 1 ret)
  | None => Raises ReError
  end.

(** Lines 154 to 172, the branch that builds a calendar: the calendar,
    the component in it, and the properties to merge. *)
Definition construct (env : environment) (lib : icalendar)
    (fragment_text : str) (objtype : option str) (language : str)
    (props : dict) : outcome (Component * Component * dict) :=
  let my_instance :=
    add Calendar (lit "prodid")
        (PStr (lit "-//python-caldav//caldav//" ++ language)) [] in
  let my_instance := add my_instance (lit "version") (PStr (lit "2.0")) [] in
  let objtype := match objtype with Some t => t | None => lit "VEVENT" end in
  match component_factory lib objtype with
  | None => Raises KeyError
  | Some component =>
      let component :=
        add component (lit "dtstamp") (PDatetime (now_utc env)) [] in
      let component :=
        if negb (truthy (get props (lit "uid")))
           && negb (contains (NL :: lit "UID:") fragment_text)
        then add component (lit "uid") (PUuid (uuid1 env)) []
        else component in
      let my_instance := add_component my_instance component in
      let props :=
        if negb (truthy (get props (lit "status")))
           && negb (contains (NL :: lit "STATUS:") fragment_text)
           && str_eqb objtype (lit "VTODO")
        then set props (lit "status") (PStr (lit "NEEDS-ACTION"))
        else props in
      Returns (my_instance, component, props)
  end.

(** Lines 175 to 182, the branch that parses the fragment: the calendar
    and its first component. *)
Definition augment (lib : icalendar) (ical_fragment : str)
    : outcome (Component * Component) :=
  let ical_fragment :=
    if negb (startswith (lit "BEGIN:VCALENDAR") (strip ical_fragment))
    then lit "BEGIN:VCALENDAR\n" ++ to_normal_str (strip ical_fragment)
         ++ lit "\nEND:VCALENDAR\n"
    else ical_fragment in
  match from_ical lib ical_fragment with
  | None => Raises ValueError
  | Some my_instance =>
      match subcomponents my_instance with
      | [] => Raises IndexError
      | component :: _ => Returns (my_instance, component)
      end
  end.

(** Lines 185 to 200: the properties are merged into the component,
    which is the first one of the calendar, and the calendar is
    serialized. *)
Definition serialize (env : environment) (lib : icalendar)
    (my_instance component : Component) (props : dict) : outcome str :=
  component <- merge_props env component props ;;
  let my_instance := on_first (fun _ => component) my_instance in
  Returns (to_normal_str (to_ical lib my_instance)).

(** Whether the first branch is taken (line 153). *)
Definition constructs (ical_fragment : option str) : bool :=
  match ical_fragment with
  | None => true
  | Some f =>
      match f with [] => true | _ :: _ => false end
      || negb (search_line_start (lit "BEGIN:V") f)
  end.

(** [create_ical(ical_fragment, objtype, language, **props)] *)
Definition create_ical (env : environment) (lib : icalendar)
    (ical_fragment : option str) (objtype : option str) (language : str)
    (props : dict) : outcome str :=
  let ical_fragment := to_normal_str_opt ical_fragment in
  let fragment_text := match ical_fragment with Some f => f | None => [] end in
  '(my_instance, component, ical_fragment, props) <-
    (if constructs ical_fragment then
       '(my_instance, component, props) <-
         construct env lib fragment_text objtype language props ;;
       Returns (my_instance, component, ical_fragment, props)
     else
       '(my_instance, component) <- augment lib fragment_text ;;
       Returns (my_instance, component, None, props)) ;;
  ret <- serialize env lib my_instance component props ;;
  match ical_fragment with
  | Some f =>
      match strip f with
      | [] => Returns ret
      | _ :: _ => splice (strip f ++ lit "\nEND:V") ret
      end
  | None => Returns ret
  end.

(** ** The insertion, as the specification words it

    [text] put in, with a newline after it, before the first line of
    [ret] that starts with [END:V]; the rest of [ret] is as it was, and
    so is all of [ret] when no line of it starts with [END:V]. *)
Fixpoint insert_from (text : str) (prev : option ascii) (ret : str) : str :=
  if at_caret prev && startswith (lit "END:V") ret then text ++ [NL] ++ ret
  else match ret with
       | [] => []
       | c :: ret' => c :: insert_from text (Some c) ret'
       end.

Definition insert_before_first_end (text ret : str) : str :=
  insert_from text None ret.

(** ** An implementation of the interface

    Content lines without folding, escaping or parameters on parsing:
    enough of the library to run [create_ical] on a given input. *)

Fixpoint digits (width : nat) (n : Z) : str :=
  match width with
  | O => []
  | S w => digits w (n / 10)%Z ++ [ascii_of_nat (48 + Z.to_nat (n mod 10)%Z)]
  end.

Definition render_datetime (d : datetime) : str :=
  digits 4 (year d) ++ digits 2 (month d) ++ digits 2 (day d) ++ lit "T"
  ++ digits 2 (hour d) ++ digits 2 (minute d) ++ digits 2 (second d)
  ++ match tzinfo d with Some 0%Z => lit "Z" | _ => [] end.

Definition render_value (v : pyval) : str :=
  match v with
  | PNone => []
  | PStr s => s
  | PDatetime d => render_datetime d
  | PUuid u => u
  | PList l => join (lit ",") l
  end.

Definition render_property (p : property) : str :=
  upper (pname p)
  ++ flat_map (fun kv => lit ";" ++ upper (fst kv) ++ lit "=" ++ snd kv) (pparams p)
  ++ lit ":" ++ render_value (pvalue p) ++ lit "\r\n".

Fixpoint render (c : Component) : str :=
  match c with
  | Comp n ps subs =>
      lit "BEGIN:" ++ n ++ lit "\r\n"
      ++ flat_map render_property ps
      ++ flat_map render subs
      ++ lit "END:" ++ n ++ lit "\r\n"
  end.

Definition parse_property (line : str) : property :=
  {| pname := takewhile (fun c => negb (Ascii.eqb c ":")) line;
     pvalue := PStr (tl (dropwhile (fun c => negb (Ascii.eqb c ":")) line));
     pparams := [] |}.

Fixpoint parse_lines (open : list Component) (lines : list str)
    : option Component :=
  match lines with
  | [] => None
  | l :: ls =>
      match l with
      | [] => parse_lines open ls
      | _ :: _ =>
          match strip_prefix (lit "BEGIN:") l with
          | Some n => parse_lines (Comp n [] [] :: open) ls
          | None =>
              match strip_prefix (lit "END:") l, open with
              | Some _, [top] =>
                  if forallb (fun k => str_eqb k []) ls then Some top else None
              | Some _, top :: parent :: rest =>
                  parse_lines (add_component parent top :: rest) ls
              | Some _, [] => None
              | None, top :: rest =>
                  let p := parse_property l in
                  parse_lines (add top (pname p) (pvalue p) [] :: rest) ls
              | None, [] => None
              end
          end
      end
  end.

Definition KNOWN_COMPONENTS : list str :=
  [lit "VEVENT"; lit "VTODO"; lit "VJOURNAL"; lit "VFREEBUSY"; lit "VTIMEZONE";
   lit "VALARM"; lit "VCALENDAR"].

Definition content_lines : icalendar :=
  {| component_factory := fun objtype =>
       if existsb (str_eqb (upper objtype)) KNOWN_COMPONENTS
       then Some (Comp (upper objtype) [] []) else None;
     from_ical := fun text => parse_lines [] (split NL text);
     to_ical := render |}.

(** A world to run in: the clock at 1 May 2023, 10:00:00 UTC, and a
    system whose local time is one hour ahead of UTC. *)
Definition env_plus_one : environment :=
  {| now_utc := mkDatetime 2023 5 1 10 0 0 (Some 0%Z);
     uuid1 := lit "a8098c1a-f86e-11da-bd1a-00112444be1e";
     local_utcoffset := fun _ => 3600%Z |}.

(** ** The third substitution, in words

    A backslash is dropped when the backslashes after it, if there are
    any, are followed by an apostrophe and a double quote in that order;
    every other character stays. *)
Fixpoint drop_backslashes_before_pair (s : str) : str :=
  match s with
  | [] => []
  | c :: s' =>
      if Ascii.eqb c BACKSLASH
         && startswith [SQUOTE; DQUOTE] (dropwhile (Ascii.eqb BACKSLASH) s')
      then drop_backslashes_before_pair s'
      else c :: drop_backslashes_before_pair s'
  end.

(** ** Notions used in the proofs *)

(** The character before the position reached after the text [w]. *)
Definition prev_after (prev : option ascii) (w : str) : option ascii :=
  match rev w with
  | c :: _ => Some c
  | [] => prev
  end.

Definition is_backslash (c : ascii) : Prop := Ascii.eqb BACKSLASH c = true.

(** The pattern of [m] matches nowhere in [t]. *)
Definition clean (m : matcher) (t : str) : Prop :=
  forall a b prev, t = a ++ b -> m prev b = None.

(** The scan with no limit on the number of replacements. *)
Definition scan (m : matcher) (prev : option ascii) (s : str) : str :=
  sub_scan m None 0 prev s.

(** The fourth substitution in closed form: from the first position
    where only spaces are left before the end of the text, or before
    its last newline, the spaces are dropped. *)
Fixpoint strip_tail (s : str) : str :=
  match s with
  | [] => []
  | c :: s' =>
      if at_dollar (dropwhile (Ascii.eqb SP) s)
      then dropwhile (Ascii.eqb SP) s
      else c :: strip_tail s'
  end.

(** Wherever the scan of [s] with [m] copies a character, [m'] does not
    match. *)
Definition copies_ok (m m' : matcher) (s : str) : Prop :=
  forall a c b p, s = a ++ c :: b -> m p (c :: b) = None ->
                  forall p', m' p' (c :: b) = None.

(** The literals of the patterns, as lists of characters. *)
Definition COMPLETED : str := Eval vm_compute in lit "COMPLETED:".
Definition OMPLETED : str := Eval vm_compute in tl COMPLETED.
Definition T120000Z : str := Eval vm_compute in lit "T120000Z".
Definition CREATED_OLD : str := Eval vm_compute in lit "CREATED:00001231T000000Z".
Definition REATED_OLD : str := Eval vm_compute in tl CREATED_OLD.
Definition CREATED_NEW : str := Eval vm_compute in lit "CREATED:19700101T000000Z".
Definition REATED_NEW : str := Eval vm_compute in tl CREATED_NEW.

(** The test for the character [K]. *)
Definition starts (K : ascii) : ascii -> bool := Ascii.eqb K.

(** The text [w] occurs in [t]; it occurs there with a white-space
    character after it. *)
Definition occ (w t : str) : Prop := exists a b, t = a ++ w ++ b.

Definition occ_ws (w t : str) : Prop :=
  exists a c b, t = a ++ w ++ c :: b /\ isspace c = true.

(** A text with no white space in it, and not empty. *)
Definition word (w : str) : Prop :=
  w <> [] /\ Forall (fun c => isspace c = false) w.

(** The lines, each with its newline. *)
Definition unlines (ls : list str) : str := flat_map (fun l => l ++ [NL]) ls.

(** The text ends with a character that is neither a digit nor a space. *)
Definition plain_end (t : str) : Prop :=
  exists t' z, t = t' ++ [z] /\ isdigit z = false /\ z <> SP.

Definition ends_with_digit (w : str) : Prop :=
  exists w' d, w = w' ++ [d] /\ isdigit d = true.

Definition END_V : str := Eval vm_compute in lit "END:V".

(** The number of newlines of a text. *)
Definition count_nl (s : str) : nat := count_occ ascii_dec s NL.

(** ** Notions used to state further properties *)

(** [re.search(pattern, s)], as a truth value: whether the pattern of
    [m] matches at some position of [s]. *)
Fixpoint re_search (m : matcher) (prev : option ascii) (s : str) : bool :=
  match m prev s with
  | Some _ => true
  | None =>
      match s with
      | [] => false
      | c :: s' => re_search m (Some c) s'
      end
  end.

(** The number of lines of a text: its newlines, and one more for a
    last line that has no newline after it. *)
Definition lines_of (s : str) : nat :=
  count_nl s + (if endswith [NL] s then 0 else 1).

(** The properties that are given a value other than [None]. *)
Definition given (props : dict) : dict :=
  filter (fun kv => match snd kv with PNone => false | _ => true end) props.

(** [key in props] *)
Definition has_key (props : dict) (key : str) : bool :=
  existsb (fun kv => str_eqb (fst kv) key) props.

(** No property holds a [datetime] without a time zone. *)
Definition no_naive_datetime (props : dict) : bool :=
  forallb (fun kv => match snd kv with
                     | PDatetime d =>
                         match tzinfo d with Some _ => true | None => false end
                     | _ => true
                     end) props.

(** The properties a sequence of identifiers is merged as: one
    RELATED-TO property for each, with the parameter RELTYPE. *)
Definition relations (reltype : str) (ids : list str) : list property :=
  map (fun value => mkProperty (lit "related-to") (PStr value)
                               [(lit "reltype", reltype)]) ids.

(** The text of the fragment, as lines 161 and 169 read it:
    [ical_fragment or ""]. *)
Definition text_or_empty (ical_fragment : option str) : str :=
  match ical_fragment with Some f => f | None => [] end.

(** Evaluates the literals of the goal, so that the comparisons of
    characters can be read off. *)
Ltac eval_lits :=
  repeat match goal with
         | |- context [lit ?s] =>
             let v := eval vm_compute in (lit s) in change (lit s) with v
         end.
(** ** Basic facts about texts *)

Lemma str_eqb_eq (a b : str) : str_eqb a b = true <-> a = b.
Proof.
  unfold str_eqb. destruct (list_eq_dec ascii_dec a b); split; congruence.
Qed.

Lemma str_eqb_neq (a b : str) : str_eqb a b = false <-> a <> b.
Proof.
  unfold str_eqb. destruct (list_eq_dec ascii_dec a b); split; congruence.
Qed.

Lemma isspace_NL : isspace NL = true.
Proof. reflexivity. Qed.

Lemma dropwhile_suffix (f : ascii -> bool) (s : str) :
  exists p, s = p ++ dropwhile f s /\ Forall (fun c => f c = true) p.
Proof.
  induction s as [|c s IH]; simpl.
  - exists []. split; [reflexivity | constructor].
  - destruct (f c) eqn:E.
    + destruct IH as (p & Hp & Hall). exists (c :: p). split.
      * simpl. now rewrite <- Hp.
      * now constructor.
    + exists []. split; [reflexivity | constructor].
Qed.

Lemma dropwhile_head (f : ascii -> bool) (s : str) c t :
  dropwhile f s = c :: t -> f c = false.
Proof.
  induction s as [|a s IH]; simpl; [discriminate|].
  destruct (f a) eqn:E; [exact IH|]. intros H. now inversion H; subst.
Qed.

Lemma takewhile_dropwhile (f : ascii -> bool) (s : str) :
  takewhile f s ++ dropwhile f s = s.
Proof.
  induction s as [|c s IH]; simpl; [reflexivity|].
  destruct (f c); simpl; [now rewrite IH | reflexivity].
Qed.

Lemma takewhile_all (f : ascii -> bool) (s : str) :
  Forall (fun c => f c = true) (takewhile f s).
Proof.
  induction s as [|c s IH]; simpl; [constructor|].
  destruct (f c) eqn:E; [now constructor | constructor].
Qed.

Lemma dropwhile_app_all (f : ascii -> bool) (p s : str) :
  Forall (fun c => f c = true) p -> dropwhile f (p ++ s) = dropwhile f s.
Proof.
  induction 1 as [|c p Hc _ IH]; simpl; [reflexivity|]. now rewrite Hc.
Qed.

Lemma takewhile_app_all (f : ascii -> bool) (p s : str) :
  Forall (fun c => f c = true) p -> takewhile f (p ++ s) = p ++ takewhile f s.
Proof.
  induction 1 as [|c p Hc _ IH]; simpl; [reflexivity|]. now rewrite Hc, IH.
Qed.

(** A stripped text is empty or ends with a character that is no white
    space. *)
Lemma rstrip_last (s : str) :
  rstrip s = [] \/ exists t c, rstrip s = t ++ [c] /\ isspace c = false.
Proof.
  unfold rstrip. destruct (dropwhile isspace (rev s)) as [|c t] eqn:E.
  - now left.
  - right. exists (rev t), c. split; [reflexivity|].
    eapply dropwhile_head; eassumption.
Qed.

Lemma strip_last (s : str) :
  strip s = [] \/ exists t c, strip s = t ++ [c] /\ isspace c = false.
Proof.
  unfold strip, lstrip. destruct (rstrip_last s) as [E | (t & c & E & Hc)].
  - rewrite E. now left.
  - rewrite E. destruct (dropwhile_suffix isspace (t ++ [c])) as (p & Hp & Hall).
    destruct (dropwhile isspace (t ++ [c])) as [|d u] eqn:Ed.
    + rewrite app_nil_r in Hp. subst p.
      apply Forall_app in Hall. destruct Hall as [_ Hall].
      inversion Hall; subst. congruence.
    + right. destruct (exists_last (l := d :: u)) as (u' & z & Hz); [discriminate|].
      rewrite Hz in Hp. rewrite app_assoc in Hp.
      apply app_inj_tail in Hp. destruct Hp as [_ Hp]. subst z.
      exists u', c. now split.
Qed.

(** ** Lines *)

Lemma split_nonempty (sep : ascii) (s : str) : split sep s <> [].
Proof.
  destruct s as [|c s]; simpl; [discriminate|].
  destruct (Ascii.eqb c sep); [discriminate|].
  destruct (split sep s); discriminate.
Qed.

Lemma join_split (sep : ascii) (s : str) : join [sep] (split sep s) = s.
Proof.
  induction s as [|c s IH]; simpl; [reflexivity|].
  destruct (Ascii.eqb_spec c sep) as [->|Hne].
  - pose proof (split_nonempty sep s) as Hn.
    destruct (split sep s) as [|l ls] eqn:E; [congruence|].
    simpl. f_equal. exact IH.
  - pose proof (split_nonempty sep s) as Hn.
    destruct (split sep s) as [|l ls] eqn:E; [congruence|].
    destruct ls; simpl in *; now rewrite <- IH.
Qed.

(** The last line of a text that ends with a character other than the
    separator ends with that character. *)
Lemma split_last (sep : ascii) (s : str) (c : ascii) :
  c <> sep -> exists ls l, split sep (s ++ [c]) = ls ++ [l ++ [c]].
Proof.
  intros Hc. induction s as [|a s (ls & l & IH)]; simpl.
  - destruct (Ascii.eqb_spec c sep); [contradiction|].
    exists [], []. reflexivity.
  - rewrite IH. destruct (Ascii.eqb_spec a sep).
    + exists ([] :: ls), l. reflexivity.
    + destruct ls as [|k ks]; simpl.
      * exists [], (a :: l). reflexivity.
      * exists ((a :: k) :: ks), l. reflexivity.
Qed.

Lemma join_snoc (sep : str) (ls : list str) (l : str) :
  exists t, join sep (ls ++ [l]) = t ++ l.
Proof.
  induction ls as [|k ks (t & IH)]; simpl.
  - exists []. reflexivity.
  - destruct (ks ++ [l]) eqn:E.
    + now destruct ks.
    + rewrite IH. exists (k ++ sep ++ t). now rewrite !app_assoc.
Qed.

(** ** The duplicate filter *)

Lemma begin_not_name (line : str) :
  is_begin line = true -> is_ender line = false /\ is_stamp line = false.
Proof.
  unfold is_begin, is_ender, is_stamp, ENDERS, STAMPS. eval_lits.
  destruct line as [|a line]; [discriminate|].
  cbn -[Ascii.eqb]. destruct (Ascii.eqb_spec "B"%char a) as [<-|]; [|discriminate].
  intros _. split; reflexivity.
Qed.

Lemma ender_not_stamp (line : str) :
  is_ender line = true -> is_stamp line = false.
Proof.
  unfold is_ender, is_stamp, ENDERS, STAMPS. eval_lits.
  destruct line as [|a [|b [|c line]]]; cbn -[Ascii.eqb]; try reflexivity.
  - destruct (Ascii.eqb "D" a); reflexivity.
  - destruct (Ascii.eqb "D" a), (Ascii.eqb "U" b), (Ascii.eqb "T" b);
      reflexivity.
  - destruct (Ascii.eqb_spec "D"%char a) as [<-|]; [|reflexivity].
    destruct (Ascii.eqb_spec "T"%char b) as [<-|]; [|reflexivity].
    destruct (Ascii.eqb_spec "S"%char c) as [<-|]; [|reflexivity].
    cbn. discriminate.
Qed.

Lemma open_block_snoc (pre : list str) (l : str) :
  open_block (pre ++ [l]) = if is_begin l then [] else open_block pre ++ [l].
Proof. unfold open_block. now rewrite fold_left_app. Qed.

Lemma run_filter_snoc self (pre : list str) (l : str) :
  run_filter self (pre ++ [l]) = snd (call (run_filter self pre) l).
Proof. unfold run_filter. now rewrite fold_left_app. Qed.

Lemma existsb_snoc (f : str -> bool) (ls : list str) (l : str) :
  existsb f (ls ++ [l]) = existsb f ls || f l.
Proof. rewrite existsb_app. simpl. now rewrite orb_false_r. Qed.

(** What the two counters hold after the lines [pre]: each is 1 when a
    line of its group has been seen in the open block and 0 otherwise. *)
Lemma filter_state (pre : list str) :
  run_filter new_filter pre =
  {| stamped := if existsb is_stamp (open_block pre) then 1 else 0;
     ended := if existsb is_ender (open_block pre) then 1 else 0 |}.
Proof.
  induction pre as [|l pre IH] using rev_ind; [reflexivity|].
  rewrite run_filter_snoc, IH, open_block_snoc. unfold call.
  fold (is_begin l) (is_ender l) (is_stamp l).
  destruct (is_begin l) eqn:Hb; [reflexivity|].
  rewrite !existsb_snoc.
  destruct (is_ender l) eqn:He.
  - rewrite (ender_not_stamp l He), orb_false_r, orb_true_r. cbn [ended stamped].
    destruct (existsb is_ender (open_block pre)); reflexivity.
  - rewrite orb_false_r. destruct (is_stamp l) eqn:Hs.
    + rewrite orb_true_r. cbn [ended stamped].
      destruct (existsb is_stamp (open_block pre)); reflexivity.
    + rewrite orb_false_r. reflexivity.
Qed.

Lemma call_keeps (pre : list str) (l : str) :
  fst (call (run_filter new_filter pre) l) = keeps pre l.
Proof.
  rewrite filter_state. unfold call, keeps.
  fold (is_begin l) (is_ender l) (is_stamp l).
  destruct (is_begin l); [reflexivity|].
  destruct (is_ender l).
  - cbn [ended]. destruct (existsb is_ender (open_block pre)); reflexivity.
  - destruct (is_stamp l); [|reflexivity].
    cbn [stamped]. destruct (existsb is_stamp (open_block pre)); reflexivity.
Qed.

Lemma py_filter_from (pre lines : list str) :
  py_filter (run_filter new_filter pre) lines = kept_lines pre lines.
Proof.
  revert pre. induction lines as [|l ls IH]; intros pre; [reflexivity|].
  simpl. rewrite <- call_keeps, <- IH, run_filter_snoc.
  destruct (call (run_filter new_filter pre) l) as [keep self']. reflexivity.
Qed.

Lemma verdicts_from (pre lines : list str) (l : str) (post : list str) :
  lines = pre ++ l :: post ->
  forall self0 pre0, self0 = run_filter new_filter pre0 ->
  nth (List.length pre) (verdicts self0 lines) true = keeps (pre0 ++ pre) l.
Proof.
  intros ->. induction pre as [|a pre IH]; intros self0 pre0 ->.
  - simpl. rewrite app_nil_r, <- call_keeps.
    destruct (call (run_filter new_filter pre0) l). reflexivity.
  - simpl. destruct (call (run_filter new_filter pre0) a) as [keep self'] eqn:E.
    simpl. rewrite (IH self' (pre0 ++ [a])).
    + now rewrite <- app_assoc.
    + rewrite run_filter_snoc, E. reflexivity.
Qed.

(** C5.  The duplicate filter keeps a line according to [keeps]: along
    any document, the line that comes after the lines [pre] is kept when
    it starts a block, or is of neither group; a DURATION, DTEND or DUE
    line is kept exactly when no line of these three names came before
    it in the block it is in, and a DTSTAMP line exactly when no DTSTAMP
    line did.  A block reaches back to the last [BEGIN:V] line, so after
    a new [BEGIN:V] line the next such line is kept again.  The lines
    the filter lets through are the kept ones, in order. *)
Theorem filter_keeps_first_of_block :
  forall pre l post,
    nth (List.length pre) (verdicts new_filter (pre ++ l :: post)) true
      = keeps pre l
    /\ py_filter new_filter (pre ++ l :: post)
      = kept_lines [] pre ++ (if keeps pre l then [l] else [])
          ++ kept_lines (pre ++ [l]) post.
Proof.
  intros pre l post. split.
  - now rewrite (verdicts_from pre _ l post eq_refl new_filter []).
  - change new_filter with (run_filter new_filter []).
    rewrite py_filter_from.
    assert (G : forall p0 a b, kept_lines p0 (a ++ b)
                 = kept_lines p0 a ++ kept_lines (p0 ++ a) b).
    { intros p0 a. revert p0. induction a as [|x a IH]; intros p0 b; simpl.
      - now rewrite app_nil_r.
      - rewrite IH, <- app_assoc. simpl. destruct (keeps p0 x); reflexivity. }
    rewrite G. simpl. destruct (keeps pre l); reflexivity.
Qed.

Lemma verdicts_snoc self (ls : list str) (l : str) :
  verdicts self (ls ++ [l])
  = verdicts self ls ++ [fst (call (run_filter self ls) l)].
Proof.
  revert self. induction ls as [|a ls IH]; intros self.
  - cbn [app verdicts run_filter fold_left]. destruct (call self l); reflexivity.
  - cbn [app verdicts]. destruct (call self a) as [keep self'] eqn:E.
    rewrite IH. unfold run_filter. cbn [fold_left]. rewrite E. reflexivity.
Qed.

Lemma py_filter_snoc self (ls : list str) (l : str) :
  py_filter self (ls ++ [l])
  = py_filter self ls ++ (if fst (call (run_filter self ls) l) then [l] else []).
Proof.
  revert self. induction ls as [|a ls IH]; intros self.
  - cbn [app py_filter run_filter fold_left].
    destruct (call self l) as [[|] ?]; reflexivity.
  - cbn [app py_filter]. destruct (call self a) as [keep self'] eqn:E.
    rewrite IH. unfold run_filter. cbn [fold_left]. rewrite E.
    destruct keep; reflexivity.
Qed.

(** ** [fix] *)

Lemma vcal_fix_text (event : str) (p : process) :
  fst (vcal_fix event p) = fix_text event.
Proof.
  unfold vcal_fix, fix_text.
  destruct (negb (str_eqb (fixed2 (canonical event)) (canonical event)));
    reflexivity.
Qed.

Lemma endswith_snoc2 (s : str) (c d : ascii) (a b : ascii) :
  endswith [a; b] (s ++ [c; d]) = Ascii.eqb b d && (Ascii.eqb a c && true).
Proof.
  unfold endswith. rewrite rev_app_distr. reflexivity.
Qed.

Lemma endswith_snoc1 (s : str) (d : ascii) (b : ascii) :
  endswith [b] (s ++ [d]) = Ascii.eqb b d && true.
Proof.
  unfold endswith. rewrite rev_app_distr. reflexivity.
Qed.

Lemma dedup_ends_once (f : str) :
  last (verdicts new_filter (split NL (strip f))) true = true ->
  endswith [NL] (dedup f) = true /\ endswith [NL; NL] (dedup f) = false.
Proof.
  intros Hlast. unfold dedup. split.
  - rewrite endswith_snoc1. reflexivity.
  - destruct (strip_last f) as [E | (t & c & E & Hc)].
    + rewrite E. reflexivity.
    + rewrite E in *.
      assert (Hne : c <> NL) by (intros ->; discriminate).
      destruct (split_last NL t c Hne) as (ls & l & Hs).
      rewrite Hs in *. rewrite verdicts_snoc, last_last in Hlast.
      rewrite py_filter_snoc, Hlast.
      destruct (join_snoc [NL] (py_filter new_filter ls) (l ++ [c])) as (u & ->).
      replace ((u ++ l ++ [c]) ++ [NL]) with ((u ++ l) ++ [c; NL])
        by (now rewrite <- !app_assoc).
      rewrite endswith_snoc2.
      destruct (Ascii.eqb_spec NL c); [congruence|]. reflexivity.
Qed.

(** C7, as amended.  The text [fix] returns ends with a newline; it
    ends with one newline only whenever the duplicate filter keeps the
    last line of the stripped text. *)
Theorem fix_ends_with_one_newline :
  forall (event : str) (p : process),
    endswith [NL] (fst (vcal_fix event p)) = true
    /\ (last (verdicts new_filter
                (split NL (strip (fixed (canonical event))))) true = true ->
        endswith [NL; NL] (fst (vcal_fix event p)) = false).
Proof.
  intros event p. rewrite vcal_fix_text. split.
  - unfold fix_text, fixed2, dedup. rewrite endswith_snoc1. reflexivity.
  - intros H. now apply dedup_ends_once.
Qed.

Lemma fix_ends_with_one_newline_witness :
  endswith [NL] (fst (vcal_fix (lit "BEGIN:VEVENT\nDTSTAMP:1\nEND:VEVENT") fresh_process)) = true
  /\ endswith [NL; NL] (fst (vcal_fix (lit "BEGIN:VEVENT\nDTSTAMP:1\nEND:VEVENT") fresh_process)) = false.
Proof.
  destruct (fix_ends_with_one_newline
              (lit "BEGIN:VEVENT\nDTSTAMP:1\nEND:VEVENT") fresh_process)
    as [Hnl Hone].
  split; [exact Hnl|]. apply Hone. vm_compute. reflexivity.
Defined.

(** C7 fails as stated.  The second DTSTAMP line is dropped, and the
    empty line before it becomes the last line: the text returned ends
    with two newlines. *)
Lemma fix_two_trailing_newlines :
  fst (vcal_fix (lit "DTSTAMP:1\n\nDTSTAMP:2\n") fresh_process)
    = lit "DTSTAMP:1\n\n"
  /\ endswith [NL; NL]
       (fst (vcal_fix (lit "DTSTAMP:1\n\nDTSTAMP:2\n") fresh_process)) = true.
Proof. split; vm_compute; reflexivity. Qed.

(** C9.  A call of [fix] adds one to [fixup_error_loggings] when the
    text it returns differs from the canonical form of its input, and
    leaves the counter as it was when the two are equal. *)
Theorem fix_counts_changes :
  forall (event : str) (p : process),
    fixup_error_loggings (snd (vcal_fix event p))
    = (fixup_error_loggings p
       + (if str_eqb (fst (vcal_fix event p)) (canonical event) then 0 else 1))%Z.
Proof.
  intros event p. unfold vcal_fix. cbv zeta.
  destruct (str_eqb (fixed2 (canonical event)) (canonical event)) eqn:E;
    cbn [negb fst snd fixup_error_loggings]; rewrite E; lia.
Qed.

(** C6 fails as stated.  The first call drops the second DTSTAMP line
    and leaves an empty last line; the second call strips it. *)
Lemma fix_not_idempotent :
  fst (vcal_fix (lit "DTSTAMP:1\n\nDTSTAMP:2\n") fresh_process)
    = lit "DTSTAMP:1\n\n"
  /\ fst (vcal_fix (fst (vcal_fix (lit "DTSTAMP:1\n\nDTSTAMP:2\n") fresh_process))
            (snd (vcal_fix (lit "DTSTAMP:1\n\nDTSTAMP:2\n") fresh_process)))
    = lit "DTSTAMP:1\n".
Proof. split; vm_compute; reflexivity. Qed.

(** C2: the code at the failing input.  The spaces at the end of the
    first line are still there in the text returned. *)
Theorem fix_keeps_inner_trailing_spaces :
  fst (vcal_fix (lit "SUMMARY:a  \nLOCATION:b  \n") fresh_process)
    = lit "SUMMARY:a  \nLOCATION:b\n".
Proof. vm_compute. reflexivity. Qed.

(** C8: the code at the failing input.  The newline after the date is
    taken by the first substitution, and the COMPLETED line runs into
    the next one: three lines go in and two come out. *)
Theorem fix_completed_merges_lines :
  fix_completed (lit "COMPLETED:20200101\nSUMMARY:x\nEND:VTODO\n")
    = lit "COMPLETED:20200101T120000ZSUMMARY:x\nEND:VTODO\n"
  /\ fst (vcal_fix (lit "COMPLETED:20200101\nSUMMARY:x\nEND:VTODO\n") fresh_process)
    = lit "COMPLETED:20200101T120000ZSUMMARY:x\nEND:VTODO\n".
Proof. split; vm_compute; reflexivity. Qed.

(** ** [create_ical] *)

Lemma startswith_app (p s : str) :
  startswith p s = true -> s = p ++ skipn (List.length p) s.
Proof.
  revert s. induction p as [|a p IH]; intros s H; [reflexivity|].
  destruct s as [|b s]; [discriminate|]. simpl in H.
  apply andb_prop in H. destruct H as [Hab H].
  apply Ascii.eqb_eq in Hab. subst b. simpl. f_equal. now apply IH.
Qed.

(** Once the count is used up the rest of the text is copied. *)
Lemma sub_scan_spent (m : matcher) (k : nat) (prev : option ascii) (s : str) :
  sub_scan m (Some 0) k prev s = skipn k s.
Proof.
  revert k prev. induction s as [|c s IH]; intros k prev.
  - destruct k; reflexivity.
  - destruct k; simpl.
    + f_equal. apply (IH 0).
    + apply IH.
Qed.

Lemma re_sub_end_once (r : str) (prev : option ascii) (ret : str) (text : str) :
  r = text ++ [NL] ++ lit "END:V" ->
  sub_scan (m_end r) (Some 1) 0 prev ret = insert_from text prev ret.
Proof.
  intros ->. revert prev. induction ret as [|c ret IH]; intros prev.
  - cbn [sub_scan spent insert_from]. unfold m_end.
    destruct (at_caret prev); reflexivity.
  - cbn [sub_scan spent insert_from]. unfold m_end at 1.
    destruct (at_caret prev && startswith (lit "END:V") (c :: ret)) eqn:E.
    + apply andb_prop in E. destruct E as [_ E].
      apply startswith_app in E. change (List.length (lit "END:V")) with 5 in E.
      cbn [pay option_map pred]. rewrite sub_scan_spent.
      change (skipn 5 (c :: ret)) with (skipn 4 ret) in E.
      rewrite E, <- !app_assoc. reflexivity.
    + f_equal. apply IH.
Qed.

(** A text with no backslash in it is a template that stands for
    itself. *)
Lemma expand_template_plain (whole s : str) :
  ~ In BACKSLASH s -> expand_template whole Literal s = Some s.
Proof.
  induction s as [|c s IH]; intros H; [reflexivity|].
  cbn [expand_template].
  destruct (Ascii.eqb_spec c BACKSLASH) as [->|Hc].
  - exfalso. apply H. now left.
  - cbn [negb]. rewrite IH; [reflexivity|]. intros Hin. apply H. now right.
Qed.

Lemma splice_plain (text ret : str) :
  ~ In BACKSLASH text ->
  splice (text ++ lit "\nEND:V") ret = Returns (insert_before_first_end text ret).
Proof.
  intros H. unfold splice. rewrite expand_template_plain.
  - unfold re_sub, insert_before_first_end. f_equal.
    now apply re_sub_end_once.
  - intros Hin. apply in_app_or in Hin. destruct Hin as [Hin | Hin]; [auto|].
    vm_compute in Hin. repeat (destruct Hin as [Hin | Hin]; [discriminate|]).
    exact Hin.
Qed.

Lemma constructs_iff (f : str) :
  constructs (Some f)
  = match f with [] => true | _ :: _ => negb (search_line_start (lit "BEGIN:V") f) end.
Proof. destruct f; reflexivity. Qed.

(** C1, as amended.  When the fragment is not empty and has a line that
    starts with [BEGIN:V], [create_ical] parses it, merges the
    properties into its first component and returns the serialization
    as it is: the text of the fragment is dropped after the parse and
    nothing is put back into the serialization. *)
Theorem create_ical_augment_returns_serialization :
  forall (env : environment) (lib : icalendar) (frag : str)
         (objtype : option str) (language : str) (props : dict),
    to_normal_str frag <> [] ->
    search_line_start (lit "BEGIN:V") (to_normal_str frag) = true ->
    create_ical env lib (Some frag) objtype language props
    = ('(my_instance, component) <- augment lib (to_normal_str frag) ;;
       serialize env lib my_instance component props).
Proof.
  intros env lib frag objtype language props Hne Hbegin.
  unfold create_ical. cbn [to_normal_str_opt option_map].
  rewrite constructs_iff, Hbegin.
  destruct (to_normal_str frag) as [|c f] eqn:E; [congruence|].
  cbn [negb]. destruct (augment lib (c :: f)) as [[inst comp]|e]; [|reflexivity].
  cbn [bind]. destruct (serialize env lib inst comp props); reflexivity.
Qed.

Lemma create_ical_augment_returns_serialization_witness :
  create_ical env_plus_one content_lines
    (Some (lit "BEGIN:VEVENT\nUID:1\nX-ODD:1\nEND:VEVENT")) None (lit "en_DK") []
  = ('(my_instance, component) <-
       augment content_lines
         (to_normal_str (lit "BEGIN:VEVENT\nUID:1\nX-ODD:1\nEND:VEVENT")) ;;
     serialize env_plus_one content_lines my_instance component []).
Proof.
  apply (create_ical_augment_returns_serialization env_plus_one content_lines
           (lit "BEGIN:VEVENT\nUID:1\nX-ODD:1\nEND:VEVENT") None (lit "en_DK") []).
  - vm_compute. discriminate.
  - vm_compute. reflexivity.
Defined.

(** C1 fails as stated.  The fragment has a component in it, and what
    comes back is the serialization of the parsed calendar; the text
    with the fragment put in before the first [END:V] line is another
    one. *)
Lemma create_ical_augment_does_not_splice :
  create_ical env_plus_one content_lines
    (Some (lit "BEGIN:VEVENT\nUID:1\nX-ODD:1\nEND:VEVENT")) None (lit "en_DK") []
  = Returns (lit "BEGIN:VCALENDAR\nBEGIN:VEVENT\nUID:1\nX-ODD:1\nEND:VEVENT\nEND:VCALENDAR\n")
  /\ insert_before_first_end
       (strip (lit "BEGIN:VEVENT\nUID:1\nX-ODD:1\nEND:VEVENT"))
       (lit "BEGIN:VCALENDAR\nBEGIN:VEVENT\nUID:1\nX-ODD:1\nEND:VEVENT\nEND:VCALENDAR\n")
     = lit "BEGIN:VCALENDAR\nBEGIN:VEVENT\nUID:1\nX-ODD:1\nBEGIN:VEVENT\nUID:1\nX-ODD:1\nEND:VEVENT\nEND:VEVENT\nEND:VCALENDAR\n".
Proof. split; vm_compute; reflexivity. Qed.

(** C10, as amended.  When the fragment has no line that starts with
    [BEGIN:V], is not empty once stripped and has no backslash in it,
    [create_ical] builds a calendar, and what it returns is the
    serialization with the stripped fragment put in, once, before the
    first line that starts with [END:V]. *)
Theorem create_ical_construct_inserts_fragment :
  forall (env : environment) (lib : icalendar) (frag : str)
         (objtype : option str) (language : str) (props : dict),
    search_line_start (lit "BEGIN:V") (to_normal_str frag) = false ->
    strip (to_normal_str frag) <> [] ->
    ~ In BACKSLASH (strip (to_normal_str frag)) ->
    create_ical env lib (Some frag) objtype language props
    = ('(my_instance, component, props') <-
         construct env lib (to_normal_str frag) objtype language props ;;
       ret <- serialize env lib my_instance component props' ;;
       Returns (insert_before_first_end (strip (to_normal_str frag)) ret)).
Proof.
  intros env lib frag objtype language props Hbegin Hne Hbs.
  unfold create_ical. cbn [to_normal_str_opt option_map].
  rewrite constructs_iff, Hbegin. cbn [negb].
  replace (match to_normal_str frag with [] => true | _ :: _ => true end)
    with true by (destruct (to_normal_str frag); reflexivity).
  destruct (construct env lib (to_normal_str frag) objtype language props)
    as [[[inst comp] props']|e]; [|reflexivity].
  cbn [bind]. destruct (serialize env lib inst comp props') as [ret|e];
    [|reflexivity].
  cbn [bind]. destruct (strip (to_normal_str frag)) as [|c t] eqn:E;
    [congruence|].
  now apply splice_plain.
Qed.

Lemma create_ical_construct_inserts_fragment_witness :
  create_ical env_plus_one content_lines (Some (lit "RRULE:FREQ=YEARLY\n"))
    None (lit "en_DK") []
  = ('(my_instance, component, props') <-
       construct env_plus_one content_lines
         (to_normal_str (lit "RRULE:FREQ=YEARLY\n")) None (lit "en_DK") [] ;;
     ret <- serialize env_plus_one content_lines my_instance component props' ;;
     Returns (insert_before_first_end
                (strip (to_normal_str (lit "RRULE:FREQ=YEARLY\n"))) ret)).
Proof.
  apply (create_ical_construct_inserts_fragment env_plus_one content_lines
           (lit "RRULE:FREQ=YEARLY\n") None (lit "en_DK") []).
  - vm_compute. reflexivity.
  - vm_compute. discriminate.
  - vm_compute. intros H.
    repeat (destruct H as [H | H]; [discriminate|]). exact H.
Defined.

(** C10 fails as stated.  A fragment of one space is not empty and has
    no [BEGIN:V] line; the calendar is built, and the serialization
    comes back with nothing put into it. *)
Lemma create_ical_blank_fragment_inserts_nothing :
  create_ical env_plus_one content_lines (Some (lit " ")) None (lit "en_DK") []
  = Returns (lit "BEGIN:VCALENDAR\nPRODID:-//python-caldav//caldav//en_DK\nVERSION:2.0\nBEGIN:VEVENT\nDTSTAMP:20230501T100000Z\nUID:a8098c1a-f86e-11da-bd1a-00112444be1e\nEND:VEVENT\nEND:VCALENDAR\n")
  /\ insert_before_first_end (strip (lit " "))
       (lit "BEGIN:VCALENDAR\nPRODID:-//python-caldav//caldav//en_DK\nVERSION:2.0\nBEGIN:VEVENT\nDTSTAMP:20230501T100000Z\nUID:a8098c1a-f86e-11da-bd1a-00112444be1e\nEND:VEVENT\nEND:VCALENDAR\n")
     = lit "BEGIN:VCALENDAR\nPRODID:-//python-caldav//caldav//en_DK\nVERSION:2.0\nBEGIN:VEVENT\nDTSTAMP:20230501T100000Z\nUID:a8098c1a-f86e-11da-bd1a-00112444be1e\n\nEND:VEVENT\nEND:VCALENDAR\n".
Proof. split; vm_compute; reflexivity. Qed.

(** A fragment with a backslash in it is read as a template: the two
    characters backslash and n come out as one newline, and a backslash
    before a capital N is refused. *)
Example create_ical_fragment_as_template :
  create_ical env_plus_one content_lines (Some (lit "DESCRIPTION:a\\nb"))
    None (lit "en_DK") []
  = Returns (lit "BEGIN:VCALENDAR\nPRODID:-//python-caldav//caldav//en_DK\nVERSION:2.0\nBEGIN:VEVENT\nDTSTAMP:20230501T100000Z\nUID:a8098c1a-f86e-11da-bd1a-00112444be1e\nDESCRIPTION:a\nb\nEND:VEVENT\nEND:VCALENDAR\n")
  /\ create_ical env_plus_one content_lines (Some (lit "DESCRIPTION:a\\Nb"))
       None (lit "en_DK") []
     = Raises ReError.
Proof. split; vm_compute; reflexivity. Qed.

(** C4: the code at the failing input.  On a system whose local time is
    one hour ahead of UTC, a naive noon is merged as 11 o'clock UTC: the
    value has gone through the local zone, and the wall clock is not the
    one that was given.  Attaching UTC to the value as it is would give
    12 o'clock UTC. *)
Theorem create_ical_naive_datetime_shifted :
  merge_props env_plus_one (Comp (lit "VEVENT") [] [])
    [(lit "dtstart", PDatetime (mkDatetime 2020 1 1 12 0 0 None))]
  = Returns (Comp (lit "VEVENT")
               [mkProperty (lit "dtstart")
                  (PDatetime (mkDatetime 2020 1 1 11 0 0 (Some 0%Z))) []] [])
  /\ replace_tzinfo_utc (mkDatetime 2020 1 1 12 0 0 None)
     = mkDatetime 2020 1 1 12 0 0 (Some 0%Z)
  /\ create_ical env_plus_one content_lines None None (lit "en_DK")
       [(lit "dtstart", PDatetime (mkDatetime 2020 1 1 12 0 0 None))]
     = Returns (lit "BEGIN:VCALENDAR\nPRODID:-//python-caldav//caldav//en_DK\nVERSION:2.0\nBEGIN:VEVENT\nDTSTAMP:20230501T100000Z\nUID:a8098c1a-f86e-11da-bd1a-00112444be1e\nDTSTART:20200101T110000Z\nEND:VEVENT\nEND:VCALENDAR\n").
Proof. repeat split; vm_compute; reflexivity. Qed.

(** The value a naive [datetime] is merged as depends on the local zone
    of the system: it is the wall clock moved back by the local offset. *)
Lemma with_timezone_naive (env : environment) (d : datetime) :
  tzinfo d = None ->
  with_timezone env (PDatetime d)
  = PDatetime (of_wall_seconds (wall_seconds d - local_utcoffset env d)
                               (Some 0%Z)).
Proof.
  intros H. unfold with_timezone, astimezone_utc. now rewrite H.
Qed.

(** ** The scan of [re.sub] *)

Lemma prev_after_cons (prev : option ascii) (c : ascii) (w : str) :
  prev_after prev (c :: w) = prev_after (Some c) w.
Proof.
  unfold prev_after. simpl. destruct (rev w) eqn:E; reflexivity.
Qed.

(** Skipping over the rest of a match. *)
Lemma sub_scan_skip (m : matcher) (b : option nat) (w : str)
    (prev : option ascii) (s : str) :
  sub_scan m b (List.length w) prev (w ++ s)
  = sub_scan m b 0 (prev_after prev w) s.
Proof.
  revert prev. induction w as [|c w IH]; intros prev; [reflexivity|].
  cbn [List.length app sub_scan]. rewrite IH, prev_after_cons. reflexivity.
Qed.

Lemma scan_cons (m : matcher) (prev : option ascii) (c : ascii) (s : str) :
  sub_scan m None 0 prev (c :: s)
  = match m prev (c :: s) with
    | Some (O, r) => r ++ c :: sub_scan m None 0 (Some c) s
    | Some (S k, r) => r ++ sub_scan m None k (Some c) s
    | None => c :: sub_scan m None 0 (Some c) s
    end.
Proof. reflexivity. Qed.

(** Where nothing matches, a character is copied. *)
Lemma scan_copy (m : matcher) (prev : option ascii) (c : ascii) (s : str) :
  m prev (c :: s) = None ->
  sub_scan m None 0 prev (c :: s) = c :: sub_scan m None 0 (Some c) s.
Proof. intros H. now rewrite scan_cons, H. Qed.

(** Where the text [w], not empty, matches, its replacement is written
    and the scan goes on after it. *)
Lemma scan_match (m : matcher) (prev : option ascii) (w rest r : str) :
  w <> [] ->
  m prev (w ++ rest) = Some (List.length w, r) ->
  sub_scan m None 0 prev (w ++ rest)
  = r ++ sub_scan m None 0 (prev_after prev w) rest.
Proof.
  intros Hw H. destruct w as [|c w]; [congruence|].
  cbn [app] in *. rewrite scan_cons, H. cbn [List.length].
  now rewrite sub_scan_skip, prev_after_cons.
Qed.

(** ** The third substitution *)

Lemma m_quotes_match (prev : option ascii) (bs rest : str) :
  bs <> [] -> Forall is_backslash bs ->
  m_quotes prev (bs ++ SQUOTE :: DQUOTE :: rest)
  = Some (List.length (bs ++ [SQUOTE; DQUOTE]), [SQUOTE; DQUOTE]).
Proof.
  intros Hne Hbs. unfold m_quotes.
  rewrite (takewhile_app_all _ bs _ Hbs), (dropwhile_app_all _ bs _ Hbs).
  cbn [takewhile dropwhile]. change (Ascii.eqb BACKSLASH SQUOTE) with false.
  cbv iota. rewrite app_nil_r.
  destruct bs as [|b bs]; [congruence|].
  cbn [startswith]. rewrite !Ascii.eqb_refl. cbn [andb].
  now rewrite length_app.
Qed.

Lemma m_quotes_inv (prev : option ascii) (s : str) (n : nat) (r : str) :
  m_quotes prev s = Some (n, r) ->
  exists bs rest,
    bs <> [] /\ Forall is_backslash bs
    /\ s = bs ++ SQUOTE :: DQUOTE :: rest
    /\ n = List.length (bs ++ [SQUOTE; DQUOTE]) /\ r = [SQUOTE; DQUOTE].
Proof.
  unfold m_quotes. intros H.
  pose proof (takewhile_dropwhile (Ascii.eqb BACKSLASH) s) as Hs.
  pose proof (takewhile_all (Ascii.eqb BACKSLASH) s) as Hall.
  destruct (takewhile (Ascii.eqb BACKSLASH) s) as [|b bs] eqn:E; [discriminate|].
  destruct (startswith [SQUOTE; DQUOTE] (dropwhile (Ascii.eqb BACKSLASH) s))
    eqn:Hq; [|discriminate].
  apply startswith_app in Hq. inversion H; subst n r.
  exists (b :: bs), (skipn 2 (dropwhile (Ascii.eqb BACKSLASH) s)).
  repeat split.
  - discriminate.
  - exact Hall.
  - rewrite <- Hs at 1. f_equal. exact Hq.
  - now rewrite length_app.
Qed.

Lemma m_quotes_cons (prev : option ascii) (c : ascii) (s : str) :
  m_quotes prev (c :: s)
  = if Ascii.eqb c BACKSLASH
       && startswith [SQUOTE; DQUOTE] (dropwhile (Ascii.eqb BACKSLASH) s)
    then Some (S (List.length (takewhile (Ascii.eqb BACKSLASH) s)) + 2,
               [SQUOTE; DQUOTE])
    else None.
Proof.
  unfold m_quotes. cbn [takewhile dropwhile].
  rewrite (Ascii.eqb_sym c BACKSLASH).
  destruct (Ascii.eqb BACKSLASH c); [|reflexivity].
  cbn [andb List.length]. reflexivity.
Qed.

Lemma drop_backslashes_run (bs rest : str) :
  Forall is_backslash bs ->
  drop_backslashes_before_pair (bs ++ SQUOTE :: DQUOTE :: rest)
  = SQUOTE :: DQUOTE :: drop_backslashes_before_pair rest.
Proof.
  induction 1 as [|c bs Hc Hbs IH].
  - reflexivity.
  - cbn [app drop_backslashes_before_pair].
    rewrite (dropwhile_app_all _ bs _ Hbs).
    apply Ascii.eqb_eq in Hc. subst c.
    rewrite Ascii.eqb_refl. cbn. exact IH.
Qed.

Lemma scan_quotes (n : nat) :
  forall (s : str) (prev : option ascii),
    List.length s <= n ->
    sub_scan m_quotes None 0 prev s = drop_backslashes_before_pair s.
Proof.
  induction n as [|n IH]; intros s prev Hlen.
  - destruct s; [reflexivity | simpl in Hlen; lia].
  - destruct s as [|c s]; [reflexivity|].
    destruct (m_quotes prev (c :: s)) as [[k r]|] eqn:Hm.
    + destruct (m_quotes_inv _ _ _ _ Hm) as (bs & rest & Hne & Hbs & Hs & -> & ->).
      rewrite Hs in *.
      replace (bs ++ SQUOTE :: DQUOTE :: rest)
        with ((bs ++ [SQUOTE; DQUOTE]) ++ rest) in *
        by (now rewrite <- app_assoc).
      assert (Hw : bs ++ [SQUOTE; DQUOTE] <> []) by (destruct bs; discriminate).
      rewrite (scan_match _ _ _ _ _ Hw Hm).
      rewrite <- app_assoc. cbn [app].
      rewrite (drop_backslashes_run _ _ Hbs). f_equal. f_equal.
      apply IH. rewrite !length_app in Hlen. simpl in Hlen.
      destruct bs; [congruence|]. simpl in Hlen. lia.
    + rewrite (scan_copy _ _ _ _ Hm). cbn [drop_backslashes_before_pair].
      rewrite m_quotes_cons in Hm.
      destruct (Ascii.eqb c BACKSLASH
                && startswith [SQUOTE; DQUOTE]
                     (dropwhile (Ascii.eqb BACKSLASH) s)); [discriminate|].
      f_equal. apply IH. simpl in Hlen. lia.
Qed.
Lemma fix_quotes_drop (s : str) :
  fix_quotes s = drop_backslashes_before_pair s.
Proof.
  unfold fix_quotes, re_sub. cbn [budget].
  now apply (scan_quotes (List.length s)).
Qed.

(** C3, as amended.  The third substitution strips the backslashes of
    every run of one or more backslashes that is followed at once by an
    apostrophe and a double quote, in that order, and changes nothing
    else. *)
Theorem fix_quotes_strips_before_pair_only :
  forall s : str, fix_quotes s = drop_backslashes_before_pair s.
Proof.
  intros s. unfold fix_quotes, re_sub. cbn [budget].
  now apply (scan_quotes (List.length s)).
Qed.

(** C3 fails as stated.  A backslash before a double quote, and one
    before an apostrophe, stay where they are. *)
Lemma fix_keeps_backslash_before_quote :
  fst (vcal_fix (lit "SUMMARY:say \\\x22hi\\\x22 and \\'bye\\'\n") fresh_process)
  = lit "SUMMARY:say \\\x22hi\\\x22 and \\'bye\\'\n".
Proof. vm_compute. reflexivity. Qed.

(** ** Patterns that match nowhere *)

Lemma clean_head (m : matcher) (t : str) :
  clean m t -> forall prev, m prev t = None.
Proof. intros H prev. now apply (H [] t prev). Qed.

Lemma clean_app_r (m : matcher) (a b : str) : clean m (a ++ b) -> clean m b.
Proof.
  intros H a' b' prev E. apply (H (a ++ a') b' prev).
  now rewrite E, app_assoc.
Qed.

Lemma clean_tail (m : matcher) (c : ascii) (t : str) :
  clean m (c :: t) -> clean m t.
Proof. apply (clean_app_r m [c] t). Qed.

Lemma clean_cons (m : matcher) (c : ascii) (t : str) :
  (forall prev, m prev (c :: t) = None) -> clean m t -> clean m (c :: t).
Proof.
  intros Hc Ht a b prev E. destruct a as [|x a]; simpl in E.
  - subst b. apply Hc.
  - inversion E; subst. now apply (Ht a b prev).
Qed.

Lemma clean_nil (m : matcher) :
  (forall prev, m prev [] = None) -> clean m [].
Proof.
  intros H a b prev E. symmetry in E. apply app_eq_nil in E.
  destruct E as [_ ->]. apply H.
Qed.

(** A text is clean when the part [r] put before a clean text [t] has
    no match starting inside it. *)
Lemma clean_app (m : matcher) (r t : str) :
  (forall u1 u2 prev, r = u1 ++ u2 -> u2 <> [] -> m prev (u2 ++ t) = None) ->
  clean m t -> clean m (r ++ t).
Proof.
  induction r as [|c r IH]; intros Hr Ht; [exact Ht|].
  cbn [app]. apply clean_cons.
  - intros prev. apply (Hr [] (c :: r) prev); [reflexivity | discriminate].
  - apply IH; [|exact Ht]. intros u1 u2 prev E Hne.
    apply (Hr (c :: u1) u2 prev); [now rewrite E | exact Hne].
Qed.

(** Where the pattern matches nowhere the text is copied. *)
Lemma scan_clean (m : matcher) (t : str) (prev : option ascii) :
  clean m t -> scan m prev t = t.
Proof.
  unfold scan. revert prev. induction t as [|c t IH]; intros prev H.
  - cbn. now rewrite (clean_head m [] H).
  - rewrite scan_copy by apply (clean_head m _ H).
    f_equal. apply IH. now apply clean_tail in H.
Qed.

Section ScanPreserves.

(** [m] is the pattern of the substitution, with its replacement;
    [m'] is the pattern whose matches are looked for in the result;
    [F] tells the characters a replacement of [m] can start with. *)
Variables (m m' : matcher) (F : ascii -> bool).

Hypothesis m_nil : forall prev, m prev [] = None.
Hypothesis m_match :
  forall prev s n r, m prev s = Some (n, r) ->
    exists w y k r', s = w ++ y /\ n = List.length w /\ w <> []
                     /\ r = k :: r' /\ F k = true.
Hypothesis m'_nil : forall prev, m' prev [] = None.
(** No match of [m'] starts inside a replacement of [m]. *)
Hypothesis m'_repl :
  forall prev s n r, m prev s = Some (n, r) ->
    forall u1 u2 t p, r = u1 ++ u2 -> u2 <> [] -> m' p (u2 ++ t) = None.
(** A match of [m'] is settled by a stretch of text that has, after
    its first character, no character a replacement starts with. *)
Hypothesis m'_local :
  forall p c t, m' p (c :: t) <> None ->
    exists w' y, t = w' ++ y /\ Forall (fun x => F x = false) w'
                 /\ forall y2 p2, m' p2 (c :: w' ++ y2) <> None.

(** What the result starts with, as long as no replacement can start
    so, the text started with. *)
Lemma scan_prefix (w : str) :
  Forall (fun x => F x = false) w ->
  forall s prev y, scan m prev s = w ++ y ->
    exists s2 prev2, s = w ++ s2 /\ scan m prev2 s2 = y.
Proof.
  induction 1 as [|x w Hx _ IH]; intros s prev y E.
  - exists s, prev. now split.
  - destruct s as [|c s].
    + unfold scan in E. cbn in E. rewrite m_nil in E. discriminate.
    + unfold scan in E. rewrite scan_cons in E.
      destruct (m prev (c :: s)) as [[n r]|] eqn:Hm.
      * destruct (m_match _ _ _ _ Hm) as (w0 & y0 & k & r' & _ & _ & _ & -> & Hk).
        assert (k = x) by (destruct n; cbn in E; congruence).
        congruence.
      * cbn [app] in E. inversion E; subst c.
        destruct (IH s (Some x) y H1) as (s2 & prev2 & -> & Hs2).
        exists s2, prev2. now split.
Qed.

Lemma copies_ok_app_r (a b : str) : copies_ok m m' (a ++ b) -> copies_ok m m' b.
Proof.
  intros H a' c b' p E. apply (H (a ++ a') c b' p).
  now rewrite E, app_assoc.
Qed.

Lemma scan_keeps_clean (n : nat) :
  forall s prev, List.length s <= n -> copies_ok m m' s -> clean m' (scan m prev s).
Proof.
  induction n as [|n IH]; intros s prev Hlen Hok.
  - destruct s; [|simpl in Hlen; lia].
    unfold scan. cbn. rewrite m_nil. now apply clean_nil.
  - destruct s as [|c s].
    { unfold scan. cbn. rewrite m_nil. now apply clean_nil. }
    destruct (m prev (c :: s)) as [[k r]|] eqn:Hm.
    + destruct (m_match _ _ _ _ Hm) as (w & y & k0 & r' & E & -> & Hw & Hr & _).
      rewrite E in *. unfold scan. rewrite (scan_match _ _ _ _ _ Hw Hm).
      apply clean_app.
      * intros u1 u2 p Eu Hne. now apply (m'_repl _ _ _ _ Hm u1 u2 _ p).
      * apply IH.
        -- rewrite length_app in Hlen. destruct w; [congruence|].
           simpl in Hlen. lia.
        -- now apply copies_ok_app_r in Hok.
    + unfold scan. rewrite (scan_copy _ _ _ _ Hm). apply clean_cons.
      * intros p. destruct (m' p (c :: sub_scan m None 0 (Some c) s)) eqn:Hm';
          [|reflexivity].
        exfalso.
        destruct (m'_local p c _ ltac:(rewrite Hm'; discriminate))
          as (w' & y & Ey & Hw' & Hany).
        destruct (scan_prefix w' Hw' s (Some c) y Ey) as (s2 & prev2 & -> & _).
        apply (Hany s2 p). apply (Hok [] c (w' ++ s2) prev eq_refl Hm).
      * apply IH; [simpl in Hlen; lia|].
        apply (copies_ok_app_r [c] s Hok).
Qed.

End ScanPreserves.

(** ** The patterns of the first three substitutions *)

Lemma strip_prefix_app (p rest : str) : strip_prefix p (p ++ rest) = Some rest.
Proof.
  induction p as [|a p IH]; [reflexivity|].
  cbn. now rewrite Ascii.eqb_refl.
Qed.

Lemma strip_prefix_inv (p s rest : str) :
  strip_prefix p s = Some rest -> s = p ++ rest.
Proof.
  revert s. induction p as [|a p IH]; intros s H.
  - cbn in H. now inversion H.
  - destruct s as [|b s]; [discriminate|]. cbn in H.
    destruct (Ascii.eqb_spec a b) as [->|]; [|discriminate].
    cbn. f_equal. now apply IH.
Qed.

Lemma startswith_prefix (p rest : str) : startswith p (p ++ rest) = true.
Proof.
  induction p as [|a p IH]; [reflexivity|].
  cbn. now rewrite Ascii.eqb_refl.
Qed.

Lemma isspace_not_digit (c : ascii) : isspace c = true -> isdigit c = false.
Proof.
  unfold isspace, isdigit. set (n := nat_of_ascii c).
  destruct (Nat.leb_spec 48 n), (Nat.leb_spec n 57); cbn; try reflexivity.
  destruct (Nat.leb_spec 9 n), (Nat.leb_spec n 13), (Nat.leb_spec 28 n),
    (Nat.leb_spec n 32), (Nat.eqb_spec n 133), (Nat.eqb_spec n 160);
    cbn; try discriminate; lia.
Qed.

Lemma m_completed_unfold (prev : option ascii) (s : str) :
  m_completed prev s =
  match strip_prefix COMPLETED s with
  | Some rest =>
      let ds := takewhile isdigit rest in
      match ds, dropwhile isdigit rest with
      | _ :: _, c :: _ =>
          if isspace c
          then Some (10 + List.length ds + 1, COMPLETED ++ ds ++ T120000Z)
          else None
      | _, _ => None
      end
  | None => None
  end.
Proof. vm_compute. reflexivity. Qed.

Lemma m_created_unfold (prev : option ascii) (s : str) :
  m_created prev s =
  if startswith CREATED_OLD s then Some (24, CREATED_NEW) else None.
Proof. vm_compute. reflexivity. Qed.

Lemma m_completed_match (prev : option ascii) (ds : str) (c : ascii) (y : str) :
  ds <> [] -> Forall (fun d => isdigit d = true) ds -> isspace c = true ->
  m_completed prev (COMPLETED ++ ds ++ c :: y)
  = Some (List.length (COMPLETED ++ ds ++ [c]), COMPLETED ++ ds ++ T120000Z).
Proof.
  intros Hne Hds Hc. rewrite m_completed_unfold, strip_prefix_app.
  rewrite (takewhile_app_all _ ds _ Hds), (dropwhile_app_all _ ds _ Hds).
  cbn [takewhile dropwhile]. rewrite (isspace_not_digit c Hc), app_nil_r.
  destruct ds as [|d ds]; [congruence|]. rewrite Hc.
  rewrite !length_app. change (List.length COMPLETED) with 10.
  cbn [List.length]. f_equal; f_equal; lia.
Qed.

Lemma m_completed_inv (prev : option ascii) (s : str) (n : nat) (r : str) :
  m_completed prev s = Some (n, r) ->
  exists ds c y,
    ds <> [] /\ Forall (fun d => isdigit d = true) ds /\ isspace c = true
    /\ s = COMPLETED ++ ds ++ c :: y
    /\ n = List.length (COMPLETED ++ ds ++ [c])
    /\ r = COMPLETED ++ ds ++ T120000Z.
Proof.
  rewrite m_completed_unfold. intros H.
  destruct (strip_prefix COMPLETED s) as [rest|] eqn:Ep; [|discriminate].
  apply strip_prefix_inv in Ep.
  pose proof (takewhile_dropwhile isdigit rest) as Hrest.
  pose proof (takewhile_all isdigit rest) as Hall.
  cbv zeta in H.
  destruct (takewhile isdigit rest) as [|d ds] eqn:Et; [discriminate|].
  destruct (dropwhile isdigit rest) as [|c y] eqn:Ed; [discriminate|].
  destruct (isspace c) eqn:Hc; [|discriminate].
  inversion H; subst n r. exists (d :: ds), c, y. repeat split.
  - discriminate.
  - exact Hall.
  - exact Hc.
  - now rewrite Ep, <- Hrest.
  - rewrite !length_app. change (List.length COMPLETED) with 10.
    cbn [List.length]. lia.
Qed.

Lemma m_created_match (prev : option ascii) (y : str) :
  m_created prev (CREATED_OLD ++ y) = Some (List.length CREATED_OLD, CREATED_NEW).
Proof. now rewrite m_created_unfold, startswith_prefix. Qed.

Lemma m_created_inv (prev : option ascii) (s : str) (n : nat) (r : str) :
  m_created prev s = Some (n, r) ->
  exists y, s = CREATED_OLD ++ y /\ n = List.length CREATED_OLD /\ r = CREATED_NEW.
Proof.
  rewrite m_created_unfold. intros H.
  destruct (startswith CREATED_OLD s) eqn:E; [|discriminate].
  apply startswith_app in E. inversion H; subst.
  exists (skipn (List.length CREATED_OLD) s). now repeat split.
Qed.

(** A pattern that starts with a letter matches no text that starts
    with another character. *)
Lemma m_completed_head (prev : option ascii) (c : ascii) (t : str) :
  c <> "C"%char -> m_completed prev (c :: t) = None.
Proof.
  intros Hc. rewrite m_completed_unfold. unfold COMPLETED. cbn [strip_prefix].
  destruct (Ascii.eqb_spec "C"%char c); [congruence | reflexivity].
Qed.

Lemma m_created_head (prev : option ascii) (c : ascii) (t : str) :
  c <> "C"%char -> m_created prev (c :: t) = None.
Proof.
  intros Hc. rewrite m_created_unfold. unfold CREATED_OLD. cbn [startswith].
  destruct (Ascii.eqb_spec "C"%char c); [congruence | reflexivity].
Qed.

Lemma m_quotes_head (prev : option ascii) (c : ascii) (t : str) :
  c <> BACKSLASH -> m_quotes prev (c :: t) = None.
Proof.
  intros Hc. rewrite m_quotes_cons.
  destruct (Ascii.eqb_spec c BACKSLASH); [congruence | reflexivity].
Qed.

Lemma suffix_head (P : ascii -> Prop) (c : ascii) (r u1 u2 : str) :
  c :: r = u1 ++ u2 -> u2 <> [] -> Forall P r ->
  u2 = c :: r \/ exists h u, u2 = h :: u /\ P h.
Proof.
  intros E Hne Hr. destruct u1 as [|x u1]; [now left|]. right.
  cbn in E. inversion E; subst x r.
  destruct u2 as [|h u]; [congruence|]. exists h, u. split; [reflexivity|].
  apply Forall_app in Hr. destruct Hr as [_ Hr]. now inversion Hr.
Qed.

Lemma digit_not (K : ascii) (d : ascii) :
  K = "C"%char \/ K = SQUOTE -> isdigit d = true -> starts K d = false.
Proof.
  intros HK Hd. unfold starts. destruct (Ascii.eqb_spec K d) as [<-|]; [|reflexivity].
  destruct HK as [-> | ->]; discriminate.
Qed.

Lemma space_not (K : ascii) (c : ascii) :
  K = "C"%char \/ K = SQUOTE -> isspace c = true -> starts K c = false.
Proof.
  intros HK Hc. unfold starts. destruct (Ascii.eqb_spec K c) as [<-|]; [|reflexivity].
  destruct HK as [-> | ->]; discriminate.
Qed.

Lemma m_completed_local (K : ascii) :
  K = "C"%char \/ K = SQUOTE ->
  forall p c t, m_completed p (c :: t) <> None ->
    exists w' y, t = w' ++ y /\ Forall (fun x => starts K x = false) w'
                 /\ forall y2 p2, m_completed p2 (c :: w' ++ y2) <> None.
Proof.
  intros HK p c t H.
  destruct (m_completed p (c :: t)) as [[n r]|] eqn:Hm; [|congruence].
  destruct (m_completed_inv _ _ _ _ Hm) as (ds & c' & y & Hne & Hds & Hc' & E & _ & _).
  change COMPLETED with ("C"%char :: OMPLETED) in E.
  cbn [app] in E. inversion E; subst c t.
  exists (OMPLETED ++ ds ++ [c']), y. split; [|split].
  - now rewrite <- !app_assoc.
  - apply Forall_app. split.
    + destruct HK as [-> | ->]; vm_compute; repeat constructor.
    + apply Forall_app. split.
      * eapply Forall_impl; [|exact Hds]. intros d Hd. now apply digit_not.
      * constructor; [now apply space_not | constructor].
  - intros y2 p2.
    change ("C"%char :: (OMPLETED ++ ds ++ [c']) ++ y2)
      with (COMPLETED ++ (ds ++ [c']) ++ y2).
    rewrite <- app_assoc. cbn [app].
    rewrite (m_completed_match p2 ds c' y2 Hne Hds Hc'). discriminate.
Qed.

Lemma m_created_local (K : ascii) :
  K = "C"%char \/ K = SQUOTE ->
  forall p c t, m_created p (c :: t) <> None ->
    exists w' y, t = w' ++ y /\ Forall (fun x => starts K x = false) w'
                 /\ forall y2 p2, m_created p2 (c :: w' ++ y2) <> None.
Proof.
  intros HK p c t H.
  destruct (m_created p (c :: t)) as [[n r]|] eqn:Hm; [|congruence].
  destruct (m_created_inv _ _ _ _ Hm) as (y & E & _ & _).
  change CREATED_OLD with ("C"%char :: REATED_OLD) in E.
  cbn [app] in E. inversion E; subst c t.
  exists REATED_OLD, y. split; [|split].
  - reflexivity.
  - destruct HK as [-> | ->]; vm_compute; repeat constructor.
  - intros y2 p2.
    change ("C"%char :: REATED_OLD ++ y2) with (CREATED_OLD ++ y2).
    rewrite m_created_match. discriminate.
Qed.

Lemma m_completed_shape (prev : option ascii) (s : str) (n : nat) (r : str) :
  m_completed prev s = Some (n, r) ->
  exists w y k r', s = w ++ y /\ n = List.length w /\ w <> []
                   /\ r = k :: r' /\ starts "C" k = true.
Proof.
  intros H.
  destruct (m_completed_inv _ _ _ _ H) as (ds & c & y & _ & _ & _ & -> & -> & ->).
  exists (COMPLETED ++ ds ++ [c]), y, "C"%char, (OMPLETED ++ ds ++ T120000Z).
  repeat split.
  - now rewrite <- !app_assoc.
  - discriminate.
Qed.

Lemma m_created_shape (prev : option ascii) (s : str) (n : nat) (r : str) :
  m_created prev s = Some (n, r) ->
  exists w y k r', s = w ++ y /\ n = List.length w /\ w <> []
                   /\ r = k :: r' /\ starts "C" k = true.
Proof.
  intros H. destruct (m_created_inv _ _ _ _ H) as (y & -> & -> & ->).
  exists CREATED_OLD, y, "C"%char, REATED_NEW.
  repeat split. discriminate.
Qed.

Lemma m_quotes_shape (prev : option ascii) (s : str) (n : nat) (r : str) :
  m_quotes prev s = Some (n, r) ->
  exists w y k r', s = w ++ y /\ n = List.length w /\ w <> []
                   /\ r = k :: r' /\ starts SQUOTE k = true.
Proof.
  intros H.
  destruct (m_quotes_inv _ _ _ _ H) as (bs & rest & Hne & _ & -> & -> & ->).
  exists (bs ++ [SQUOTE; DQUOTE]), rest, SQUOTE, [DQUOTE]. repeat split.
  - now rewrite <- app_assoc.
  - destruct bs; discriminate.
Qed.

(** No match of the first pattern starts inside a replacement of the
    first substitution. *)
Lemma completed_repl_clean (prev : option ascii) (s : str) (n : nat) (r : str) :
  m_completed prev s = Some (n, r) ->
  forall u1 u2 t p, r = u1 ++ u2 -> u2 <> [] -> m_completed p (u2 ++ t) = None.
Proof.
  intros H u1 u2 t p E Hne.
  destruct (m_completed_inv _ _ _ _ H) as (ds & c & y & _ & Hds & _ & _ & _ & ->).
  change (COMPLETED ++ ds ++ T120000Z)
    with ("C"%char :: OMPLETED ++ ds ++ T120000Z) in E.
  destruct (suffix_head (fun x => x <> "C"%char) _ _ _ _ E Hne)
    as [-> | (h & u & -> & Hh)].
  - apply Forall_app. split; [vm_compute; repeat constructor; discriminate|].
    apply Forall_app. split; [|vm_compute; repeat constructor; discriminate].
    eapply Forall_impl; [|exact Hds]. intros d Hd ->. discriminate.
  - change ("C"%char :: OMPLETED ++ ds ++ T120000Z)
      with (COMPLETED ++ ds ++ T120000Z).
    rewrite m_completed_unfold.
    rewrite <- !app_assoc, strip_prefix_app. cbv zeta.
    rewrite (takewhile_app_all _ ds _ Hds), (dropwhile_app_all _ ds _ Hds).
    destruct ds; reflexivity.
  - cbn [app]. now apply m_completed_head.
Qed.

Lemma created_repl_clean (m' : matcher) :
  (forall p t, m' p (CREATED_NEW ++ t) = None) ->
  (forall p c t, c <> "C"%char -> m' p (c :: t) = None) ->
  forall (prev : option ascii) (s : str) (n : nat) (r : str),
  m_created prev s = Some (n, r) ->
  forall u1 u2 t p, r = u1 ++ u2 -> u2 <> [] -> m' p (u2 ++ t) = None.
Proof.
  intros Hfull Hhead prev s n r H u1 u2 t p E Hne.
  destruct (m_created_inv _ _ _ _ H) as (y & _ & _ & ->).
  change CREATED_NEW with ("C"%char :: REATED_NEW) in E.
  destruct (suffix_head (fun x => x <> "C"%char) _ _ _ _ E Hne)
    as [-> | (h & u & -> & Hh)].
  - vm_compute. repeat constructor; discriminate.
  - apply Hfull.
  - cbn [app]. now apply Hhead.
Qed.

Lemma quotes_repl_clean (m' : matcher) :
  (forall p c t, c <> "C"%char -> m' p (c :: t) = None) ->
  forall (prev : option ascii) (s : str) (n : nat) (r : str),
  m_quotes prev s = Some (n, r) ->
  forall u1 u2 t p, r = u1 ++ u2 -> u2 <> [] -> m' p (u2 ++ t) = None.
Proof.
  intros Hhead prev s n r H u1 u2 t p E Hne.
  destruct (m_quotes_inv _ _ _ _ H) as (bs & rest & _ & _ & _ & _ & ->).
  destruct (suffix_head (fun x => x <> "C"%char) _ _ _ _ E Hne)
    as [-> | (h & u & -> & Hh)].
  - repeat constructor. discriminate.
  - cbn [app]. apply Hhead. discriminate.
  - cbn [app]. now apply Hhead.
Qed.

Lemma m_completed_nil (prev : option ascii) : m_completed prev [] = None.
Proof. now rewrite m_completed_unfold. Qed.

Lemma m_created_nil (prev : option ascii) : m_created prev [] = None.
Proof. now rewrite m_created_unfold. Qed.

Lemma m_created_new (p : option ascii) (t : str) :
  m_created p (CREATED_NEW ++ t) = None.
Proof. rewrite m_created_unfold. reflexivity. Qed.

Lemma m_completed_new (p : option ascii) (t : str) :
  m_completed p (CREATED_NEW ++ t) = None.
Proof. rewrite m_completed_unfold. reflexivity. Qed.

Lemma m_completed_prev (p p' : option ascii) (s : str) :
  m_completed p s = m_completed p' s.
Proof. now rewrite !m_completed_unfold. Qed.

Lemma m_created_prev (p p' : option ascii) (s : str) :
  m_created p s = m_created p' s.
Proof. now rewrite !m_created_unfold. Qed.

(** The result of the first substitution has no match of its pattern. *)
Lemma scan_completed_clean (s : str) (prev : option ascii) :
  clean m_completed (scan m_completed prev s).
Proof.
  apply (scan_keeps_clean m_completed m_completed (starts "C")
           m_completed_nil m_completed_shape m_completed_nil
           completed_repl_clean (m_completed_local "C" (or_introl eq_refl))
           (List.length s) s prev (le_n _)).
  intros a c b p _ H p'. now rewrite (m_completed_prev p' p).
Qed.

(** The second substitution leaves no match of its pattern and brings
    in none of the first. *)
Lemma scan_created_clean (s : str) (prev : option ascii) :
  clean m_created (scan m_created prev s).
Proof.
  apply (scan_keeps_clean m_created m_created (starts "C")
           m_created_nil m_created_shape m_created_nil
           (created_repl_clean m_created m_created_new m_created_head)
           (m_created_local "C" (or_introl eq_refl))
           (List.length s) s prev (le_n _)).
  intros a c b p _ H p'. now rewrite (m_created_prev p' p).
Qed.

Lemma scan_created_keeps_completed (s : str) (prev : option ascii) :
  clean m_completed s -> clean m_completed (scan m_created prev s).
Proof.
  intros Hs.
  apply (scan_keeps_clean m_created m_completed (starts "C")
           m_created_nil m_created_shape m_completed_nil
           (created_repl_clean m_completed m_completed_new m_completed_head)
           (m_completed_local "C" (or_introl eq_refl))
           (List.length s) s prev (le_n _)).
  intros a c b p E _ p'. now apply (Hs a (c :: b) p').
Qed.

(** The third substitution brings in no match of the first two. *)
Lemma scan_quotes_keeps_completed (s : str) (prev : option ascii) :
  clean m_completed s -> clean m_completed (scan m_quotes prev s).
Proof.
  intros Hs.
  apply (scan_keeps_clean m_quotes m_completed (starts SQUOTE)
           (fun _ => eq_refl) m_quotes_shape m_completed_nil
           (quotes_repl_clean m_completed m_completed_head)
           (m_completed_local SQUOTE (or_intror eq_refl))
           (List.length s) s prev (le_n _)).
  intros a c b p E _ p'. now apply (Hs a (c :: b) p').
Qed.

Lemma scan_quotes_keeps_created (s : str) (prev : option ascii) :
  clean m_created s -> clean m_created (scan m_quotes prev s).
Proof.
  intros Hs.
  apply (scan_keeps_clean m_quotes m_created (starts SQUOTE)
           (fun _ => eq_refl) m_quotes_shape m_created_nil
           (quotes_repl_clean m_created m_created_head)
           (m_created_local SQUOTE (or_intror eq_refl))
           (List.length s) s prev (le_n _)).
  intros a c b p E _ p'. now apply (Hs a (c :: b) p').
Qed.

(** The result of the third substitution has no match of its pattern. *)
Lemma drop_backslashes_dquote (t y : str) :
  drop_backslashes_before_pair t = DQUOTE :: y -> exists t', t = DQUOTE :: t'.
Proof.
  destruct t as [|x t]; [discriminate|]. cbn [drop_backslashes_before_pair].
  destruct (Ascii.eqb_spec x BACKSLASH) as [->|Hx]; cbn [andb].
  - destruct (startswith [SQUOTE; DQUOTE] (dropwhile (Ascii.eqb BACKSLASH) t))
      eqn:Hq.
    + apply startswith_app in Hq.
      rewrite <- (takewhile_dropwhile (Ascii.eqb BACKSLASH) t), Hq.
      cbn [List.length app].
      rewrite (drop_backslashes_run _ _ (takewhile_all _ t)). discriminate.
    + discriminate.
  - intros H. inversion H. now exists t.
Qed.

Lemma drop_backslashes_pair_back (t : str) :
  startswith [SQUOTE; DQUOTE]
    (dropwhile (Ascii.eqb BACKSLASH) (drop_backslashes_before_pair t)) = true ->
  startswith [SQUOTE; DQUOTE] (dropwhile (Ascii.eqb BACKSLASH) t) = true.
Proof.
  induction t as [|d t IH]; [discriminate|].
  cbn [drop_backslashes_before_pair dropwhile].
  rewrite (Ascii.eqb_sym d BACKSLASH).
  destruct (Ascii.eqb_spec BACKSLASH d) as [<-|Hd]; cbn [andb].
  - destruct (startswith [SQUOTE; DQUOTE] (dropwhile (Ascii.eqb BACKSLASH) t))
      eqn:Hq; [reflexivity|].
    cbn [dropwhile]. change (Ascii.eqb BACKSLASH BACKSLASH) with true.
    cbv iota. exact IH.
  - cbn [dropwhile]. destruct (Ascii.eqb_spec BACKSLASH d); [congruence|].
    cbn [startswith]. intros H. apply andb_prop in H. destruct H as [H1 H2].
    rewrite H1. cbn [andb].
    destruct (drop_backslashes_before_pair t) as [|q y] eqn:E; [discriminate|].
    cbn [startswith] in H2. apply andb_prop in H2. destruct H2 as [H2 _].
    apply Ascii.eqb_eq in H2. subst q.
    destruct (drop_backslashes_dquote t y E) as (t' & ->).
    reflexivity.
Qed.

Lemma drop_backslashes_clean (s : str) :
  clean m_quotes (drop_backslashes_before_pair s).
Proof.
  induction s as [|c s IH]; [now apply clean_nil|].
  cbn [drop_backslashes_before_pair].
  destruct (Ascii.eqb c BACKSLASH
            && startswith [SQUOTE; DQUOTE] (dropwhile (Ascii.eqb BACKSLASH) s))
    eqn:E; [exact IH|].
  apply clean_cons; [|exact IH]. intros prev. rewrite m_quotes_cons.
  destruct (Ascii.eqb c BACKSLASH); [|reflexivity]. cbn [andb] in *.
  destruct (startswith [SQUOTE; DQUOTE]
              (dropwhile (Ascii.eqb BACKSLASH) (drop_backslashes_before_pair s)))
    eqn:Hq; [|reflexivity].
  apply drop_backslashes_pair_back in Hq. congruence.
Qed.

Lemma fix_quotes_clean (s : str) : clean m_quotes (fix_quotes s).
Proof.
  rewrite fix_quotes_drop. apply drop_backslashes_clean.
Qed.

(** ** The fourth substitution *)

Lemma at_dollar_inv (e : str) : at_dollar e = true -> e = [] \/ e = [NL].
Proof.
  destruct e as [|c [|d e]]; cbn; intros H; try discriminate.
  - now left.
  - right. apply Ascii.eqb_eq in H. now subst.
Qed.

Lemma scan_trailing_dollar (prev : option ascii) (e : str) :
  at_dollar e = true -> dropwhile (Ascii.eqb SP) e = e ->
  sub_scan m_trailing None 0 prev e = e.
Proof.
  intros He Hd. destruct (at_dollar_inv e He) as [-> | ->]; reflexivity.
Qed.

Lemma dropwhile_idem (f : ascii -> bool) (s : str) :
  dropwhile f (dropwhile f s) = dropwhile f s.
Proof.
  induction s as [|c s IH]; [reflexivity|]. cbn [dropwhile].
  destruct (f c) eqn:E; [exact IH|]. cbn [dropwhile]. now rewrite E.
Qed.

Lemma fix_trailing_strip_tail (s : str) : fix_trailing s = strip_tail s.
Proof.
  unfold fix_trailing, re_sub. cbn [budget]. generalize (@None ascii) as prev.
  induction s as [|c s IH]; intros prev; [reflexivity|].
  rewrite scan_cons. cbn [strip_tail]. unfold m_trailing at 1.
  destruct (at_dollar (dropwhile (Ascii.eqb SP) (c :: s))) eqn:E.
  - cbn [takewhile dropwhile] in *. destruct (Ascii.eqb SP c) eqn:Hc.
    + cbn [List.length app].
      pose proof (sub_scan_skip m_trailing None (takewhile (Ascii.eqb SP) s)
                    (Some c) (dropwhile (Ascii.eqb SP) s)) as Hk.
      rewrite takewhile_dropwhile in Hk. rewrite Hk.
      apply scan_trailing_dollar; [exact E|]. apply dropwhile_idem.
    + cbn [List.length app]. destruct (at_dollar_inv _ E) as [H | H];
        [discriminate|]. inversion H; subst. reflexivity.
  - f_equal. apply IH.
Qed.

(** The fourth substitution takes a run of spaces out of the end of the
    text, before its last newline when it ends with one. *)
Lemma strip_tail_shape (s : str) :
  exists a sp e,
    s = a ++ sp ++ e /\ strip_tail s = a ++ e
    /\ Forall (fun c => Ascii.eqb SP c = true) sp /\ (e = [] \/ e = [NL]).
Proof.
  induction s as [|c s (a & sp & e & Hs & Ht & Hsp & He)].
  - exists [], [], []. repeat split; auto.
  - cbn [strip_tail].
    destruct (at_dollar (dropwhile (Ascii.eqb SP) (c :: s))) eqn:E.
    + exists [], (takewhile (Ascii.eqb SP) (c :: s)),
        (dropwhile (Ascii.eqb SP) (c :: s)).
      repeat split.
      * now rewrite takewhile_dropwhile.
      * apply takewhile_all.
      * now apply at_dollar_inv.
    + exists (c :: a), sp, e. repeat split; auto.
      * cbn. now rewrite <- Hs.
      * cbn. now rewrite <- Ht.
Qed.

(** ** Words and the places where they occur *)

Lemma word_head (w : str) (c : ascii) (t b : str) :
  word w -> isspace c = true -> c :: t = w ++ b -> False.
Proof.
  intros [Hne Hw] Hc E. destruct w as [|x w]; [congruence|].
  cbn in E. inversion E; subst x. inversion Hw; subst. congruence.
Qed.

Lemma word_mid (w : str) (c : ascii) (l l2 : str) :
  word w -> isspace c = true -> w = l ++ c :: l2 -> False.
Proof.
  intros [_ Hw] Hc ->. apply Forall_app in Hw. destruct Hw as [_ Hw].
  inversion Hw; subst. congruence.
Qed.

Lemma occ_app_l (w x y : str) : occ w x -> occ w (x ++ y).
Proof.
  intros (a & b & ->). exists a, (b ++ y). now rewrite <- !app_assoc.
Qed.

Lemma occ_app_r (w x y : str) : occ w y -> occ w (x ++ y).
Proof.
  intros (a & b & ->). exists (x ++ a), b. now rewrite <- !app_assoc.
Qed.

Lemma occ_ws_app_l (w x y : str) : occ_ws w x -> occ_ws w (x ++ y).
Proof.
  intros (a & c & b & -> & Hc). exists a, c, (b ++ y). split; [|exact Hc].
  now rewrite <- !app_assoc.
Qed.

Lemma occ_ws_app_r (w x y : str) : occ_ws w y -> occ_ws w (x ++ y).
Proof.
  intros (a & c & b & -> & Hc). exists (x ++ a), c, b. split; [|exact Hc].
  now rewrite <- !app_assoc.
Qed.

(** A word does not run over a white-space character. *)
Lemma occ_split (w x y : str) (c : ascii) :
  word w -> isspace c = true -> occ w (x ++ c :: y) -> occ w x \/ occ w y.
Proof.
  intros Hw Hc (a & b & E). symmetry in E.
  apply app_eq_app in E. destruct E as (l & [[Ea Ey] | [Ex Ew]]).
  - destruct l as [|c' l].
    + exfalso. cbn in Ey. apply (word_head w c _ _ Hw Hc Ey).
    + cbn in Ey. injection Ey as Hcc Hy. right. now exists l, b.
  - apply app_eq_app in Ew.
    destruct Ew as (l2 & [[E1 E2] | [E1 E2]]).
    + destruct l2 as [|c' l2].
      * rewrite app_nil_r in E1. subst l x. left. exists a, [].
        now rewrite app_nil_r.
      * exfalso. cbn in E2. injection E2 as Hcc Hy. subst c'.
        apply (word_mid w c l l2 Hw Hc E1).
    + subst l x. left. exists a, l2. reflexivity.
Qed.

Lemma occ_ws_split (w x y : str) (c : ascii) :
  word w -> isspace c = true -> occ_ws w (x ++ c :: y) ->
  occ_ws w (x ++ [c]) \/ occ_ws w y.
Proof.
  intros Hw Hc (a & d & b & E & Hd). symmetry in E.
  apply app_eq_app in E. destruct E as (l & [[Ea Ey] | [Ex Ew]]).
  - destruct l as [|c' l].
    + exfalso. cbn in Ey. apply (word_head w c _ _ Hw Hc Ey).
    + cbn in Ey. injection Ey as Hcc Hy. right. exists l, d, b. now split.
  - apply app_eq_app in Ew.
    destruct Ew as (l2 & [[E1 E2] | [E1 E2]]).
    + destruct l2 as [|c' l2].
      * rewrite app_nil_r in E1. cbn in E2. injection E2 as Hcd Hyb.
        subst d l x. left. exists a, c, []. split; [|exact Hc].
        now rewrite <- app_assoc.
      * exfalso. cbn in E2. injection E2 as Hcc Hy. subst c'.
        apply (word_mid w c l l2 Hw Hc E1).
    + destruct l2 as [|d' l2].
      * cbn in E2. injection E2 as Hcd Hyb. rewrite app_nil_r in E1.
        subst d l x. left. exists a, c, []. split; [|exact Hc].
        now rewrite <- app_assoc.
      * cbn in E2. injection E2 as Hdd Hb. subst d' l x.
        left. exists a, d, (l2 ++ [c]).
        split; [|exact Hd]. now rewrite <- !app_assoc.
Qed.

Lemma occ_nil (w : str) : word w -> ~ occ w [].
Proof.
  intros [Hne _] (a & b & E). symmetry in E.
  apply app_eq_nil in E. destruct E as [_ E].
  apply app_eq_nil in E. destruct E as [E _]. congruence.
Qed.

Lemma occ_ws_nil (w : str) : ~ occ_ws w [].
Proof.
  intros (a & c & b & E & _). symmetry in E.
  apply app_eq_nil in E. destruct E as [_ E].
  apply app_eq_nil in E. destruct E as [_ E]. discriminate.
Qed.

(** In a text made of lines, a word lies in one line, and a word
    followed by white space lies in one line with its newline. *)
Lemma occ_unlines (w : str) (ls : list str) :
  word w -> occ w (unlines ls) -> exists l, In l ls /\ occ w l.
Proof.
  intros Hw. induction ls as [|l ls IH]; cbn [unlines flat_map]; intros H.
  - exfalso. eapply occ_nil; eauto.
  - rewrite <- app_assoc in H. cbn [app] in H.
    apply (occ_split w l _ NL Hw eq_refl) in H. destruct H as [H | H].
    + exists l. split; [now left | exact H].
    + destruct (IH H) as (l' & Hin & Hl'). exists l'. split; [now right | exact Hl'].
Qed.

Lemma occ_ws_unlines (w : str) (ls : list str) :
  word w -> occ_ws w (unlines ls) -> exists l, In l ls /\ occ_ws w (l ++ [NL]).
Proof.
  intros Hw. induction ls as [|l ls IH]; cbn [unlines flat_map]; intros H.
  - exfalso. eapply occ_ws_nil; eauto.
  - rewrite <- app_assoc in H. cbn [app] in H.
    apply (occ_ws_split w l _ NL Hw eq_refl) in H. destruct H as [H | H].
    + exists l. split; [now left | exact H].
    + destruct (IH H) as (l' & Hin & Hl'). exists l'. split; [now right | exact Hl'].
Qed.

Lemma unlines_in (ls : list str) (l : str) :
  In l ls -> exists x y, unlines ls = x ++ (l ++ [NL]) ++ y.
Proof.
  induction ls as [|k ls IH]; intros Hin; [contradiction|].
  destruct Hin as [-> | Hin].
  - exists [], (unlines ls). reflexivity.
  - destruct (IH Hin) as (x & y & E). exists ((k ++ [NL]) ++ x), y.
    cbn [unlines flat_map]. fold (unlines ls). rewrite E.
    now rewrite <- !app_assoc.
Qed.

Lemma occ_unlines_in (w : str) (ls : list str) (l : str) :
  In l ls -> occ w l -> occ w (unlines ls).
Proof.
  intros Hin Hl. destruct (unlines_in ls l Hin) as (x & y & ->).
  apply occ_app_r, occ_app_l, occ_app_l. exact Hl.
Qed.

Lemma occ_ws_unlines_in (w : str) (ls : list str) (l : str) :
  In l ls -> occ_ws w (l ++ [NL]) -> occ_ws w (unlines ls).
Proof.
  intros Hin Hl. destruct (unlines_in ls l Hin) as (x & y & ->).
  apply occ_ws_app_r, occ_ws_app_l. exact Hl.
Qed.

(** Dropping lines brings in no word. *)
Lemma occ_sublines (w : str) (kept lines : list str) :
  word w -> incl kept lines ->
  occ w (unlines kept) -> occ w (unlines lines).
Proof.
  intros Hw Hincl H. destruct (occ_unlines w kept Hw H) as (l & Hin & Hl).
  eapply occ_unlines_in; eauto.
Qed.

Lemma occ_ws_sublines (w : str) (kept lines : list str) :
  word w -> incl kept lines ->
  occ_ws w (unlines kept) -> occ_ws w (unlines lines).
Proof.
  intros Hw Hincl H. destruct (occ_ws_unlines w kept Hw H) as (l & Hin & Hl).
  eapply occ_ws_unlines_in; eauto.
Qed.

Lemma occ_ws_snoc (w x : str) (c : ascii) :
  occ_ws w (x ++ [c]) -> occ_ws w x \/ exists a, x = a ++ w.
Proof.
  intros (a & d & b & E & Hd).
  destruct b as [|z b] using rev_ind.
  - right. exists a. replace (a ++ w ++ [d]) with ((a ++ w) ++ [d]) in E
      by (now rewrite <- app_assoc).
    apply app_inj_tail in E. now destruct E.
  - clear IHb. left.
    replace (a ++ w ++ d :: b ++ [z]) with ((a ++ w ++ d :: b) ++ [z]) in E
      by (now rewrite <- !app_assoc).
    apply app_inj_tail in E. destruct E as [-> _]. now exists a, d, b.
Qed.

(** ** What the patterns look for, as words *)

Lemma digit_not_space (d : ascii) : isdigit d = true -> isspace d = false.
Proof.
  intros Hd. destruct (isspace d) eqn:E; [|reflexivity].
  apply isspace_not_digit in E. congruence.
Qed.

Lemma word_completed (ds : str) :
  Forall (fun d => isdigit d = true) ds -> word (COMPLETED ++ ds).
Proof.
  intros Hds. split; [discriminate|]. apply Forall_app. split.
  - vm_compute. repeat constructor.
  - eapply Forall_impl; [|exact Hds]. exact digit_not_space.
Qed.

Lemma word_created : word CREATED_OLD.
Proof. split; [discriminate|]. vm_compute. repeat constructor. Qed.

Lemma word_quotes (bs : str) :
  Forall is_backslash bs -> word (bs ++ [SQUOTE; DQUOTE]).
Proof.
  intros Hbs. split; [destruct bs; discriminate|]. apply Forall_app. split.
  - eapply Forall_impl; [|exact Hbs]. intros c Hc.
    apply Ascii.eqb_eq in Hc. now subst c.
  - repeat constructor.
Qed.

Lemma clean_completed_intro (t : str) :
  (forall ds, ds <> [] -> Forall (fun d => isdigit d = true) ds ->
              ~ occ_ws (COMPLETED ++ ds) t) ->
  clean m_completed t.
Proof.
  intros H a b prev E. destruct (m_completed prev b) as [[n r]|] eqn:Hm;
    [|reflexivity].
  exfalso.
  destruct (m_completed_inv _ _ _ _ Hm) as (ds & c & y & Hne & Hds & Hc & -> & _).
  apply (H ds Hne Hds). exists a, c, y. split; [|exact Hc].
  now rewrite E, <- !app_assoc.
Qed.

Lemma clean_completed_elim (t : str) (ds : str) :
  clean m_completed t -> ds <> [] -> Forall (fun d => isdigit d = true) ds ->
  ~ occ_ws (COMPLETED ++ ds) t.
Proof.
  intros H Hne Hds (a & c & b & E & Hc).
  pose proof (H a ((COMPLETED ++ ds) ++ c :: b) None E) as Hn.
  rewrite <- app_assoc, (m_completed_match None ds c b Hne Hds Hc) in Hn.
  discriminate.
Qed.

Lemma clean_created_intro (t : str) : ~ occ CREATED_OLD t -> clean m_created t.
Proof.
  intros H a b prev E. destruct (m_created prev b) as [[n r]|] eqn:Hm;
    [|reflexivity].
  exfalso. destruct (m_created_inv _ _ _ _ Hm) as (y & -> & _).
  apply H. now exists a, y.
Qed.

Lemma clean_created_elim (t : str) : clean m_created t -> ~ occ CREATED_OLD t.
Proof.
  intros H (a & b & E). pose proof (H a (CREATED_OLD ++ b) None E) as Hn.
  rewrite m_created_match in Hn. discriminate.
Qed.

Lemma clean_quotes_intro (t : str) :
  (forall bs, bs <> [] -> Forall is_backslash bs ->
              ~ occ (bs ++ [SQUOTE; DQUOTE]) t) ->
  clean m_quotes t.
Proof.
  intros H a b prev E. destruct (m_quotes prev b) as [[n r]|] eqn:Hm;
    [|reflexivity].
  exfalso.
  destruct (m_quotes_inv _ _ _ _ Hm) as (bs & rest & Hne & Hbs & -> & _).
  apply (H bs Hne Hbs). exists a, rest. now rewrite E, <- !app_assoc.
Qed.

Lemma clean_quotes_elim (t : str) (bs : str) :
  clean m_quotes t -> bs <> [] -> Forall is_backslash bs ->
  ~ occ (bs ++ [SQUOTE; DQUOTE]) t.
Proof.
  intros H Hne Hbs (a & b & E).
  pose proof (H a ((bs ++ [SQUOTE; DQUOTE]) ++ b) None E) as Hn.
  rewrite <- app_assoc in Hn. cbn [app] in Hn.
  rewrite (m_quotes_match None bs b Hne Hbs) in Hn. discriminate.
Qed.

(** ** The fourth substitution and [strip] bring in no word *)

Lemma strip_tail_occ (w s : str) :
  word w -> occ w (strip_tail s) -> occ w s.
Proof.
  intros Hw H. destruct (strip_tail_shape s) as (a & sp & e & Hs & Ht & _ & He).
  rewrite Ht in H. rewrite Hs. destruct He as [-> | ->].
  - rewrite app_nil_r in H. now apply occ_app_l.
  - apply (occ_split w a [] NL Hw eq_refl) in H. destruct H as [H | H].
    + now apply occ_app_l.
    + exfalso. eapply occ_nil; eauto.
Qed.

Lemma strip_tail_occ_ws (w s : str) :
  word w -> occ_ws w (strip_tail s) -> occ_ws w s.
Proof.
  intros Hw H. destruct (strip_tail_shape s) as (a & sp & e & Hs & Ht & Hsp & He).
  rewrite Ht in H. rewrite Hs. destruct He as [-> | ->].
  - rewrite app_nil_r in H. now apply occ_ws_app_l.
  - apply occ_ws_snoc in H. destruct H as [H | (a' & ->)].
    + now apply occ_ws_app_l.
    + destruct sp as [|x sp].
      * exists a', NL, []. split; [|reflexivity]. now rewrite <- app_assoc.
      * inversion Hsp; subst. apply Ascii.eqb_eq in H1. subst x.
        exists a', SP, (sp ++ [NL]). split; [|reflexivity].
        now rewrite <- !app_assoc.
Qed.

Lemma strip_shape (f : str) :
  exists p q, f = p ++ strip f ++ q
              /\ Forall (fun c => isspace c = true) p
              /\ Forall (fun c => isspace c = true) q.
Proof.
  unfold strip, lstrip, rstrip.
  destruct (dropwhile_suffix isspace (rev f)) as (q' & Hq & Hq').
  destruct (dropwhile_suffix isspace (rev (dropwhile isspace (rev f))))
    as (p & Hp & Hp').
  exists p, (rev q'). repeat split.
  - rewrite app_assoc, <- Hp, <- rev_app_distr, <- Hq.
    now rewrite rev_involutive.
  - exact Hp'.
  - now apply Forall_rev.
Qed.

Lemma strip_occ (w f : str) :
  word w -> occ w (strip f ++ [NL]) -> occ w f.
Proof.
  intros Hw H. destruct (strip_shape f) as (p & q & Hf & _ & _).
  apply (occ_split w (strip f) [] NL Hw eq_refl) in H. destruct H as [H | H].
  - rewrite Hf. now apply occ_app_r, occ_app_l.
  - exfalso. eapply occ_nil; eauto.
Qed.

Lemma plain_end_not_digit (t : str) :
  plain_end t -> ~ ends_with_digit t.
Proof.
  intros (t' & z & -> & Hz & _) (w' & d & E & Hd).
  apply app_inj_tail in E. destruct E as [_ ->]. congruence.
Qed.

Lemma strip_occ_ws (w f : str) :
  word w -> ends_with_digit w -> plain_end f ->
  occ_ws w (strip f ++ [NL]) -> occ_ws w f.
Proof.
  intros Hw (w' & d & Ew & Hd) Hf H.
  destruct (strip_shape f) as (p & q & E & _ & Hq).
  apply occ_ws_snoc in H. destruct H as [H | (a & Ha)].
  - rewrite E. now apply occ_ws_app_r, occ_ws_app_l.
  - destruct q as [|x q].
    + exfalso. apply (plain_end_not_digit f Hf).
      exists (p ++ a ++ w'), d. split; [|exact Hd].
      rewrite E, Ha, Ew, app_nil_r. now rewrite <- !app_assoc.
    + inversion Hq; subst. rewrite E, Ha. exists (p ++ a), x, q.
      split; [|assumption]. now rewrite <- !app_assoc.
Qed.

(** ** The last character *)

Lemma plain_end_app_r (x y : str) : plain_end y -> plain_end (x ++ y).
Proof.
  intros (t & z & -> & Hz). exists (x ++ t), z. split; [|exact Hz].
  now rewrite app_assoc.
Qed.

Lemma plain_end_tail (x y : str) : y <> [] -> plain_end (x ++ y) -> plain_end y.
Proof.
  intros Hne (t & z & E & Hz).
  destruct (exists_last Hne) as (y' & z' & ->).
  rewrite app_assoc in E. apply app_inj_tail in E. destruct E as [_ ->].
  now exists y', z.
Qed.

Section ScanEnd.

Variable m : matcher.
Hypothesis m_nil : forall prev, m prev [] = None.
Hypothesis m_shape :
  forall prev s n r, m prev s = Some (n, r) ->
    exists w y, s = w ++ y /\ n = List.length w /\ w <> [] /\ plain_end r.

Lemma scan_nil (prev : option ascii) : scan m prev [] = [].
Proof. unfold scan. cbn. now rewrite m_nil. Qed.

(** The result ends as the text does, or as a replacement does. *)
Lemma scan_plain_end (n : nat) :
  forall s prev, List.length s <= n -> plain_end s -> plain_end (scan m prev s).
Proof.
  induction n as [|n IH]; intros s prev Hlen Hs.
  - destruct s; [|simpl in Hlen; lia].
    destruct Hs as (t & z & E & _). now destruct t.
  - destruct s as [|c s].
    { destruct Hs as (t & z & E & _). now destruct t. }
    destruct (m prev (c :: s)) as [[k r]|] eqn:Hm.
    + destruct (m_shape _ _ _ _ Hm) as (w & y & E & -> & Hw & Hr).
      rewrite E in *. unfold scan. rewrite (scan_match _ _ _ _ _ Hw Hm).
      destruct y as [|d y].
      * fold (scan m (prev_after prev w) []). now rewrite scan_nil, app_nil_r.
      * apply plain_end_app_r.
        change (plain_end (scan m (prev_after prev w) (d :: y))). apply IH.
        -- rewrite length_app in Hlen. destruct w; [congruence|].
           simpl in Hlen. simpl. lia.
        -- apply (plain_end_tail w); [discriminate | exact Hs].
    + unfold scan. rewrite (scan_copy _ _ _ _ Hm).
      destruct s as [|d s].
      * fold (scan m (Some c) []). now rewrite scan_nil.
      * apply (plain_end_app_r [c]).
        change (plain_end (scan m (Some c) (d :: s))).
        apply IH; [simpl in *; lia|].
        apply (plain_end_tail [c]); [discriminate | exact Hs].
Qed.

End ScanEnd.

Lemma plain_end_Z (t : str) : plain_end (t ++ T120000Z).
Proof.
  apply plain_end_app_r. exists (removelast T120000Z), "Z"%char.
  repeat split. discriminate.
Qed.

Lemma fix_completed_plain_end (s : str) :
  plain_end s -> plain_end (fix_completed s).
Proof.
  apply (scan_plain_end m_completed m_completed_nil) with (n := List.length s);
    [|apply le_n].
  intros prev t n r H.
  destruct (m_completed_inv _ _ _ _ H) as (ds & c & y & _ & _ & _ & -> & -> & ->).
  exists (COMPLETED ++ ds ++ [c]), y. repeat split.
  - now rewrite <- !app_assoc.
  - discriminate.
  - rewrite app_assoc. apply plain_end_Z.
Qed.

Lemma fix_created_plain_end (s : str) :
  plain_end s -> plain_end (fix_created s).
Proof.
  apply (scan_plain_end m_created m_created_nil) with (n := List.length s);
    [|apply le_n].
  intros prev t n r H. destruct (m_created_inv _ _ _ _ H) as (y & -> & -> & ->).
  exists CREATED_OLD, y. repeat split.
  - discriminate.
  - exists (removelast CREATED_NEW), "Z"%char. repeat split. discriminate.
Qed.

Lemma fix_quotes_plain_end (s : str) :
  plain_end s -> plain_end (fix_quotes s).
Proof.
  apply (scan_plain_end m_quotes (fun _ => eq_refl)) with (n := List.length s);
    [|apply le_n].
  intros prev t n r H.
  destruct (m_quotes_inv _ _ _ _ H) as (bs & rest & Hne & _ & -> & -> & ->).
  exists (bs ++ [SQUOTE; DQUOTE]), rest. repeat split.
  - now rewrite <- app_assoc.
  - destruct bs; discriminate.
  - exists [SQUOTE], DQUOTE. repeat split. discriminate.
Qed.

Lemma strip_tail_plain_end (s : str) :
  plain_end s -> plain_end (strip_tail s).
Proof.
  intros Hs. destruct (strip_tail_shape s) as (a & sp & e & E & -> & Hsp & He).
  destruct He as [-> | ->].
  - rewrite app_nil_r in *. destruct sp as [|x sp] using rev_ind.
    + now rewrite app_nil_r in E; subst.
    + exfalso. destruct Hs as (t & z & Ez & _ & Hz). apply Hz.
      rewrite E, app_assoc in Ez. apply app_inj_tail in Ez. destruct Ez as [_ <-].
      apply Forall_app in Hsp. destruct Hsp as [_ Hx]. inversion Hx; subst.
      symmetry. now apply Ascii.eqb_eq.
  - apply plain_end_app_r. exists [], NL. repeat split. discriminate.
Qed.

Lemma endswith_NL_inv (e : str) :
  endswith [NL] e = true -> exists e', e = e' ++ [NL].
Proof.
  unfold endswith. cbn [rev app]. intros H.
  destruct (rev e) as [|c r] eqn:E; [discriminate|].
  cbn [startswith] in H. apply andb_prop in H. destruct H as [H _].
  apply Ascii.eqb_eq in H. subst c. exists (rev r).
  rewrite <- (rev_involutive e), E. reflexivity.
Qed.

Lemma canonical_ends (event : str) : exists e', canonical event = e' ++ [NL].
Proof.
  unfold canonical.
  destruct (endswith [NL] (to_normal_str event)) eqn:E.
  - now apply endswith_NL_inv.
  - now exists (to_normal_str event).
Qed.

Lemma fixed_plain_end (e : str) : plain_end e -> plain_end (fixed e).
Proof.
  intros H. unfold fixed. rewrite fix_trailing_strip_tail.
  now apply strip_tail_plain_end, fix_quotes_plain_end, fix_created_plain_end,
    fix_completed_plain_end.
Qed.

(** ** Lines again *)

Lemma unlines_split (s : str) : unlines (split NL s) = s ++ [NL].
Proof.
  induction s as [|c s IH]; [reflexivity|]. cbn [split].
  pose proof (split_nonempty NL s) as Hne.
  destruct (Ascii.eqb_spec c NL) as [->|Hc].
  - cbn [unlines flat_map app]. fold (unlines (split NL s)). now rewrite IH.
  - destruct (split NL s) as [|l ls]; [congruence|].
    cbn [unlines flat_map app] in *. now rewrite IH.
Qed.

Lemma join_unlines (ls : list str) :
  ls <> [] -> join [NL] ls ++ [NL] = unlines ls.
Proof.
  induction ls as [|l ls IH]; intros Hne; [congruence|].
  cbn [join unlines flat_map]. fold (unlines ls). destruct ls as [|k ls].
  - cbn. now rewrite app_nil_r.
  - rewrite <- IH by discriminate. now rewrite <- !app_assoc.
Qed.

Lemma split_line (l t : str) :
  ~ In NL l -> split NL (l ++ NL :: t) = l :: split NL t.
Proof.
  induction l as [|c l IH]; intros H.
  - cbn [app split]. now rewrite Ascii.eqb_refl.
  - cbn [app split]. destruct (Ascii.eqb_spec c NL) as [->|Hc].
    + exfalso. apply H. now left.
    + rewrite IH; [reflexivity|]. intros Hin. apply H. now right.
Qed.

Lemma split_one (l : str) : ~ In NL l -> split NL l = [l].
Proof.
  induction l as [|c l IH]; intros H; [reflexivity|].
  cbn [split]. destruct (Ascii.eqb_spec c NL) as [->|Hc].
  - exfalso. apply H. now left.
  - rewrite IH; [reflexivity|]. intros Hin. apply H. now right.
Qed.

Lemma split_join (ls : list str) :
  ls <> [] -> Forall (fun l => ~ In NL l) ls -> split NL (join [NL] ls) = ls.
Proof.
  induction ls as [|l ls IH]; intros Hne Hall; [congruence|].
  inversion Hall as [|? ? Hl Hls]; subst. cbn [join]. destruct ls as [|k ls].
  - now apply split_one.
  - cbn [app]. rewrite split_line by exact Hl. f_equal.
    apply IH; [discriminate | exact Hls].
Qed.

Lemma split_no_newline (s : str) : Forall (fun l => ~ In NL l) (split NL s).
Proof.
  induction s as [|c s IH]; [repeat constructor; auto|]. cbn [split].
  destruct (Ascii.eqb_spec c NL) as [->|Hc].
  - constructor; [auto | exact IH].
  - destruct (split NL s) as [|l ls]; [repeat constructor; intros [H|[]]; congruence|].
    inversion IH; subst. constructor; [|assumption].
    intros [H | H]; [congruence | contradiction].
Qed.

Lemma split_first (c : ascii) (s : str) :
  c <> NL -> exists l ls, split NL (c :: s) = (c :: l) :: ls.
Proof.
  intros Hc. cbn [split]. destruct (Ascii.eqb_spec c NL); [contradiction|].
  destruct (split NL s) as [|l ls]; [now exists [], [] | now exists l, ls].
Qed.

(** ** The duplicate filter, a second time *)

Lemma py_filter_incl self (ls : list str) : incl (py_filter self ls) ls.
Proof.
  revert self. induction ls as [|l ls IH]; intros self; [apply incl_refl|].
  cbn [py_filter]. destruct (call self l) as [[|] self'].
  - apply incl_cons; [now left|]. apply incl_tl, IH.
  - apply incl_tl, IH.
Qed.

(** A line that is dropped leaves the counters as they are. *)
Lemma call_dropped self (l : str) self' :
  call self l = (false, self') -> self' = self.
Proof.
  unfold call. intros H.
  destruct (startswith (lit "BEGIN:V") l); [discriminate|].
  destruct (match_name ENDERS l).
  - destruct (negb (ended self =? 0)%Z); now inversion H.
  - destruct (match_name STAMPS l).
    + destruct (negb (stamped self =? 0)%Z); now inversion H.
    + discriminate.
Qed.

Lemma py_filter_idempotent self (ls : list str) :
  py_filter self (py_filter self ls) = py_filter self ls.
Proof.
  revert self. induction ls as [|l ls IH]; intros self; [reflexivity|].
  cbn [py_filter]. destruct (call self l) as [[|] self'] eqn:E.
  - cbn [py_filter]. rewrite E. now rewrite IH.
  - apply call_dropped in E. subst self'. apply IH.
Qed.

(** The first line is kept whatever it is. *)
Lemma call_first (l : str) : fst (call new_filter l) = true.
Proof.
  unfold call.
  destruct (startswith (lit "BEGIN:V") l); [reflexivity|].
  destruct (match_name ENDERS l); [reflexivity|].
  destruct (match_name STAMPS l); reflexivity.
Qed.

Lemma py_filter_first (l : str) (ls : list str) :
  exists rest, py_filter new_filter (l :: ls) = l :: rest.
Proof.
  cbn [py_filter]. pose proof (call_first l) as H.
  destruct (call new_filter l) as [keep self']. cbn in H. subst keep.
  now eexists.
Qed.

(** ** A text that needs no stripping *)

Lemma lstrip_id (u : str) :
  (forall c t, u = c :: t -> isspace c = false) -> lstrip u = u.
Proof.
  intros H. destruct u as [|c t]; [reflexivity|].
  unfold lstrip. cbn [dropwhile]. now rewrite (H c t eq_refl).
Qed.

Lemma strip_id (u : str) :
  (forall c t, u = c :: t -> isspace c = false) ->
  (forall t z, u = t ++ [z] -> isspace z = false) ->
  strip (u ++ [NL]) = u.
Proof.
  intros Hh Hl. unfold strip, rstrip. rewrite rev_app_distr. cbn [rev app].
  cbn [dropwhile]. rewrite isspace_NL.
  destruct u as [|z u] using rev_ind; [reflexivity|]. clear IHu.
  rewrite rev_app_distr. cbn [rev app dropwhile].
  rewrite (Hl u z eq_refl). cbn [rev]. rewrite rev_involutive.
  now apply lstrip_id.
Qed.

Lemma strip_tail_id (u : str) :
  (forall t z, u = t ++ [z] -> z <> SP) ->
  strip_tail (u ++ [NL]) = u ++ [NL].
Proof.
  intros Hl.
  destruct (strip_tail_shape (u ++ [NL])) as (a & sp & e & E & -> & Hsp & He).
  destruct sp as [|x sp] using rev_ind; [now rewrite E|]. clear IHsp. exfalso.
  apply Forall_app in Hsp. destruct Hsp as [_ Hx]. inversion Hx; subst.
  apply Ascii.eqb_eq in H1. subst x. destruct He as [-> | ->].
  - rewrite app_nil_r, app_assoc in E. apply app_inj_tail in E.
    destruct E as [_ E]. discriminate.
  - replace (a ++ (sp ++ [SP]) ++ [NL]) with ((a ++ sp ++ [SP]) ++ [NL]) in E
      by (now rewrite <- !app_assoc).
    apply app_inj_tail in E. destruct E as [E _].
    rewrite app_assoc in E. now apply (Hl _ _ E).
Qed.

(** ** The result of the substitutions *)

Lemma ends_with_digit_completed (ds : str) :
  ds <> [] -> Forall (fun d => isdigit d = true) ds ->
  ends_with_digit (COMPLETED ++ ds).
Proof.
  intros Hne Hds. destruct (exists_last Hne) as (ds' & d & ->).
  exists (COMPLETED ++ ds'), d. split; [now rewrite app_assoc|].
  apply Forall_app in Hds. destruct Hds as [_ Hd]. now inversion Hd.
Qed.

(** After the four substitutions none of the first three patterns
    matches, and the text ends with a newline or with the last
    character of a replacement. *)
Lemma fixed_clean (e : str) :
  plain_end e ->
  clean m_completed (fixed e) /\ clean m_created (fixed e)
  /\ clean m_quotes (fixed e) /\ plain_end (fixed e).
Proof.
  intros He. pose proof (fixed_plain_end e He) as Hend.
  unfold fixed in *. rewrite fix_trailing_strip_tail in *.
  set (g2 := fix_created (fix_completed e)) in *.
  assert (HC : clean m_completed (fix_quotes g2)).
  { apply (scan_quotes_keeps_completed g2 None).
    apply (scan_created_keeps_completed (fix_completed e) None).
    apply (scan_completed_clean e None). }
  assert (HK : clean m_created (fix_quotes g2)).
  { apply (scan_quotes_keeps_created g2 None).
    apply (scan_created_clean (fix_completed e) None). }
  pose proof (fix_quotes_clean g2) as HQ.
  repeat split; [| | |exact Hend].
  - apply clean_completed_intro. intros ds Hne Hds H.
    apply (clean_completed_elim _ ds HC Hne Hds).
    apply strip_tail_occ_ws; [now apply word_completed | exact H].
  - apply clean_created_intro. intros H. apply (clean_created_elim _ HK).
    apply strip_tail_occ; [exact word_created | exact H].
  - apply clean_quotes_intro. intros bs Hne Hbs H.
    apply (clean_quotes_elim _ bs HQ Hne Hbs).
    apply strip_tail_occ; [now apply word_quotes | exact H].
Qed.

Lemma strip_head (f : str) (c : ascii) (t : str) :
  strip f = c :: t -> isspace c = false.
Proof. unfold strip, lstrip. apply dropwhile_head. Qed.

Lemma join_head (sep : str) (c : ascii) (l : str) (rest : list str) :
  exists t, join sep ((c :: l) :: rest) = c :: t.
Proof. cbn [join]. destruct rest; now eexists. Qed.

(** The text the filter lets through, when the last line is kept: it
    starts and ends as the stripped text does. *)
Lemma kept_text_ends (f : str) :
  last (verdicts new_filter (split NL (strip f))) true = true ->
  let u := join [NL] (py_filter new_filter (split NL (strip f))) in
  (forall c t, u = c :: t -> isspace c = false)
  /\ (forall t z, u = t ++ [z] -> isspace z = false).
Proof.
  intros Hlast u. subst u. split.
  - destruct (strip f) as [|c s] eqn:Es.
    + cbn. intros c t H. discriminate.
    + pose proof (strip_head f c s Es) as Hc.
      assert (Hne : c <> NL) by (intros ->; discriminate).
      destruct (split_first c s Hne) as (l & ls & E). rewrite E.
      destruct (py_filter_first (c :: l) ls) as (rest & E1).
      destruct (join_head [NL] c l rest) as (t0 & E2).
      unfold str in *. rewrite E1, E2.
      intros c' t H. now inversion H; subst.
  - destruct (strip_last f) as [E | (t0 & c & E & Hc)].
    + rewrite E. cbn. intros t z H. now destruct t.
    + rewrite E in *.
      assert (Hne : c <> NL) by (intros ->; discriminate).
      destruct (split_last NL t0 c Hne) as (ls & l & Hs).
      rewrite Hs in *. rewrite verdicts_snoc, last_last in Hlast.
      rewrite py_filter_snoc, Hlast.
      destruct (join_snoc [NL] (py_filter new_filter ls) (l ++ [c])) as (x & ->).
      intros t z H. rewrite !app_assoc in H. apply app_inj_tail in H.
      destruct H as [_ <-]. exact Hc.
Qed.

Lemma kept_nonempty (s : str) : py_filter new_filter (split NL s) <> [].
Proof.
  pose proof (split_nonempty NL s) as H.
  destruct (split NL s) as [|l ls]; [congruence|].
  destruct (py_filter_first l ls) as (rest & ->). discriminate.
Qed.

(** What [fix] returns is returned again, when its last line was kept
    and it has no CR LF in it. *)
Lemma dedup_fixed_point (f : str) :
  clean m_completed f -> clean m_created f -> clean m_quotes f ->
  plain_end f ->
  last (verdicts new_filter (split NL (strip f))) true = true ->
  to_normal_str (dedup f) = dedup f ->
  fix_text (dedup f) = dedup f.
Proof.
  intros HC HK HQ Hend Hlast Hnorm.
  destruct (kept_text_ends f Hlast) as [Hh Hl]. cbv zeta in Hh, Hl.
  pose proof (kept_nonempty (strip f)) as Hne.
  pose proof (py_filter_incl new_filter (split NL (strip f))) as Hincl.
  unfold dedup in *.
  set (kept := py_filter new_filter (split NL (strip f))) in *.
  set (u := join [NL] kept) in *.
  assert (Hout : u ++ [NL] = unlines kept) by (now apply join_unlines).
  assert (Hcan : canonical (u ++ [NL]) = u ++ [NL]).
  { unfold canonical. rewrite Hnorm, endswith_snoc1. reflexivity. }
  assert (HC' : clean m_completed (u ++ [NL])).
  { rewrite Hout. apply clean_completed_intro. intros ds Hd0 Hds H.
    apply (clean_completed_elim f ds HC Hd0 Hds).
    apply strip_occ_ws;
      [now apply word_completed | now apply ends_with_digit_completed
       | exact Hend |].
    rewrite <- unlines_split.
    eapply occ_ws_sublines; [now apply word_completed | exact Hincl | exact H]. }
  assert (HK' : clean m_created (u ++ [NL])).
  { rewrite Hout. apply clean_created_intro. intros H.
    apply (clean_created_elim f HK). apply strip_occ; [exact word_created|].
    rewrite <- unlines_split.
    eapply occ_sublines; [exact word_created | exact Hincl | exact H]. }
  assert (HQ' : clean m_quotes (u ++ [NL])).
  { rewrite Hout. apply clean_quotes_intro. intros bs Hb0 Hbs H.
    apply (clean_quotes_elim f bs HQ Hb0 Hbs).
    apply strip_occ; [now apply word_quotes|].
    rewrite <- unlines_split.
    eapply occ_sublines; [now apply word_quotes | exact Hincl | exact H]. }
  assert (Hfixed : fixed (u ++ [NL]) = u ++ [NL]).
  { unfold fixed.
    change (fix_completed (u ++ [NL])) with (scan m_completed None (u ++ [NL])).
    rewrite (scan_clean _ _ _ HC').
    change (fix_created (u ++ [NL])) with (scan m_created None (u ++ [NL])).
    rewrite (scan_clean _ _ _ HK').
    change (fix_quotes (u ++ [NL])) with (scan m_quotes None (u ++ [NL])).
    rewrite (scan_clean _ _ _ HQ').
    rewrite fix_trailing_strip_tail. apply strip_tail_id.
    intros t z E ->. now discriminate (Hl t SP E). }
  unfold fix_text, fixed2. rewrite Hcan, Hfixed. unfold dedup.
  rewrite (strip_id u Hh Hl). subst u kept.
  rewrite split_join.
  - now rewrite py_filter_idempotent.
  - exact Hne.
  - pose proof (split_no_newline (strip f)) as Hall.
    rewrite Forall_forall in *. intros l Hin. apply Hall, Hincl, Hin.
Qed.

(** ** The insertion before the first [END:V] line *)

Lemma insert_from_unfold (text : str) (prev : option ascii) (ret : str) :
  insert_from text prev ret
  = if at_caret prev && startswith END_V ret then text ++ [NL] ++ ret
    else match ret with
         | [] => []
         | c :: ret' => c :: insert_from text (Some c) ret'
         end.
Proof. destruct ret; reflexivity. Qed.

Lemma startswith_line (p l rest : str) :
  ~ In NL p -> startswith p l = false ->
  startswith p (l ++ NL :: rest) = false.
Proof.
  revert l. induction p as [|a p IH]; intros l Hp H; [discriminate|].
  destruct l as [|b l]; cbn [app startswith] in *.
  - destruct (Ascii.eqb_spec a NL) as [->|]; [|reflexivity].
    exfalso. apply Hp. now left.
  - destruct (Ascii.eqb a b); [|reflexivity]. cbn [andb] in *.
    apply IH; [|exact H]. intros Hin. apply Hp. now right.
Qed.

Lemma insert_from_line (text : str) (l rest : str) (prev : option ascii) :
  ~ In NL l ->
  (at_caret prev = true -> startswith END_V l = false) ->
  insert_from text prev (l ++ NL :: rest)
  = l ++ NL :: insert_from text (Some NL) rest.
Proof.
  revert prev. induction l as [|c l IH]; intros prev Hl Hstart.
  - cbn [app]. rewrite insert_from_unfold.
    replace (at_caret prev && startswith END_V (NL :: rest)) with false
      by (now rewrite andb_false_r).
    reflexivity.
  - cbn [app]. rewrite insert_from_unfold.
    replace (at_caret prev && startswith END_V (c :: l ++ NL :: rest)) with false.
    + f_equal. apply IH.
      * intros Hin. apply Hl. now right.
      * cbn [at_caret]. destruct (Ascii.eqb_spec c NL) as [->|]; [|discriminate].
        exfalso. apply Hl. now left.
    + symmetry. destruct (at_caret prev); [|reflexivity]. cbn [andb].
      apply (startswith_line END_V (c :: l) rest).
      * vm_compute. intros H. repeat (destruct H as [H | H]; [discriminate|]).
        exact H.
      * now apply Hstart.
Qed.

(** The text goes in once, with its newline, after the lines that do
    not start with [END:V] and before the first line that does; what
    comes after is as it was. *)
Lemma insert_before_first_end_spec (text : str) (before : list str) (post : str) :
  Forall (fun l => ~ In NL l /\ startswith END_V l = false) before ->
  insert_before_first_end text (unlines before ++ END_V ++ post)
  = unlines before ++ text ++ [NL] ++ END_V ++ post.
Proof.
  unfold insert_before_first_end.
  assert (G : forall prev, at_caret prev = true ->
            Forall (fun l => ~ In NL l /\ startswith END_V l = false) before ->
            insert_from text prev (unlines before ++ END_V ++ post)
            = unlines before ++ text ++ [NL] ++ END_V ++ post).
  { induction before as [|l ls IH]; intros prev Hp Hall.
    - cbn [unlines flat_map app]. rewrite insert_from_unfold, Hp.
      now rewrite startswith_prefix.
    - inversion Hall as [|? ? [Hl Hs] Hls]; subst.
      cbn [unlines flat_map]. fold (unlines ls).
      rewrite <- !app_assoc. cbn [app].
      rewrite insert_from_line by auto. rewrite IH by auto. reflexivity. }
  now apply G.
Qed.

(** ** The number of lines *)

Lemma count_nl_app (a b : str) : count_nl (a ++ b) = count_nl a + count_nl b.
Proof. apply count_occ_app. Qed.

Section ScanCount.

Variable m : matcher.
Hypothesis m_nil : forall prev, m prev [] = None.
Hypothesis m_shape :
  forall prev s n r, m prev s = Some (n, r) ->
    exists w y, s = w ++ y /\ n = List.length w /\ w <> []
                /\ count_nl r = count_nl w.

(** A substitution whose replacements have as many newlines as the
    texts they replace leaves the number of newlines as it is. *)
Lemma scan_count_nl (n : nat) :
  forall s prev, List.length s <= n -> count_nl (scan m prev s) = count_nl s.
Proof.
  induction n as [|n IH]; intros s prev Hlen.
  - destruct s; [|simpl in Hlen; lia]. unfold scan. cbn. now rewrite m_nil.
  - destruct s as [|c s].
    { unfold scan. cbn. now rewrite m_nil. }
    destruct (m prev (c :: s)) as [[k r]|] eqn:Hm.
    + destruct (m_shape _ _ _ _ Hm) as (w & y & E & -> & Hw & Hr).
      rewrite E in *. unfold scan. rewrite (scan_match _ _ _ _ _ Hw Hm).
      rewrite !count_nl_app, Hr. f_equal.
      apply (IH y (prev_after prev w)).
      rewrite length_app in Hlen. destruct w; [congruence|].
      simpl in Hlen. lia.
    + unfold scan. rewrite (scan_copy _ _ _ _ Hm).
      change (sub_scan m None 0 (Some c) s) with (scan m (Some c) s).
      unfold count_nl in *. cbn [count_occ].
      rewrite IH by (simpl in Hlen; lia). reflexivity.
Qed.

End ScanCount.

Lemma count_nl_none (P : ascii -> Prop) (s : str) :
  ~ P NL -> Forall P s -> count_nl s = 0.
Proof.
  intros HP Hs. apply count_occ_not_In. intros Hin.
  rewrite Forall_forall in Hs. now apply HP, Hs.
Qed.

Lemma fix_created_count_nl (s : str) : count_nl (fix_created s) = count_nl s.
Proof.
  apply (scan_count_nl m_created m_created_nil) with (n := List.length s);
    [|apply le_n].
  intros prev t n r H. destruct (m_created_inv _ _ _ _ H) as (y & -> & -> & ->).
  exists CREATED_OLD, y. repeat split. discriminate.
Qed.

Lemma fix_quotes_count_nl (s : str) : count_nl (fix_quotes s) = count_nl s.
Proof.
  apply (scan_count_nl m_quotes (fun _ => eq_refl)) with (n := List.length s);
    [|apply le_n].
  intros prev t n r H.
  destruct (m_quotes_inv _ _ _ _ H) as (bs & rest & Hne & Hbs & -> & -> & ->).
  exists (bs ++ [SQUOTE; DQUOTE]), rest. repeat split.
  - now rewrite <- app_assoc.
  - destruct bs; discriminate.
  - rewrite count_nl_app, (count_nl_none is_backslash bs); [reflexivity | | exact Hbs].
    discriminate.
Qed.

Lemma fix_trailing_count_nl (s : str) : count_nl (fix_trailing s) = count_nl s.
Proof.
  rewrite fix_trailing_strip_tail.
  destruct (strip_tail_shape s) as (a & sp & e & E & -> & Hsp & _).
  rewrite E, !count_nl_app.
  rewrite (count_nl_none (fun c => Ascii.eqb SP c = true) sp); [lia | | exact Hsp].
  discriminate.
Qed.

(** The second, third and fourth substitutions leave the number of
    lines as it is; the first one does not (C8). *)
Lemma later_fixups_keep_line_count (s : str) :
  count_nl (fix_trailing (fix_quotes (fix_created s))) = count_nl s.
Proof.
  now rewrite fix_trailing_count_nl, fix_quotes_count_nl, fix_created_count_nl.
Qed.

(** C6, as amended.  Applying [fix] to what [fix] returned gives the
    same text again, whenever the duplicate filter kept the last line of
    the stripped text in the first application and the text returned
    has no CR LF in it (so that [to_normal_str] leaves it as it is). *)
Theorem fix_idempotent_when_last_line_kept :
  forall (event : str) (p p' : process),
    last (verdicts new_filter (split NL (strip (fixed (canonical event)))))
         true = true ->
    to_normal_str (fst (vcal_fix event p)) = fst (vcal_fix event p) ->
    fst (vcal_fix (fst (vcal_fix event p)) p') = fst (vcal_fix event p).
Proof.
  intros event p p' Hlast Hnorm. rewrite !vcal_fix_text in *.
  unfold fix_text at 2 3. unfold fix_text at 1 2 in Hnorm. unfold fixed2 in *.
  destruct (canonical_ends event) as (e' & He).
  assert (Hend : plain_end (canonical event)).
  { rewrite He. exists e', NL. repeat split. discriminate. }
  destruct (fixed_clean (canonical event) Hend) as (HC & HK & HQ & Hf).
  now apply dedup_fixed_point.
Qed.

Lemma fix_idempotent_when_last_line_kept_witness :
  fst (vcal_fix
         (fst (vcal_fix
                 (lit "BEGIN:VTODO\nDTSTAMP:1\nDTSTAMP:2\nCOMPLETED:20200101 \nEND:VTODO")
                 fresh_process))
         fresh_process)
  = fst (vcal_fix
           (lit "BEGIN:VTODO\nDTSTAMP:1\nDTSTAMP:2\nCOMPLETED:20200101 \nEND:VTODO")
           fresh_process).
Proof.
  apply (fix_idempotent_when_last_line_kept
           (lit "BEGIN:VTODO\nDTSTAMP:1\nDTSTAMP:2\nCOMPLETED:20200101 \nEND:VTODO")
           fresh_process fresh_process).
  - vm_compute. reflexivity.
  - vm_compute. reflexivity.
Defined.

(** * Further properties *)

(** ** More about the duplicate filter *)

(** A line that is neither of the DURATION, DTEND, DUE group nor a
    DTSTAMP line is kept, whatever the counters hold. *)
Lemma call_other self (l : str) :
  is_ender l = false -> is_stamp l = false -> fst (call self l) = true.
Proof.
  unfold call, is_ender, is_stamp. intros -> ->.
  destruct (startswith (lit "BEGIN:V") l); reflexivity.
Qed.

(** X1.  Filtering twice is filtering once: the lines a filter lets
    through all pass a filter that starts with the same counters. *)
Theorem filter_is_idempotent :
  forall self (lines : list str),
    py_filter self (py_filter self lines) = py_filter self lines.
Proof. intros self lines. apply py_filter_idempotent. Qed.

(** X2.  The filter drops nothing but DTSTAMP, DURATION, DTEND and DUE
    lines: the other lines are all in the result, in the order they
    came in, whatever the counters hold at the start. *)
Theorem filter_drops_only_group_lines :
  forall self (lines : list str),
    filter (fun l => negb (is_ender l || is_stamp l)) (py_filter self lines)
    = filter (fun l => negb (is_ender l || is_stamp l)) lines.
Proof.
  intros self lines. revert self.
  induction lines as [|l ls IH]; intros self; [reflexivity|].
  cbn [py_filter filter].
  destruct (is_ender l || is_stamp l) eqn:E; cbn [negb].
  - destruct (call self l) as [[|] self'].
    + cbn [filter]. rewrite E. cbn [negb]. apply IH.
    + apply IH.
  - apply orb_false_elim in E. destruct E as [He Hs].
    pose proof (call_other self l He Hs) as Hk.
    destruct (call self l) as [keep self']. cbn [fst] in Hk. subst keep.
    cbn [filter]. rewrite He, Hs. cbn [orb negb]. f_equal. apply IH.
Qed.

(** The counters after a line that opens a block. *)
Lemma call_begin self (l : str) :
  is_begin l = true -> call self l = (true, new_filter).
Proof. unfold call, is_begin. intros ->. reflexivity. Qed.

Lemma py_filter_app self (a b : list str) :
  py_filter self (a ++ b) = py_filter self a ++ py_filter (run_filter self a) b.
Proof.
  revert self. induction a as [|x a IH]; intros self; [reflexivity|].
  cbn [app py_filter]. unfold run_filter. cbn [fold_left].
  destruct (call self x) as [[|] self'] eqn:E; cbn [snd].
  - rewrite IH. reflexivity.
  - rewrite IH. reflexivity.
Qed.

(** X3.  A line that starts with [BEGIN:V] starts the filter afresh: the
    lines from it on are filtered as a document of their own, whatever
    came before and whatever the counters held. *)
Theorem filter_restarts_at_begin :
  forall self (before : list str) (l : str) (after : list str),
    is_begin l = true ->
    py_filter self (before ++ l :: after)
    = py_filter self before ++ py_filter new_filter (l :: after).
Proof.
  intros self before l after Hb. rewrite py_filter_app. f_equal.
  cbn [py_filter]. rewrite !(call_begin _ l Hb). reflexivity.
Qed.

Lemma filter_restarts_at_begin_witness :
  py_filter new_filter
    ([lit "BEGIN:VEVENT"; lit "DTSTAMP:1"; lit "DTSTAMP:2"]
     ++ lit "BEGIN:VTODO" :: [lit "DTSTAMP:3"; lit "DTSTAMP:4"])
  = py_filter new_filter [lit "BEGIN:VEVENT"; lit "DTSTAMP:1"; lit "DTSTAMP:2"]
    ++ py_filter new_filter (lit "BEGIN:VTODO" :: [lit "DTSTAMP:3"; lit "DTSTAMP:4"]).
Proof.
  apply (filter_restarts_at_begin new_filter). vm_compute. reflexivity.
Defined.

(** X4.  The two counters are never above one.  After any lines given to
    a new filter, [stamped] is 1 when a DTSTAMP line has come since the
    last [BEGIN:V] line and 0 otherwise, and [ended] is 1 when a
    DURATION, DTEND or DUE line has and 0 otherwise. *)
Theorem filter_counters_follow_the_open_block :
  forall (lines : list str),
    run_filter new_filter lines
    = {| stamped := if existsb is_stamp (open_block lines) then 1 else 0;
         ended := if existsb is_ender (open_block lines) then 1 else 0 |}.
Proof. intros lines. apply filter_state. Qed.

Lemma py_filter_length self (ls : list str) :
  List.length (py_filter self ls) <= List.length ls.
Proof.
  revert self. induction ls as [|l ls IH]; intros self; [apply le_n|].
  cbn [py_filter]. destruct (call self l) as [[|] self']; cbn [List.length].
  - apply le_n_S, IH.
  - apply le_S, IH.
Qed.

(** When the filter lets every line through, each call returned true. *)
Lemma py_filter_all_kept self (pre : list str) (l : str) (post : list str) :
  py_filter self (pre ++ l :: post) = pre ++ l :: post ->
  fst (call (run_filter self pre) l) = true.
Proof.
  revert self. induction pre as [|x pre IH]; intros self H.
  - cbn [app py_filter run_filter fold_left] in *.
    destruct (call self l) as [[|] self'] eqn:E; [reflexivity|]. exfalso.
    pose proof (py_filter_length self' post) as Hlen.
    rewrite H in Hlen. simpl in Hlen. lia.
  - cbn [app py_filter] in H. unfold run_filter. cbn [fold_left].
    destruct (call self x) as [[|] self'] eqn:E; cbn [snd].
    + apply IH. injection H as H. exact H.
    + exfalso. pose proof (py_filter_length self' (pre ++ l :: post)) as Hlen.
      rewrite H in Hlen. simpl in Hlen. lia.
Qed.

Lemma open_block_app (pre b : list str) :
  existsb is_begin b = false -> open_block (pre ++ b) = open_block pre ++ b.
Proof.
  induction b as [|x b IH] using rev_ind; intros H.
  - now rewrite !app_nil_r.
  - rewrite existsb_snoc in H. apply orb_false_elim in H. destruct H as [Hb Hx].
    rewrite app_assoc, open_block_snoc, Hx, IH by exact Hb.
    now rewrite app_assoc.
Qed.

Lemma keeps_second (f : str -> bool) (a : list str) (l1 : str) (b : list str) :
  f l1 = true -> is_begin l1 = false -> existsb is_begin b = false ->
  existsb f (open_block (a ++ l1 :: b)) = true.
Proof.
  intros Hf Hb1 Hb.
  change (a ++ l1 :: b) with (a ++ [l1] ++ b). rewrite app_assoc.
  rewrite open_block_app by exact Hb. rewrite open_block_snoc, Hb1.
  rewrite !existsb_app. cbn [existsb]. rewrite Hf.
  now rewrite orb_true_r.
Qed.

Lemma not_begin_of_name (l : str) :
  is_ender l || is_stamp l = true -> is_begin l = false.
Proof.
  intros H. destruct (is_begin l) eqn:E; [|reflexivity].
  destruct (begin_not_name l E) as [He Hs]. rewrite He, Hs in H. discriminate.
Qed.

Lemma py_filter_one_per_block (lines a : list str) (l1 : str) (b : list str)
    (l2 : str) (c : list str) :
  py_filter new_filter lines = a ++ l1 :: b ++ l2 :: c ->
  (is_stamp l1 && is_stamp l2) || (is_ender l1 && is_ender l2) = true ->
  existsb is_begin b = true.
Proof.
  intros E Hg.
  destruct (existsb is_begin b) eqn:Hb; [reflexivity|]. exfalso.
  pose proof (py_filter_idempotent new_filter lines) as Hid.
  rewrite E in Hid.
  replace (a ++ l1 :: b ++ l2 :: c) with ((a ++ l1 :: b) ++ l2 :: c) in Hid
    by (now rewrite <- app_assoc).
  apply py_filter_all_kept in Hid. rewrite call_keeps in Hid.
  unfold keeps in Hid.
  apply orb_true_iff in Hg. destruct Hg as [Hg | Hg];
    apply andb_prop in Hg; destruct Hg as [H1 H2].
  - assert (Hb2 : is_begin l2 = false)
      by (apply not_begin_of_name; rewrite H2; apply orb_true_r).
    assert (Hb1 : is_begin l1 = false)
      by (apply not_begin_of_name; rewrite H1; apply orb_true_r).
    rewrite Hb2, H2 in Hid.
    destruct (is_ender l2) eqn:He2.
    + apply ender_not_stamp in He2. congruence.
    + rewrite (keeps_second is_stamp a l1 b H1 Hb1 Hb) in Hid. discriminate.
  - assert (Hb2 : is_begin l2 = false)
      by (apply not_begin_of_name; now rewrite H2).
    assert (Hb1 : is_begin l1 = false)
      by (apply not_begin_of_name; now rewrite H1).
    rewrite Hb2, H2 in Hid.
    rewrite (keeps_second is_ender a l1 b H1 Hb1 Hb) in Hid. discriminate.
Qed.

(** X5.  In what a new filter lets through, two DTSTAMP lines have a
    [BEGIN:V] line between them, and so have two lines of the group
    DURATION, DTEND, DUE: no block is left with a second line of a
    group. *)
Theorem filter_leaves_one_of_a_group_per_block :
  forall (lines a : list str) (l1 : str) (b : list str) (l2 : str) (c : list str),
    py_filter new_filter lines = a ++ l1 :: b ++ l2 :: c ->
    (is_stamp l1 && is_stamp l2) || (is_ender l1 && is_ender l2) = true ->
    existsb is_begin b = true.
Proof. intros lines a l1 b l2 c. apply py_filter_one_per_block. Qed.

Lemma filter_leaves_one_of_a_group_per_block_witness :
  existsb is_begin [lit "END:VEVENT"; lit "BEGIN:VTODO"] = true.
Proof.
  apply (filter_leaves_one_of_a_group_per_block
           [lit "BEGIN:VEVENT"; lit "DTEND:1"; lit "DURATION:PT1H";
            lit "END:VEVENT"; lit "BEGIN:VTODO"; lit "DUE:2"; lit "DUE:3"]
           [lit "BEGIN:VEVENT"] (lit "DTEND:1")
           [lit "END:VEVENT"; lit "BEGIN:VTODO"] (lit "DUE:2") []).
  - vm_compute. reflexivity.
  - vm_compute. reflexivity.
Defined.

(** ** The rate limit of the log *)

Lemma land_even_odd (a b : Z) :
  Z.land (2 * a) (2 * b + 1) = (2 * Z.land a b)%Z.
Proof.
  apply Z.bits_inj'. intros n Hn. rewrite Z.land_spec.
  destruct (Z.eq_dec n 0) as [->|Hn0].
  - rewrite !Z.testbit_even_0. reflexivity.
  - replace n with (Z.succ (n - 1)) by lia.
    rewrite Z.testbit_even_succ, Z.testbit_odd_succ, Z.testbit_even_succ by lia.
    now rewrite Z.land_spec.
Qed.

Lemma land_odd_even (a : Z) :
  Z.land (2 * a + 1) (2 * a) = (2 * a)%Z.
Proof.
  apply Z.bits_inj'. intros n Hn. rewrite Z.land_spec.
  destruct (Z.eq_dec n 0) as [->|Hn0].
  - rewrite Z.testbit_even_0, Z.testbit_odd_0. reflexivity.
  - replace n with (Z.succ (n - 1)) by lia.
    rewrite Z.testbit_even_succ, Z.testbit_odd_succ by lia.
    apply andb_diag.
Qed.

(** [n & (n - 1)] is zero exactly at the powers of two. *)
Lemma remove_bit_power (p : positive) :
  remove_bit (Z.pos p) = 0%Z <-> exists k, (0 <= k /\ Z.pos p = 2 ^ k)%Z.
Proof.
  unfold remove_bit. induction p as [q IH | q IH |].
  - replace (Z.pos q~1 - 1)%Z with (2 * Z.pos q)%Z by lia.
    replace (Z.pos q~1) with (2 * Z.pos q + 1)%Z by lia.
    rewrite land_odd_even. split; [lia|].
    intros (k & Hk & E). destruct (Z.eq_dec k 0) as [->|Hk0].
    + simpl in E. lia.
    + replace k with (Z.succ (k - 1)) in E by lia.
      rewrite Z.pow_succ_r in E by lia. lia.
  - replace (Z.pos q~0 - 1)%Z with (2 * (Z.pos q - 1) + 1)%Z by lia.
    replace (Z.pos q~0) with (2 * Z.pos q)%Z by lia.
    rewrite land_even_odd. split.
    + intros H. assert (H' : Z.land (Z.pos q) (Z.pos q - 1) = 0%Z) by lia.
      apply IH in H'. destruct H' as (k & Hk & E).
      exists (Z.succ k). split; [lia|]. rewrite Z.pow_succ_r by lia. lia.
    + intros (k & Hk & E). destruct (Z.eq_dec k 0) as [->|Hk0].
      * simpl in E. lia.
      * replace k with (Z.succ (k - 1)) in E by lia.
        rewrite Z.pow_succ_r in E by lia.
        assert (H' : Z.land (Z.pos q) (Z.pos q - 1) = 0%Z).
        { apply IH. exists (k - 1)%Z. split; lia. }
        lia.
  - split; [|reflexivity]. intros _. exists 0%Z. split; [lia | reflexivity].
Qed.

(** X6.  The rate limit of the log.  A call of [fix] that changes the
    text logs two messages, the count and the difference, both at the
    same level; the level is ERROR exactly when the count it has reached
    is a power of two (1, 2, 4, 8, ...), and DEBUG otherwise. *)
Theorem fix_logs_errors_at_powers_of_two :
  forall (event : str) (p : process),
    (0 <= fixup_error_loggings p)%Z ->
    str_eqb (fst (vcal_fix event p)) (canonical event) = false ->
    exists sev,
      logged (snd (vcal_fix event p))
      = Diff sev (canonical event) (fst (vcal_fix event p))
          :: Modified sev (fixup_error_loggings p + 1) :: logged p
      /\ (sev = ERROR <->
          exists k, (0 <= k /\ fixup_error_loggings p + 1 = 2 ^ k)%Z).
Proof.
  intros event p Hn Hchanged. rewrite vcal_fix_text in *.
  unfold vcal_fix. cbv zeta. unfold fix_text in Hchanged. rewrite Hchanged.
  cbn [negb snd logged]. unfold fix_text.
  destruct (fixup_error_loggings p + 1)%Z as [|q|q] eqn:E; try lia.
  pose proof (remove_bit_power q) as Hpow.
  destruct (remove_bit (Z.pos q) =? 0)%Z eqn:Hb.
  - exists ERROR. split; [reflexivity|]. split; [|reflexivity].
    intros _. apply Hpow. now apply Z.eqb_eq.
  - exists DEBUG. split; [reflexivity|]. split; [discriminate|].
    intros H. apply Hpow in H. apply Z.eqb_neq in Hb. contradiction.
Qed.

Lemma fix_logs_errors_at_powers_of_two_witness :
  exists sev,
    logged (snd (vcal_fix (lit "CREATED:00001231T000000Z")
                   {| fixup_error_loggings := 3; logged := [] |}))
    = Diff sev (canonical (lit "CREATED:00001231T000000Z"))
        (fst (vcal_fix (lit "CREATED:00001231T000000Z")
                {| fixup_error_loggings := 3; logged := [] |}))
        :: Modified sev (fixup_error_loggings
                           {| fixup_error_loggings := 3; logged := [] |} + 1)
        :: logged {| fixup_error_loggings := 3; logged := [] |}
    /\ (sev = ERROR <->
        exists k, (0 <= k
                   /\ fixup_error_loggings
                        {| fixup_error_loggings := 3; logged := [] |} + 1
                      = 2 ^ k)%Z).
Proof.
  apply (fix_logs_errors_at_powers_of_two (lit "CREATED:00001231T000000Z")
           {| fixup_error_loggings := 3; logged := [] |}).
  - vm_compute. discriminate.
  - vm_compute. reflexivity.
Defined.

(** ** What is left of the patterns in the text returned *)

Lemma re_search_clean (m : matcher) (t : str) (prev : option ascii) :
  clean m t -> re_search m prev t = false.
Proof.
  revert prev. induction t as [|c t IH]; intros prev H.
  - cbn [re_search]. now rewrite (H [] [] prev eq_refl).
  - cbn [re_search]. rewrite (H [] (c :: t) prev eq_refl).
    apply IH. intros a b p E. apply (H (c :: a) b p). now rewrite E.
Qed.

Lemma clean_re_search (m : matcher) (t : str) (prev : option ascii) :
  (forall p p' s, m p s = m p' s) ->
  re_search m prev t = false -> clean m t.
Proof.
  intros Hm. revert prev. induction t as [|c t IH]; intros prev H a b p E.
  - destruct a; [|discriminate]. cbn [app] in E. subst b.
    cbn [re_search] in H. rewrite (Hm p prev).
    destruct (m prev []); [discriminate | reflexivity].
  - cbn [re_search] in H.
    destruct (m prev (c :: t)) eqn:Hc; [discriminate|].
    destruct a as [|x a].
    + cbn [app] in E. subst b. now rewrite (Hm p prev).
    + injection E as -> E. exact (IH (Some x) H a b p E).
Qed.

(** The filter and the stripping bring none of the three patterns into
    the text. *)
Lemma dedup_clean (f : str) :
  clean m_completed f -> clean m_created f -> clean m_quotes f ->
  plain_end f ->
  clean m_completed (dedup f) /\ clean m_created (dedup f)
  /\ clean m_quotes (dedup f).
Proof.
  intros HC HK HQ Hend.
  pose proof (kept_nonempty (strip f)) as Hne.
  pose proof (py_filter_incl new_filter (split NL (strip f))) as Hincl.
  unfold dedup.
  set (kept := py_filter new_filter (split NL (strip f))) in *.
  rewrite (join_unlines kept Hne). repeat split.
  - apply clean_completed_intro. intros ds Hd0 Hds H.
    apply (clean_completed_elim f ds HC Hd0 Hds).
    apply strip_occ_ws;
      [now apply word_completed | now apply ends_with_digit_completed
       | exact Hend |].
    rewrite <- unlines_split.
    eapply occ_ws_sublines; [now apply word_completed | exact Hincl | exact H].
  - apply clean_created_intro. intros H.
    apply (clean_created_elim f HK). apply strip_occ; [exact word_created|].
    rewrite <- unlines_split.
    eapply occ_sublines; [exact word_created | exact Hincl | exact H].
  - apply clean_quotes_intro. intros bs Hb0 Hbs H.
    apply (clean_quotes_elim f bs HQ Hb0 Hbs).
    apply strip_occ; [now apply word_quotes|].
    rewrite <- unlines_split.
    eapply occ_sublines; [now apply word_quotes | exact Hincl | exact H].
Qed.

Lemma canonical_plain_end (event : str) : plain_end (canonical event).
Proof.
  destruct (canonical_ends event) as (e' & He). rewrite He.
  exists e', NL. repeat split. discriminate.
Qed.

(** X7.  In the text [fix] returns none of the first three patterns
    matches any more: there is no COMPLETED date followed by white
    space, no CREATED:00001231T000000Z, and no backslash before an
    apostrophe and a double quote. *)
Theorem fix_leaves_no_pattern_to_match :
  forall (event : str) (p : process),
    re_search m_completed None (fst (vcal_fix event p)) = false
    /\ re_search m_created None (fst (vcal_fix event p)) = false
    /\ re_search m_quotes None (fst (vcal_fix event p)) = false.
Proof.
  intros event p. rewrite vcal_fix_text. unfold fix_text, fixed2.
  destruct (fixed_clean (canonical event) (canonical_plain_end event))
    as (HC & HK & HQ & Hf).
  destruct (dedup_clean _ HC HK HQ Hf) as (HC' & HK' & HQ').
  repeat split; now apply re_search_clean.
Qed.

(** ** Texts that [fix] leaves as they are *)

Lemma strip_fixed_ends (u : str) :
  strip u = u ->
  (forall c t, u = c :: t -> isspace c = false)
  /\ (forall t z, u = t ++ [z] -> isspace z = false).
Proof.
  intros Hs. split.
  - intros c t E. apply (strip_head u c t). now rewrite Hs.
  - intros t z E. destruct (strip_last u) as [H | (t' & c & H & Hc)];
      rewrite Hs in H.
    + rewrite H in E. now destruct t.
    + rewrite H in E. apply app_inj_tail in E. destruct E as [_ <-]. exact Hc.
Qed.

(** X8.  A text that needs no fixing comes back as it is, and the
    process is left alone: nothing is counted and nothing is logged.
    That is a text [u] followed by one newline, where [u] has no CR LF,
    no white space at its start or end, no match of the first three
    patterns, and no line the duplicate filter drops. *)
Theorem fix_returns_sound_text_unchanged :
  forall (u : str) (p : process),
    to_normal_str (u ++ [NL]) = u ++ [NL] ->
    strip u = u ->
    re_search m_completed None (u ++ [NL]) = false ->
    re_search m_created None (u ++ [NL]) = false ->
    re_search m_quotes None (u ++ [NL]) = false ->
    py_filter new_filter (split NL u) = split NL u ->
    vcal_fix (u ++ [NL]) p = (u ++ [NL], p).
Proof.
  intros u p Hnorm Hstrip HC HK HQ Hkept.
  destruct (strip_fixed_ends u Hstrip) as [Hh Hl].
  apply (clean_re_search m_completed _ None m_completed_prev) in HC.
  apply (clean_re_search m_created _ None m_created_prev) in HK.
  apply (clean_re_search m_quotes _ None (fun _ _ _ => eq_refl)) in HQ.
  assert (Hcan : canonical (u ++ [NL]) = u ++ [NL]).
  { unfold canonical. rewrite Hnorm, endswith_snoc1. reflexivity. }
  assert (Hfixed : fixed (u ++ [NL]) = u ++ [NL]).
  { unfold fixed.
    change (fix_completed (u ++ [NL])) with (scan m_completed None (u ++ [NL])).
    rewrite (scan_clean _ _ _ HC).
    change (fix_created (u ++ [NL])) with (scan m_created None (u ++ [NL])).
    rewrite (scan_clean _ _ _ HK).
    change (fix_quotes (u ++ [NL])) with (scan m_quotes None (u ++ [NL])).
    rewrite (scan_clean _ _ _ HQ).
    rewrite fix_trailing_strip_tail. apply strip_tail_id.
    intros t z E ->. now discriminate (Hl t SP E). }
  assert (Hout : fixed2 (u ++ [NL]) = u ++ [NL]).
  { unfold fixed2. rewrite Hfixed. unfold dedup.
    rewrite (strip_id u Hh Hl). unfold str in *. rewrite Hkept.
    now rewrite join_split. }
  unfold vcal_fix. cbv zeta. rewrite Hcan, Hout.
  replace (str_eqb (u ++ [NL]) (u ++ [NL])) with true
    by (symmetry; now apply str_eqb_eq).
  reflexivity.
Qed.

Lemma fix_returns_sound_text_unchanged_witness :
  vcal_fix (lit "BEGIN:VTODO\nDTSTAMP:20200101T000000Z\nCOMPLETED:20200102T120000Z\nDUE:20200103\nEND:VTODO" ++ [NL])
           fresh_process
  = (lit "BEGIN:VTODO\nDTSTAMP:20200101T000000Z\nCOMPLETED:20200102T120000Z\nDUE:20200103\nEND:VTODO" ++ [NL],
     fresh_process).
Proof.
  apply (fix_returns_sound_text_unchanged
           (lit "BEGIN:VTODO\nDTSTAMP:20200101T000000Z\nCOMPLETED:20200102T120000Z\nDUE:20200103\nEND:VTODO")
           fresh_process); vm_compute; reflexivity.
Defined.

(** ** The text returned starts with its first line *)

(** X9.  The text [fix] returns never starts with white space, unless it
    is the single newline that is left of a text with nothing else in
    it: the white space before the first line is stripped, and the first
    line is always kept. *)
Theorem fix_strips_leading_white_space :
  forall (event : str) (p : process),
    fst (vcal_fix event p) = [NL]
    \/ exists c t, fst (vcal_fix event p) = c :: t /\ isspace c = false.
Proof.
  intros event p. rewrite vcal_fix_text. unfold fix_text, fixed2, dedup.
  set (f := fixed (canonical event)).
  destruct (strip f) as [|c s] eqn:Es.
  - left. reflexivity.
  - right. pose proof (strip_head f c s Es) as Hc.
    assert (Hne : c <> NL) by (intros ->; discriminate).
    destruct (split_first c s Hne) as (l & ls & E). rewrite E.
    destruct (py_filter_first (c :: l) ls) as (rest & E1).
    destruct (join_head [NL] c l rest) as (t0 & E2).
    unfold str in *. rewrite E1, E2. exists c, (t0 ++ [NL]). now split.
Qed.

(** ** The fourth substitution in general *)

Lemma dropwhile_stops (f : ascii -> bool) (t : str) (z : ascii) (r : str) :
  f z = false -> exists x, dropwhile f (t ++ z :: r) = x ++ z :: r.
Proof.
  intros Hz. induction t as [|c t (x & IH)].
  - exists []. cbn [app dropwhile]. now rewrite Hz.
  - cbn [app dropwhile]. destruct (f c).
    + now exists x.
    + now exists (c :: t).
Qed.

Lemma strip_tail_spaces (sp e : str) :
  Forall (fun c => Ascii.eqb SP c = true) sp -> e = [] \/ e = [NL] ->
  strip_tail (sp ++ e) = e.
Proof.
  intros Hsp He.
  assert (Hd : dropwhile (Ascii.eqb SP) (sp ++ e) = e).
  { rewrite dropwhile_app_all by exact Hsp. destruct He as [-> | ->]; reflexivity. }
  destruct (sp ++ e) as [|c s] eqn:E.
  - apply app_eq_nil in E. destruct E as [_ ->]. reflexivity.
  - cbn [strip_tail]. rewrite Hd.
    destruct He as [-> | ->]; reflexivity.
Qed.

Lemma strip_tail_closed (a sp e : str) :
  Forall (fun c => Ascii.eqb SP c = true) sp -> e = [] \/ e = [NL] ->
  (forall t z, a = t ++ [z] -> z <> SP /\ (e = [] -> z <> NL)) ->
  strip_tail (a ++ sp ++ e) = a ++ e.
Proof.
  intros Hsp He. induction a as [|c a IH]; intros Ha.
  - cbn [app]. now apply strip_tail_spaces.
  - cbn [app strip_tail].
    replace (at_dollar (dropwhile (Ascii.eqb SP) (c :: a ++ sp ++ e))) with false.
    + f_equal. apply IH. intros t z E. apply (Ha (c :: t) z). now rewrite E.
    + symmetry.
      destruct (exists_last (l := c :: a) ltac:(discriminate)) as (t & z & E).
      destruct (Ha t z E) as [Hz1 Hz2].
      change (c :: a ++ sp ++ e) with ((c :: a) ++ sp ++ e). rewrite E.
      rewrite <- app_assoc. cbn [app].
      destruct (dropwhile_stops (Ascii.eqb SP) t z (sp ++ e)) as (x & ->).
      { destruct (Ascii.eqb_spec SP z); congruence. }
      destruct x as [|x0 [|x1 x]].
      * cbn [app]. destruct (sp ++ e) as [|y ys] eqn:Ey; [|reflexivity].
        apply app_eq_nil in Ey. destruct Ey as [_ Ee].
        cbn [at_dollar]. destruct (Ascii.eqb_spec z NL) as [->|]; [|reflexivity].
        now destruct (Hz2 Ee).
      * reflexivity.
      * reflexivity.
Qed.

Lemma endswith_last (b : ascii) (t : str) (z : ascii) :
  endswith [b] (t ++ [z]) = false -> z <> b.
Proof.
  rewrite endswith_snoc1. intros H ->. rewrite Ascii.eqb_refl in H. discriminate.
Qed.

(** X10.  The fourth substitution in general: of a text that ends with a
    run of spaces, or with a run of spaces and one final newline, the
    run is removed and all the rest stays, the spaces that end the
    earlier lines included. *)
Theorem fix_trailing_removes_final_spaces_only :
  forall (a sp : str) (final_newline : bool),
    forallb (Ascii.eqb SP) sp = true ->
    endswith [SP] a = false ->
    final_newline || negb (endswith [NL] a) = true ->
    fix_trailing (a ++ sp ++ (if final_newline then [NL] else []))
    = a ++ (if final_newline then [NL] else []).
Proof.
  intros a sp nl Hsp Ha Hnl. rewrite fix_trailing_strip_tail.
  apply strip_tail_closed.
  - rewrite forallb_forall in Hsp. apply Forall_forall. exact Hsp.
  - destruct nl; auto.
  - intros t z ->. split.
    + now apply (endswith_last SP t z).
    + intros He. destruct nl; [discriminate|]. cbn [orb] in Hnl.
      apply (endswith_last NL t z). now apply negb_true_iff.
Qed.

Lemma fix_trailing_removes_final_spaces_only_witness :
  fix_trailing (lit "SUMMARY:a  \nLOCATION:b" ++ lit "   " ++ [NL])
  = lit "SUMMARY:a  \nLOCATION:b" ++ [NL].
Proof.
  apply (fix_trailing_removes_final_spaces_only
           (lit "SUMMARY:a  \nLOCATION:b") (lit "   ") true);
    vm_compute; reflexivity.
Defined.

(** ** The number of lines of the text returned *)

Lemma endswith_app_nonempty (b : ascii) (a x : str) :
  x <> [] -> endswith [b] (a ++ x) = endswith [b] x.
Proof.
  intros Hx. destruct (exists_last Hx) as (t & z & ->).
  now rewrite app_assoc, !endswith_snoc1.
Qed.

Lemma lines_of_app (a x : str) :
  x <> [] -> lines_of (a ++ x) = count_nl a + lines_of x.
Proof.
  intros Hx. unfold lines_of.
  rewrite count_nl_app, endswith_app_nonempty by exact Hx. lia.
Qed.

Lemma lines_of_app_le (a x : str) :
  lines_of (a ++ x) <= count_nl a + lines_of x.
Proof.
  destruct x as [|c x].
  - rewrite app_nil_r. change (lines_of []) with 1. unfold lines_of.
    destruct (endswith [NL] a); lia.
  - rewrite lines_of_app by discriminate. apply le_n.
Qed.

Lemma lines_of_pos (x : str) : 1 <= lines_of x.
Proof.
  unfold lines_of. destruct (endswith [NL] x) eqn:E; [|lia].
  apply endswith_NL_inv in E. destruct E as (e' & ->).
  rewrite count_nl_app. cbn. lia.
Qed.

Lemma lines_of_plain (t : str) (z : ascii) :
  z <> NL -> lines_of (t ++ [z]) = count_nl (t ++ [z]) + 1.
Proof.
  intros Hz. unfold lines_of. rewrite endswith_snoc1.
  destruct (Ascii.eqb_spec NL z); [congruence|]. reflexivity.
Qed.

Section ScanLines.

Variable m : matcher.
Hypothesis m_nil : forall prev, m prev [] = None.
Hypothesis m_shape :
  forall prev s n r, m prev s = Some (n, r) ->
    exists w y, s = w ++ y /\ n = List.length w /\ w <> []
                /\ count_nl r <= count_nl w /\ lines_of r <= lines_of w.

(** A substitution whose replacements have no more lines than the texts
    they replace gives a text of no more lines. *)
Lemma scan_lines_of (n : nat) :
  forall s prev, List.length s <= n -> lines_of (scan m prev s) <= lines_of s.
Proof.
  induction n as [|n IH]; intros s prev Hlen.
  - destruct s; [|simpl in Hlen; lia]. unfold scan. cbn [sub_scan spent].
    now rewrite m_nil.
  - destruct s as [|c s].
    { unfold scan. cbn [sub_scan spent]. now rewrite m_nil. }
    destruct (m prev (c :: s)) as [[k r]|] eqn:Hm.
    + destruct (m_shape _ _ _ _ Hm) as (w & y & E & -> & Hw & Hr & Hl).
      rewrite E in *. unfold scan. rewrite (scan_match _ _ _ _ _ Hw Hm).
      change (sub_scan m None 0 (prev_after prev w) y)
        with (scan m (prev_after prev w) y).
      destruct y as [|y0 y].
      * unfold scan at 1. cbn [sub_scan spent]. rewrite m_nil.
        now rewrite !app_nil_r.
      * rewrite (lines_of_app w) by discriminate.
        pose proof (lines_of_app_le r (scan m (prev_after prev w) (y0 :: y))).
        assert (lines_of (scan m (prev_after prev w) (y0 :: y))
                <= lines_of (y0 :: y)).
        { apply IH. rewrite length_app in Hlen. destruct w; [congruence|].
          simpl in Hlen. simpl. lia. }
        lia.
    + unfold scan. rewrite (scan_copy _ _ _ _ Hm).
      change (sub_scan m None 0 (Some c) s) with (scan m (Some c) s).
      destruct s as [|c' s].
      * unfold scan. cbn [sub_scan spent]. now rewrite m_nil.
      * change (c :: scan m (Some c) (c' :: s))
          with ([c] ++ scan m (Some c) (c' :: s)).
        change (c :: c' :: s) with ([c] ++ c' :: s).
        rewrite (lines_of_app [c] (c' :: s)) by discriminate.
        pose proof (lines_of_app_le [c] (scan m (Some c) (c' :: s))).
        assert (lines_of (scan m (Some c) (c' :: s)) <= lines_of (c' :: s)).
        { apply IH. simpl in Hlen. simpl. lia. }
        lia.
Qed.

End ScanLines.

Lemma count_nl_digits (ds : str) :
  Forall (fun d => isdigit d = true) ds -> count_nl ds = 0.
Proof.
  apply (count_nl_none (fun d => isdigit d = true)). discriminate.
Qed.

Lemma fix_completed_lines_of (s : str) :
  lines_of (fix_completed s) <= lines_of s.
Proof.
  apply (scan_lines_of m_completed m_completed_nil) with (n := List.length s);
    [|apply le_n].
  intros prev t n r H.
  destruct (m_completed_inv _ _ _ _ H) as (ds & c & y & Hne & Hds & Hc & -> & -> & ->).
  exists (COMPLETED ++ ds ++ [c]), y.
  assert (Hr : count_nl (COMPLETED ++ ds ++ T120000Z) = 0).
  { rewrite !count_nl_app, (count_nl_digits ds Hds). reflexivity. }
  repeat split.
  - now rewrite <- !app_assoc.
  - discriminate.
  - rewrite Hr. lia.
  - replace (COMPLETED ++ ds ++ T120000Z)
      with ((COMPLETED ++ ds ++ removelast T120000Z) ++ [last T120000Z NL])
      by (now rewrite <- !app_assoc).
    rewrite lines_of_plain by discriminate.
    replace ((COMPLETED ++ ds ++ removelast T120000Z) ++ [last T120000Z NL])
      with (COMPLETED ++ ds ++ T120000Z) by (now rewrite <- !app_assoc).
    rewrite Hr. apply lines_of_pos.
Qed.

Lemma fix_created_lines_of (s : str) :
  lines_of (fix_created s) <= lines_of s.
Proof.
  apply (scan_lines_of m_created m_created_nil) with (n := List.length s);
    [|apply le_n].
  intros prev t n r H. destruct (m_created_inv _ _ _ _ H) as (y & -> & -> & ->).
  exists CREATED_OLD, y. repeat split; [discriminate | apply le_n | apply le_n].
Qed.

Lemma fix_quotes_lines_of (s : str) :
  lines_of (fix_quotes s) <= lines_of s.
Proof.
  apply (scan_lines_of m_quotes (fun _ => eq_refl)) with (n := List.length s);
    [|apply le_n].
  intros prev t n r H.
  destruct (m_quotes_inv _ _ _ _ H) as (bs & rest & Hne & Hbs & -> & -> & ->).
  exists (bs ++ [SQUOTE; DQUOTE]), rest. repeat split.
  - now rewrite <- app_assoc.
  - destruct bs; discriminate.
  - cbn. lia.
  - apply lines_of_pos.
Qed.

Lemma count_nl_spaces (sp : str) :
  Forall (fun c => Ascii.eqb SP c = true) sp -> count_nl sp = 0.
Proof.
  apply (count_nl_none (fun c => Ascii.eqb SP c = true)). discriminate.
Qed.

Lemma fix_trailing_lines_of (s : str) :
  lines_of (fix_trailing s) <= lines_of s.
Proof.
  rewrite fix_trailing_strip_tail.
  destruct (strip_tail_shape s) as (a & sp & e & -> & -> & Hsp & He).
  destruct He as [-> | ->].
  - rewrite !app_nil_r. destruct sp as [|x sp]; [now rewrite app_nil_r|].
    rewrite lines_of_app by discriminate.
    pose proof (lines_of_app_le a []) as H. rewrite app_nil_r in H.
    pose proof (lines_of_pos (x :: sp)). unfold lines_of in H at 2. cbn in H. lia.
  - rewrite app_assoc, !lines_of_app by discriminate.
    rewrite count_nl_app. lia.
Qed.

Lemma count_nl_unlines (ls : list str) :
  Forall (fun l => ~ In NL l) ls -> count_nl (unlines ls) = List.length ls.
Proof.
  induction 1 as [|l ls Hl _ IH]; [reflexivity|].
  cbn [unlines flat_map]. fold (unlines ls).
  rewrite !count_nl_app, IH. unfold count_nl at 1.
  rewrite (proj1 (count_occ_not_In ascii_dec l NL) Hl). cbn. lia.
Qed.

Lemma count_nl_split (s : str) :
  List.length (split NL s) = count_nl s + 1.
Proof.
  pose proof (count_nl_unlines (split NL s) (split_no_newline s)) as H.
  rewrite unlines_split, count_nl_app in H.
  change (count_nl [NL]) with 1 in H. lia.
Qed.

Lemma strip_lines_of (f : str) : count_nl (strip f) + 1 <= lines_of f.
Proof.
  destruct (strip_shape f) as (p & q & E & Hp & Hq).
  destruct (strip_last f) as [H | (t & z & H & Hz)].
  - rewrite H. apply lines_of_pos.
  - assert (Hnl : z <> NL) by (intros ->; discriminate).
    rewrite E at 2. rewrite app_assoc. destruct q as [|q0 q].
    + rewrite app_nil_r, H, app_assoc, lines_of_plain by exact Hnl.
      rewrite !count_nl_app. lia.
    + rewrite lines_of_app by discriminate. rewrite !count_nl_app.
      pose proof (lines_of_pos (q0 :: q)). lia.
Qed.

(** X11.  [fix] never adds a line: the text it returns has at most as
    many newlines as the canonical form of its input. *)
Theorem fix_adds_no_line :
  forall (event : str) (p : process),
    count_nl (fst (vcal_fix event p)) <= count_nl (canonical event).
Proof.
  intros event p. rewrite vcal_fix_text. unfold fix_text, fixed2, dedup.
  set (f := fixed (canonical event)).
  pose proof (kept_nonempty (strip f)) as Hne.
  pose proof (py_filter_incl new_filter (split NL (strip f))) as Hincl.
  rewrite (join_unlines _ Hne), count_nl_unlines.
  - transitivity (List.length (split NL (strip f))).
    + clear. generalize new_filter. induction (split NL (strip f)) as [|l ls IH];
        intros self; [apply le_n|].
      cbn [py_filter]. destruct (call self l) as [[|] self']; simpl.
      * apply le_n_S, IH.
      * apply le_S, IH.
    + rewrite count_nl_split. transitivity (lines_of f); [apply strip_lines_of|].
      transitivity (lines_of (canonical event)).
      * subst f. unfold fixed.
        etransitivity; [apply fix_trailing_lines_of|].
        etransitivity; [apply fix_quotes_lines_of|].
        etransitivity; [apply fix_created_lines_of|].
        apply fix_completed_lines_of.
      * destruct (canonical_ends event) as (e' & ->). unfold lines_of.
        rewrite endswith_snoc1. cbn. lia.
  - pose proof (split_no_newline (strip f)) as Hall.
    rewrite Forall_forall in *. intros l Hin. apply Hall, Hincl, Hin.
Qed.

(** ** A text of white space *)

Lemma replace2_white (s : str) :
  Forall (fun c => isspace c = true) s ->
  Forall (fun c => isspace c = true) (replace2 CR NL NL s).
Proof.
  assert (G : forall n s, List.length s <= n ->
            Forall (fun c => isspace c = true) s ->
            Forall (fun c => isspace c = true) (replace2 CR NL NL s)).
  { induction n as [|n IH]; intros t Hlen H.
    - destruct t; [exact H | simpl in Hlen; lia].
    - destruct t as [|c1 [|c2 t]]; [exact H | exact H |].
      change (replace2 CR NL NL (c1 :: c2 :: t))
        with (if Ascii.eqb c1 CR && Ascii.eqb c2 NL
              then NL :: replace2 CR NL NL t
              else c1 :: replace2 CR NL NL (c2 :: t)).
      inversion H as [|? ? H1 H']; subst.
      inversion H' as [|? ? H2 H'']; subst. simpl in Hlen.
      destruct (Ascii.eqb c1 CR && Ascii.eqb c2 NL).
      + constructor; [reflexivity|]. apply IH; [lia | exact H''].
      + constructor; [exact H1|]. apply IH; [simpl; lia | exact H']. }
  apply (G (List.length s)). apply le_n.
Qed.

Lemma white_clean (m : matcher) (s : str) :
  (forall prev, m prev [] = None) ->
  (forall prev c t, isspace c = true -> m prev (c :: t) = None) ->
  Forall (fun c => isspace c = true) s -> clean m s.
Proof.
  intros Hnil Hhead. induction 1 as [|c s Hc _ IH].
  - now apply clean_nil.
  - apply clean_cons; [|exact IH]. intros prev. now apply Hhead.
Qed.

Lemma dropwhile_all (f : ascii -> bool) (s : str) :
  Forall (fun c => f c = true) s -> dropwhile f s = [].
Proof.
  intros H. rewrite <- (app_nil_r s). now rewrite dropwhile_app_all.
Qed.

Lemma strip_white (s : str) :
  Forall (fun c => isspace c = true) s -> strip s = [].
Proof.
  intros H. unfold strip, rstrip. rewrite dropwhile_all; [reflexivity|].
  apply Forall_rev. exact H.
Qed.

(** X12.  Of a text of white space only (the empty text is one) [fix]
    returns a single newline. *)
Theorem fix_of_white_space_is_a_newline :
  forall (event : str) (p : process),
    forallb isspace event = true ->
    fst (vcal_fix event p) = [NL].
Proof.
  intros event p H. rewrite vcal_fix_text. unfold fix_text, fixed2.
  assert (Hw : Forall (fun c => isspace c = true) (canonical event)).
  { assert (Hn : Forall (fun c => isspace c = true) (to_normal_str event)).
    { apply replace2_white. apply Forall_forall.
      rewrite forallb_forall in H. exact H. }
    unfold canonical. destruct (endswith [NL] (to_normal_str event)); [exact Hn|].
    apply Forall_app. split; [exact Hn|]. now constructor. }
  assert (Hfixed : Forall (fun c => isspace c = true) (fixed (canonical event))).
  { unfold fixed.
    change (fix_completed (canonical event))
      with (scan m_completed None (canonical event)).
    rewrite scan_clean.
    2:{ apply white_clean; [apply m_completed_nil | | exact Hw].
        intros prev c t Hc. apply m_completed_head. intros ->. discriminate. }
    change (fix_created (canonical event))
      with (scan m_created None (canonical event)).
    rewrite scan_clean.
    2:{ apply white_clean; [apply m_created_nil | | exact Hw].
        intros prev c t Hc. apply m_created_head. intros ->. discriminate. }
    change (fix_quotes (canonical event))
      with (scan m_quotes None (canonical event)).
    rewrite scan_clean.
    2:{ apply white_clean; [reflexivity | | exact Hw].
        intros prev c t Hc. apply m_quotes_head. intros ->. discriminate. }
    rewrite fix_trailing_strip_tail.
    destruct (strip_tail_shape (canonical event)) as (a & sp & e & E & -> & _ & _).
    rewrite E in Hw. apply Forall_app in Hw. destruct Hw as [Ha Hw].
    apply Forall_app in Hw. destruct Hw as [_ He].
    apply Forall_app. now split. }
  unfold dedup. rewrite (strip_white _ Hfixed). reflexivity.
Qed.

Lemma fix_of_white_space_is_a_newline_witness :
  fst (vcal_fix (lit " \r\n\t \n") fresh_process) = [NL].
Proof.
  apply (fix_of_white_space_is_a_newline (lit " \r\n\t \n") fresh_process).
  vm_compute. reflexivity.
Defined.

(** ** The groups in the text returned *)

Lemma split_unlines (ls : list str) :
  Forall (fun l => ~ In NL l) ls -> split NL (unlines ls) = ls ++ [[]].
Proof.
  induction 1 as [|l ls Hl _ IH]; [reflexivity|].
  cbn [unlines flat_map]. fold (unlines ls). rewrite <- app_assoc. cbn [app].
  rewrite split_line by exact Hl. now rewrite IH.
Qed.

Lemma name_not_empty (l : str) : is_ender l || is_stamp l = true -> l <> [].
Proof. intros H ->. discriminate. Qed.

(** X26.  What the docstring of [fix] promises under 3) and 5), on the
    lines of the text returned: two DTSTAMP lines have a [BEGIN:V] line
    between them, and so have two lines of the group DURATION, DTEND,
    DUE. *)
Theorem fix_leaves_one_of_a_group_per_block :
  forall (event : str) (p : process) (a : list str) (l1 : str) (b : list str)
         (l2 : str) (c : list str),
    split NL (fst (vcal_fix event p)) = a ++ l1 :: b ++ l2 :: c ->
    (is_stamp l1 && is_stamp l2) || (is_ender l1 && is_ender l2) = true ->
    existsb is_begin b = true.
Proof.
  intros event p a l1 b l2 c E Hg. rewrite vcal_fix_text in E.
  unfold fix_text, fixed2, dedup in E.
  set (f := fixed (canonical event)) in *.
  pose proof (kept_nonempty (strip f)) as Hne.
  pose proof (py_filter_incl new_filter (split NL (strip f))) as Hincl.
  rewrite (join_unlines _ Hne), split_unlines in E.
  2:{ pose proof (split_no_newline (strip f)) as Hall.
      rewrite Forall_forall in *. intros l Hin. apply Hall, Hincl, Hin. }
  assert (H2 : l2 <> []).
  { apply name_not_empty. apply orb_true_iff in Hg.
    destruct Hg as [Hg | Hg]; apply andb_prop in Hg; destruct Hg as [_ ->];
      [apply orb_true_r | reflexivity]. }
  destruct c as [|x c] using rev_ind.
  - exfalso.
    replace (a ++ l1 :: b ++ [l2]) with ((a ++ l1 :: b) ++ [l2]) in E
      by (now rewrite <- app_assoc).
    apply app_inj_tail in E. destruct E as [_ E]. congruence.
  - clear IHc.
    replace (a ++ l1 :: b ++ l2 :: c ++ [x])
      with ((a ++ l1 :: b ++ l2 :: c) ++ [x]) in E
      by (rewrite <- !app_assoc; cbn [app]; rewrite <- !app_assoc; reflexivity).
    apply app_inj_tail in E. destruct E as [E _].
    exact (py_filter_one_per_block _ a l1 b l2 c E Hg).
Qed.

Lemma fix_leaves_one_of_a_group_per_block_witness :
  existsb is_begin [lit "END:VEVENT"; lit "BEGIN:VTODO"] = true.
Proof.
  apply (fix_leaves_one_of_a_group_per_block
           (lit "BEGIN:VEVENT\nDTSTAMP:1\nDTSTAMP:2\nEND:VEVENT\nBEGIN:VTODO\nDTSTAMP:3\nDTSTAMP:4\nEND:VTODO\n")
           fresh_process
           [lit "BEGIN:VEVENT"] (lit "DTSTAMP:1")
           [lit "END:VEVENT"; lit "BEGIN:VTODO"] (lit "DTSTAMP:3")
           [lit "END:VTODO"; []]).
  - vm_compute. reflexivity.
  - vm_compute. reflexivity.
Defined.

(** ** More about [create_ical] *)

(** The merge reads the local zone of the system and nothing else of
    the world around it. *)
Lemma merge_props_env (env env' : environment) (c : Component) (props : dict) :
  local_utcoffset env' = local_utcoffset env ->
  merge_props env' c props = merge_props env c props.
Proof.
  intros H. revert c. induction props as [|[prop v] rest IH]; intros c;
    [reflexivity|].
  cbn [merge_props].
  assert (E : merge_one env' c prop v = merge_one env c prop v).
  { unfold merge_one, with_timezone, astimezone_utc. now rewrite H. }
  rewrite E. destruct (merge_one env c prop v); [|reflexivity].
  cbn [bind]. apply IH.
Qed.

Lemma serialize_env (env env' : environment) (lib : icalendar)
    (inst comp : Component) (props : dict) :
  local_utcoffset env' = local_utcoffset env ->
  serialize env' lib inst comp props = serialize env lib inst comp props.
Proof. intros H. unfold serialize. now rewrite (merge_props_env env env'). Qed.

Lemma search_nonempty (p : str) (f : str) :
  p <> [] -> search_line_start p f = true -> f <> [].
Proof.
  intros Hp H ->. destruct p; [congruence|]. discriminate.
Qed.

Lemma create_ical_augment (env : environment) (lib : icalendar) (frag : str)
    (objtype : option str) (language : str) (props : dict) :
  search_line_start (lit "BEGIN:V") (to_normal_str frag) = true ->
  create_ical env lib (Some frag) objtype language props
  = ('(my_instance, component) <- augment lib (to_normal_str frag) ;;
     serialize env lib my_instance component props).
Proof.
  intros Hbegin.
  assert (Hne : to_normal_str frag <> []).
  { apply (search_nonempty (lit "BEGIN:V")); [discriminate | exact Hbegin]. }
  unfold create_ical. cbn [to_normal_str_opt option_map].
  rewrite constructs_iff, Hbegin.
  destruct (to_normal_str frag) as [|c f] eqn:E; [congruence|].
  cbn [negb]. destruct (augment lib (c :: f)) as [[inst comp]|e]; [|reflexivity].
  cbn [bind]. destruct (serialize env lib inst comp props); reflexivity.
Qed.

(** X13.  When the fragment has a line that starts with [BEGIN:V], the
    arguments [objtype] and [language], the clock and the generator of
    identifiers have no part in the result: nothing is built, and no
    DTSTAMP, UID or STATUS is added. *)
Theorem create_ical_augment_ignores_defaults :
  forall (env : environment) (lib : icalendar) (frag : str)
         (objtype objtype' : option str) (language language' : str)
         (props : dict) (now' : datetime) (uuid' : str),
    search_line_start (lit "BEGIN:V") (to_normal_str frag) = true ->
    create_ical env lib (Some frag) objtype language props
    = create_ical {| now_utc := now'; uuid1 := uuid';
                     local_utcoffset := local_utcoffset env |}
        lib (Some frag) objtype' language' props.
Proof.
  intros env lib frag objtype objtype' language language' props now' uuid' H.
  rewrite !create_ical_augment by exact H.
  destruct (augment lib (to_normal_str frag)) as [[inst comp]|e]; [|reflexivity].
  cbn [bind]. symmetry. now apply serialize_env.
Qed.

Lemma create_ical_augment_ignores_defaults_witness :
  create_ical env_plus_one content_lines
    (Some (lit "BEGIN:VTODO\nSUMMARY:x\nEND:VTODO")) None (lit "en_DK")
    [(lit "priority", PStr (lit "1"))]
  = create_ical {| now_utc := mkDatetime 1999 12 31 23 59 59 (Some 0%Z);
                   uuid1 := lit "other";
                   local_utcoffset := local_utcoffset env_plus_one |}
      content_lines
      (Some (lit "BEGIN:VTODO\nSUMMARY:x\nEND:VTODO")) (Some (lit "VJOURNAL"))
      (lit "nb_NO") [(lit "priority", PStr (lit "1"))].
Proof.
  apply (create_ical_augment_ignores_defaults env_plus_one content_lines
           (lit "BEGIN:VTODO\nSUMMARY:x\nEND:VTODO")).
  vm_compute. reflexivity.
Defined.

(** X14.  When a calendar is to be built and the factory of components
    does not know the [objtype] (VEVENT when none is given),
    [create_ical] raises KeyError, whatever the properties are. *)
Theorem create_ical_unknown_objtype_raises :
  forall (env : environment) (lib : icalendar) (ical_fragment : option str)
         (objtype : option str) (language : str) (props : dict),
    constructs (to_normal_str_opt ical_fragment) = true ->
    component_factory lib
      (match objtype with Some t => t | None => lit "VEVENT" end) = None ->
    create_ical env lib ical_fragment objtype language props = Raises KeyError.
Proof.
  intros env lib frag objtype language props Hc Hf.
  unfold create_ical. rewrite Hc. unfold construct. rewrite Hf. reflexivity.
Qed.

Lemma create_ical_unknown_objtype_raises_witness :
  create_ical env_plus_one content_lines (Some (lit "SUMMARY:x"))
    (Some (lit "VNOTE")) (lit "en_DK")
    [(lit "child", PDatetime (mkDatetime 2020 1 1 12 0 0 None))]
  = Raises KeyError.
Proof.
  apply create_ical_unknown_objtype_raises; vm_compute; reflexivity.
Defined.

Lemma add_relations (reltype : str) (ids : list str) (n : str)
    (ps : list property) (subs : list Component) :
  fold_left (fun c value => add c (lit "related-to") (PStr value)
                                [(lit "reltype", reltype)]) ids (Comp n ps subs)
  = Comp n (ps ++ relations reltype ids) subs.
Proof.
  revert ps. induction ids as [|v ids IH]; intros ps.
  - cbn. now rewrite app_nil_r.
  - cbn [fold_left add relations map]. rewrite IH. unfold relations.
    now rewrite <- app_assoc.
Qed.

(** X16.  The properties [child] and [parent] take a sequence of
    identifiers; each identifier is added as one RELATED-TO property
    with the parameter RELTYPE=CHILD or RELTYPE=PARENT, in order, after
    the properties the component has. *)
Theorem merge_one_relations :
  forall (env : environment) (n : str) (ps : list property)
         (subs : list Component) (ids : list str),
    merge_one env (Comp n ps subs) (lit "child") (PList ids)
    = Returns (Comp n (ps ++ relations (lit "CHILD") ids) subs)
    /\ merge_one env (Comp n ps subs) (lit "parent") (PList ids)
       = Returns (Comp n (ps ++ relations (lit "PARENT") ids) subs).
Proof.
  intros env n ps subs ids. split.
  - unfold merge_one. cbn [with_timezone].
    change (str_eqb (lit "child") (lit "child")) with true. cbn [orb iterate bind].
    change (upper (lit "child")) with (lit "CHILD"). now rewrite add_relations.
  - unfold merge_one. cbn [with_timezone].
    change (str_eqb (lit "parent") (lit "parent")) with true.
    rewrite orb_true_r. cbn [iterate bind].
    change (upper (lit "parent")) with (lit "PARENT"). now rewrite add_relations.
Qed.

(** ** Properties given as [None] *)

Lemma merge_props_given (env : environment) (c : Component) (props : dict) :
  merge_props env c (given props) = merge_props env c props.
Proof.
  revert c. induction props as [|[prop v] rest IH]; intros c; [reflexivity|].
  unfold given in *. cbn [filter snd].
  destruct v; cbn [merge_props]; try (destruct (merge_one env c prop _);
    [cbn [bind]; apply IH | reflexivity]).
  cbn [merge_one bind]. apply IH.
Qed.

Lemma in_keys (props : dict) (k : str) (v : pyval) :
  In (k, v) props -> In k (map fst props).
Proof. intros H. apply (in_map fst) in H. exact H. Qed.

Lemma get_not_in (props : dict) (key : str) :
  ~ In key (map fst props) -> get props key = PNone.
Proof.
  induction props as [|[k v] rest IH]; intros H; [reflexivity|].
  cbn [get]. destruct (str_eqb k key) eqn:E.
  - apply str_eqb_eq in E. subst k. exfalso. apply H. now left.
  - apply IH. intros Hin. apply H. now right.
Qed.

Lemma given_keys (props : dict) (key : str) :
  In key (map fst (given props)) -> In key (map fst props).
Proof.
  intros H. apply in_map_iff in H. destruct H as ([k v] & <- & H).
  apply filter_In in H. destruct H as [H _]. now apply (in_keys props k v).
Qed.

Lemma get_given (props : dict) (key : str) :
  NoDup (map fst props) -> get (given props) key = get props key.
Proof.
  induction props as [|[k v] rest IH]; intros H; [reflexivity|].
  cbn [map fst] in H. inversion H as [|? ? Hk Hrest]; subst.
  unfold given in *. cbn [filter snd get].
  destruct (str_eqb k key) eqn:E.
  - apply str_eqb_eq in E. subst k. destruct v; cbn [get];
      try (replace (str_eqb key key) with true
             by (symmetry; now apply str_eqb_eq); reflexivity).
    apply get_not_in. intros Hin. apply Hk. now apply given_keys.
  - destruct v; cbn [get]; rewrite ?E; now apply IH.
Qed.

Lemma given_set (props : dict) (key : str) (s : str) :
  ~ In (key, PNone) props ->
  given (set props key (PStr s)) = set (given props) key (PStr s).
Proof.
  induction props as [|[k v] rest IH]; intros H; [reflexivity|].
  assert (Hrest : ~ In (key, PNone) rest) by (intros Hin; apply H; now right).
  unfold given in *. cbn [set filter snd].
  destruct (str_eqb k key) eqn:E.
  - apply str_eqb_eq in E. subst k.
    destruct v; cbn [filter snd set];
      try (replace (str_eqb key key) with true
             by (symmetry; now apply str_eqb_eq); reflexivity).
    exfalso. apply H. now left.
  - destruct v; cbn [filter snd set]; rewrite ?E; f_equal; now apply IH.
Qed.

(** X15.  Properties given as [None] are left out: calling
    [create_ical] with them is calling it without them.  The keywords
    are distinct, as those of a call are; [status=None] is set apart,
    since the default status of a task takes its place among the
    properties. *)
Theorem create_ical_skips_none :
  forall (env : environment) (lib : icalendar) (ical_fragment : option str)
         (objtype : option str) (language : str) (props : dict),
    NoDup (map fst props) ->
    ~ In (lit "status", PNone) props ->
    create_ical env lib ical_fragment objtype language (given props)
    = create_ical env lib ical_fragment objtype language props.
Proof.
  intros env lib frag objtype language props Hu Hs.
  assert (Hser : forall inst comp p q, merge_props env comp p = merge_props env comp q ->
             serialize env lib inst comp p = serialize env lib inst comp q).
  { intros inst comp p q E. unfold serialize. now rewrite E. }
  unfold create_ical.
  destruct (constructs (to_normal_str_opt frag)).
  - unfold construct.
    destruct (component_factory lib match objtype with
                                    | Some t => t
                                    | None => lit "VEVENT"
                                    end) as [c0|]; [|reflexivity].
    rewrite !(get_given props) by exact Hu. cbn [bind].
    match goal with
    | |- context [serialize env lib ?i ?c (if ?b then _ else _)] =>
        rewrite (Hser i c (if b then set (given props) (lit "status")
                                     (PStr (lit "NEEDS-ACTION"))
                           else given props)
                          (if b then set props (lit "status")
                                     (PStr (lit "NEEDS-ACTION"))
                           else props)); [reflexivity|];
        destruct b
    end.
    + rewrite <- given_set by exact Hs. apply merge_props_given.
    + apply merge_props_given.
  - destruct (augment lib _) as [[inst comp]|e]; [|reflexivity].
    cbn [bind]. rewrite (Hser inst comp (given props) props); [reflexivity|].
    apply merge_props_given.
Qed.

Lemma create_ical_skips_none_witness :
  create_ical env_plus_one content_lines None (Some (lit "VTODO")) (lit "en_DK")
    (given [(lit "summary", PNone); (lit "priority", PStr (lit "1"));
            (lit "uid", PNone)])
  = create_ical env_plus_one content_lines None (Some (lit "VTODO")) (lit "en_DK")
      [(lit "summary", PNone); (lit "priority", PStr (lit "1"));
       (lit "uid", PNone)].
Proof.
  apply (create_ical_skips_none env_plus_one content_lines None
           (Some (lit "VTODO")) (lit "en_DK")
           [(lit "summary", PNone); (lit "priority", PStr (lit "1"));
            (lit "uid", PNone)]).
  - vm_compute. repeat constructor; intros H;
      repeat (destruct H as [H | H]; [discriminate|]); exact H.
  - vm_compute. intros H.
    repeat (destruct H as [H | H]; [discriminate|]). exact H.
Defined.


(** What one property adds to a component comes after what the
    component holds. *)
Lemma merge_one_appends (env : environment) (n : str) (ps : list property)
    (subs : list Component) (prop : str) (v : pyval) (c' : Component) :
  merge_one env (Comp n ps subs) prop v = Returns c' ->
  exists added, c' = Comp n (ps ++ added) subs.
Proof.
  unfold merge_one. intros H.
  assert (G : forall w,
             (if str_eqb prop (lit "child") || str_eqb prop (lit "parent")
              then values <- iterate w ;;
                   Returns (fold_left
                              (fun c value =>
                                 add c (lit "related-to") (PStr value)
                                     [(lit "reltype", upper prop)])
                              values (Comp n ps subs))
              else Returns (add (Comp n ps subs) prop w [])) = Returns c' ->
             exists added, c' = Comp n (ps ++ added) subs).
  { intros w Hw.
    destruct (str_eqb prop (lit "child") || str_eqb prop (lit "parent")).
    - destruct (iterate w) as [values|e]; [|discriminate]. cbn [bind] in Hw.
      rewrite add_relations in Hw. injection Hw as <-. now eexists.
    - injection Hw as <-. cbn [add]. now eexists. }
  destruct v; try (now apply G in H).
  injection H as <-. exists []. now rewrite app_nil_r.
Qed.

Lemma merge_props_appends (env : environment) (props : dict) :
  forall (n : str) (ps : list property) (subs : list Component) (c' : Component),
    merge_props env (Comp n ps subs) props = Returns c' ->
    exists added, c' = Comp n (ps ++ added) subs.
Proof.
  induction props as [|[prop v] rest IH]; intros n ps subs c' H.
  - injection H as <-. exists []. now rewrite app_nil_r.
  - cbn [merge_props] in H.
    destruct (merge_one env (Comp n ps subs) prop v) as [c1|e] eqn:E;
      [|discriminate].
    cbn [bind] in H. destruct (merge_one_appends _ _ _ _ _ _ _ E) as (a1 & ->).
    destruct (IH _ _ _ _ H) as (a2 & ->). exists (a1 ++ a2).
    now rewrite <- app_assoc.
Qed.

(** X18.  Merging the properties only adds to the component: its name,
    the properties it has, in their order, and the components under it
    stay; a property of a name that is there already is added as a
    second one. *)
Theorem merge_props_only_appends :
  forall (env : environment) (props : dict) (n : str) (ps : list property)
         (subs : list Component) (c' : Component),
    merge_props env (Comp n ps subs) props = Returns c' ->
    exists added, c' = Comp n (ps ++ added) subs.
Proof. intros env props. apply merge_props_appends. Qed.

Lemma merge_props_only_appends_witness :
  exists added,
    Comp (lit "VEVENT")
      [mkProperty (lit "summary") (PStr (lit "old")) [];
       mkProperty (lit "summary") (PStr (lit "new")) []] []
    = Comp (lit "VEVENT")
        ([mkProperty (lit "summary") (PStr (lit "old")) []] ++ added) [].
Proof.
  apply (merge_props_only_appends env_plus_one
           [(lit "summary", PStr (lit "new"))] (lit "VEVENT")
           [mkProperty (lit "summary") (PStr (lit "old")) []] []).
  vm_compute. reflexivity.
Defined.

(** ** The choice between building and parsing *)

Lemma startswith_nl (p s : str) :
  ~ In NL p -> startswith p (NL :: s) = startswith p [].
Proof.
  intros Hp. destruct p as [|a p]; [reflexivity|]. cbn [startswith].
  destruct (Ascii.eqb_spec a NL) as [->|]; [|reflexivity].
  exfalso. apply Hp. now left.
Qed.

Lemma startswith_first_line (p s : str) :
  ~ In NL p -> startswith p s = startswith p (hd [] (split NL s)).
Proof.
  revert p. induction s as [|c s IH]; intros p Hp; [reflexivity|].
  cbn [split]. destruct (Ascii.eqb_spec c NL) as [->|Hc].
  - cbn [hd]. now apply startswith_nl.
  - pose proof (split_nonempty NL s) as Hne.
    destruct (split NL s) as [|l ls] eqn:E; [congruence|]. cbn [hd] in *.
    destruct p as [|a p]; [reflexivity|]. cbn [startswith].
    rewrite (IH p); [reflexivity|]. intros Hin. apply Hp. now right.
Qed.

Lemma search_from_lines (p s : str) (prev : option ascii) :
  ~ In NL p ->
  search_from p prev s
  = (at_caret prev && startswith p (hd [] (split NL s)))
    || existsb (startswith p) (tl (split NL s)).
Proof.
  intros Hp. revert prev. induction s as [|c s IH]; intros prev.
  - cbn. now rewrite orb_false_r.
  - cbn [search_from]. rewrite IH.
    rewrite (startswith_first_line p (c :: s) Hp).
    cbn [split at_caret]. destruct (Ascii.eqb_spec c NL) as [->|Hc].
    + cbn [hd tl andb]. pose proof (split_nonempty NL s) as Hne.
      destruct (split NL s) as [|l ls]; [congruence|]. reflexivity.
    + pose proof (split_nonempty NL s) as Hne.
      destruct (split NL s) as [|l ls]; [congruence|]. cbn [hd tl andb].
      now rewrite orb_false_l.
Qed.

(** X19.  Which branch [create_ical] takes, in terms of lines: the
    calendar is built exactly when no line of the fragment starts with
    [BEGIN:V] (the empty fragment has one empty line). *)
Theorem constructs_unless_a_line_begins_a_component :
  forall (f : str),
    constructs (Some f) = negb (existsb is_begin (split NL f)).
Proof.
  intros f. rewrite constructs_iff. unfold search_line_start.
  rewrite search_from_lines.
  - cbn [at_caret andb]. pose proof (split_nonempty NL f) as Hne.
    destruct f as [|c f]; [reflexivity|].
    destruct (split NL (c :: f)) as [|l ls]; [congruence|]. reflexivity.
  - vm_compute. intros H. repeat (destruct H as [H | H]; [discriminate|]).
    exact H.
Qed.

(** X20.  When a [uid] is given, or the fragment has a line after its
    first one that starts with [UID:], the generator of identifiers has
    no part in the result. *)
Theorem create_ical_given_uid_draws_no_uuid :
  forall (env : environment) (lib : icalendar) (ical_fragment : option str)
         (objtype : option str) (language : str) (props : dict) (uuid' : str),
    truthy (get props (lit "uid"))
    || contains (NL :: lit "UID:")
                (text_or_empty (to_normal_str_opt ical_fragment)) = true ->
    create_ical env lib ical_fragment objtype language props
    = create_ical {| now_utc := now_utc env; uuid1 := uuid';
                     local_utcoffset := local_utcoffset env |}
        lib ical_fragment objtype language props.
Proof.
  intros env lib frag objtype language props uuid' H.
  set (env' := {| now_utc := now_utc env; uuid1 := uuid';
                  local_utcoffset := local_utcoffset env |}).
  assert (Hs : forall inst comp ps,
             serialize env' lib inst comp ps = serialize env lib inst comp ps).
  { intros. now apply serialize_env. }
  unfold create_ical, text_or_empty in *.
  destruct (constructs (to_normal_str_opt frag)).
  - unfold construct.
    destruct (component_factory lib match objtype with
                                    | Some t => t
                                    | None => lit "VEVENT"
                                    end) as [c0|]; [|reflexivity].
    replace (negb (truthy (get props (lit "uid")))
             && negb (contains (NL :: lit "UID:")
                        match to_normal_str_opt frag with
                        | Some f => f
                        | None => []
                        end)) with false
      by (symmetry; rewrite <- negb_orb, H; reflexivity).
    cbn [bind now_utc env']. now rewrite Hs.
  - destruct (augment lib _) as [[inst comp]|e]; [|reflexivity].
    cbn [bind]. now rewrite Hs.
Qed.

Lemma create_ical_given_uid_draws_no_uuid_witness :
  create_ical env_plus_one content_lines None None (lit "en_DK")
    [(lit "uid", PStr (lit "my-own-uid"))]
  = create_ical {| now_utc := now_utc env_plus_one; uuid1 := lit "another";
                   local_utcoffset := local_utcoffset env_plus_one |}
      content_lines None None (lit "en_DK")
      [(lit "uid", PStr (lit "my-own-uid"))].
Proof.
  apply (create_ical_given_uid_draws_no_uuid env_plus_one content_lines None
           None (lit "en_DK") [(lit "uid", PStr (lit "my-own-uid"))]
           (lit "another")).
  vm_compute. reflexivity.
Defined.

(** X21.  What [create_ical] returns when no fragment is given is the
    serialization of a calendar with the properties PRODID (ending with
    the language) and VERSION 2.0 and with one component: the one the
    factory made, with DTSTAMP at the time of the call as the first
    property added to it. *)
Theorem create_ical_builds_one_component :
  forall (env : environment) (lib : icalendar) (objtype : option str)
         (language : str) (props : dict) (ret : str),
    create_ical env lib None objtype language props = Returns ret ->
    exists n ps subs added,
      component_factory lib
        (match objtype with Some t => t | None => lit "VEVENT" end)
      = Some (Comp n ps subs)
      /\ ret = to_normal_str
                 (to_ical lib
                    (Comp (lit "VCALENDAR")
                       [mkProperty (lit "prodid")
                          (PStr (lit "-//python-caldav//caldav//" ++ language)) [];
                        mkProperty (lit "version") (PStr (lit "2.0")) []]
                       [Comp n (ps ++ mkProperty (lit "dtstamp")
                                        (PDatetime (now_utc env)) [] :: added)
                             subs])).
Proof.
  intros env lib objtype language props ret H.
  unfold create_ical in H. cbn [to_normal_str_opt option_map constructs] in H.
  unfold construct in H.
  destruct (component_factory lib match objtype with
                                  | Some t => t
                                  | None => lit "VEVENT"
                                  end) as [[n ps subs]|]; [|discriminate].
  exists n, ps, subs. cbn [bind] in H. unfold serialize in H.
  match type of H with
  | context [merge_props env ?c ?q] =>
      destruct (merge_props env c q) as [c'|e] eqn:E; [|discriminate]
  end.
  cbn [bind] in H. injection H as <-.
  destruct (negb (truthy (get props (lit "uid"))) && _) in E;
    cbn [add] in E; apply merge_props_appends in E; destruct E as (added & ->).
  - exists (mkProperty (lit "uid") (PUuid (uuid1 env)) [] :: added).
    split; [reflexivity|]. rewrite <- !app_assoc. reflexivity.
  - exists added. split; [reflexivity|]. rewrite <- !app_assoc. reflexivity.
Qed.

Lemma create_ical_builds_one_component_witness :
  exists n ps subs added,
    component_factory content_lines
      (match Some (lit "VTODO") with Some t => t | None => lit "VEVENT" end)
    = Some (Comp n ps subs)
    /\ lit "BEGIN:VCALENDAR\nPRODID:-//python-caldav//caldav//en_DK\nVERSION:2.0\nBEGIN:VTODO\nDTSTAMP:20230501T100000Z\nUID:a8098c1a-f86e-11da-bd1a-00112444be1e\nSTATUS:NEEDS-ACTION\nEND:VTODO\nEND:VCALENDAR\n"
       = to_normal_str
           (to_ical content_lines
              (Comp (lit "VCALENDAR")
                 [mkProperty (lit "prodid")
                    (PStr (lit "-//python-caldav//caldav//" ++ lit "en_DK")) [];
                  mkProperty (lit "version") (PStr (lit "2.0")) []]
                 [Comp n (ps ++ mkProperty (lit "dtstamp")
                                  (PDatetime (now_utc env_plus_one)) [] :: added)
                       subs])).
Proof.
  apply (create_ical_builds_one_component env_plus_one content_lines
           (Some (lit "VTODO")) (lit "en_DK") []).
  vm_compute. reflexivity.
Defined.

(** ** The default status of a task *)

Lemma get_absent (props : dict) (key : str) :
  has_key props key = false -> get props key = PNone.
Proof.
  induction props as [|[k v] rest IH]; intros H; [reflexivity|].
  cbn [has_key existsb fst] in H. apply orb_false_elim in H.
  destruct H as [Hk H]. cbn [get]. rewrite Hk. now apply IH.
Qed.

Lemma set_absent (props : dict) (key : str) (value : pyval) :
  has_key props key = false -> set props key value = props ++ [(key, value)].
Proof.
  induction props as [|[k v] rest IH]; intros H; [reflexivity|].
  cbn [has_key existsb fst] in H. apply orb_false_elim in H.
  destruct H as [Hk H]. cbn [set app]. rewrite Hk. f_equal. now apply IH.
Qed.

Lemma get_snoc (props : dict) (k : str) (v : pyval) (key : str) :
  get (props ++ [(k, v)]) key
  = if has_key props key then get props key
    else if str_eqb k key then v else PNone.
Proof.
  induction props as [|[k0 v0] rest IH]; [reflexivity|].
  cbn [app get has_key existsb fst].
  destruct (str_eqb k0 key); [reflexivity|]. cbn [orb]. exact IH.
Qed.

(** X22.  The default status of a task.  Building a VTODO with no
    [status] among the keywords and no STATUS line in the fragment is
    building it with [status="NEEDS-ACTION"] as the last keyword. *)
Theorem create_ical_task_status_default :
  forall (env : environment) (lib : icalendar) (ical_fragment : option str)
         (language : str) (props : dict),
    constructs (to_normal_str_opt ical_fragment) = true ->
    has_key props (lit "status") = false ->
    contains (NL :: lit "STATUS:")
             (text_or_empty (to_normal_str_opt ical_fragment)) = false ->
    create_ical env lib ical_fragment (Some (lit "VTODO")) language props
    = create_ical env lib ical_fragment (Some (lit "VTODO")) language
        (props ++ [(lit "status", PStr (lit "NEEDS-ACTION"))]).
Proof.
  intros env lib frag language props Hc Hk Hs.
  unfold create_ical, text_or_empty in *. rewrite Hc. unfold construct.
  destruct (component_factory lib (lit "VTODO")) as [c0|]; [|reflexivity].
  rewrite Hs. rewrite !get_snoc, Hk.
  change (str_eqb (lit "status") (lit "status")) with true.
  change (str_eqb (lit "status") (lit "uid")) with false.
  change (str_eqb (lit "VTODO") (lit "VTODO")) with true.
  rewrite (get_absent props (lit "status") Hk).
  rewrite (set_absent props (lit "status") _ Hk).
  cbn [truthy negb andb].
  replace (get props (lit "uid"))
    with (if has_key props (lit "uid") then get props (lit "uid") else PNone)
    at 1 2
    by (destruct (has_key props (lit "uid")) eqn:E;
        [reflexivity | now rewrite (get_absent _ _ E)]).
  change (truthy (PStr (lit "NEEDS-ACTION"))) with true. cbn [negb andb].
  reflexivity.
Qed.

Lemma create_ical_task_status_default_witness :
  create_ical env_plus_one content_lines (Some (lit "PRIORITY:1"))
    (Some (lit "VTODO")) (lit "en_DK") [(lit "summary", PStr (lit "x"))]
  = create_ical env_plus_one content_lines (Some (lit "PRIORITY:1"))
      (Some (lit "VTODO")) (lit "en_DK")
      ([(lit "summary", PStr (lit "x"))]
       ++ [(lit "status", PStr (lit "NEEDS-ACTION"))]).
Proof.
  apply (create_ical_task_status_default env_plus_one content_lines
           (Some (lit "PRIORITY:1")) (lit "en_DK")
           [(lit "summary", PStr (lit "x"))]); vm_compute; reflexivity.
Defined.

(** ** The local zone of the system *)

Lemma merge_props_aware (env env' : environment) (c : Component) (props : dict) :
  no_naive_datetime props = true ->
  merge_props env' c props = merge_props env c props.
Proof.
  revert c. induction props as [|[prop v] rest IH]; intros c H; [reflexivity|].
  cbn [no_naive_datetime forallb snd] in H. apply andb_prop in H.
  destruct H as [Hv H]. cbn [merge_props].
  assert (E : merge_one env' c prop v = merge_one env c prop v).
  { unfold merge_one, with_timezone. destruct v as [| |d| |]; try reflexivity.
    destruct (tzinfo d); [reflexivity | discriminate]. }
  rewrite E. destruct (merge_one env c prop v); [|reflexivity].
  cbn [bind]. now apply IH.
Qed.

Lemma no_naive_set (props : dict) (key : str) (s : str) :
  no_naive_datetime props = true ->
  no_naive_datetime (set props key (PStr s)) = true.
Proof.
  induction props as [|[k v] rest IH]; intros H; [reflexivity|].
  cbn [no_naive_datetime forallb snd] in H. apply andb_prop in H.
  destruct H as [Hv H]. cbn [set]. destruct (str_eqb k key).
  - cbn [no_naive_datetime forallb snd]. exact H.
  - cbn [no_naive_datetime forallb snd]. rewrite Hv. now apply IH.
Qed.

(** X23.  When no property is a [datetime] without a time zone, the
    local zone of the system has no part in the result. *)
Theorem create_ical_aware_ignores_local_zone :
  forall (env : environment) (lib : icalendar) (ical_fragment : option str)
         (objtype : option str) (language : str) (props : dict)
         (offset' : datetime -> Z),
    no_naive_datetime props = true ->
    create_ical env lib ical_fragment objtype language props
    = create_ical {| now_utc := now_utc env; uuid1 := uuid1 env;
                     local_utcoffset := offset' |}
        lib ical_fragment objtype language props.
Proof.
  intros env lib frag objtype language props offset' H.
  set (env' := {| now_utc := now_utc env; uuid1 := uuid1 env;
                  local_utcoffset := offset' |}).
  assert (Hs : forall inst comp ps, no_naive_datetime ps = true ->
             serialize env' lib inst comp ps = serialize env lib inst comp ps).
  { intros inst comp ps Hps. unfold serialize.
    now rewrite (merge_props_aware env env'). }
  unfold create_ical.
  destruct (constructs (to_normal_str_opt frag)).
  - unfold construct.
    destruct (component_factory lib match objtype with
                                    | Some t => t
                                    | None => lit "VEVENT"
                                    end) as [c0|]; [|reflexivity].
    cbn [bind now_utc uuid1 env']. rewrite Hs; [reflexivity|].
    destruct (negb (truthy (get props (lit "status"))) && _ && _);
      [now apply no_naive_set | exact H].
  - destruct (augment lib _) as [[inst comp]|e]; [|reflexivity].
    cbn [bind]. now rewrite Hs.
Qed.

Lemma create_ical_aware_ignores_local_zone_witness :
  create_ical env_plus_one content_lines None None (lit "en_DK")
    [(lit "dtstart", PDatetime (mkDatetime 2020 1 1 12 0 0 (Some 7200%Z)))]
  = create_ical {| now_utc := now_utc env_plus_one; uuid1 := uuid1 env_plus_one;
                   local_utcoffset := fun _ => (-18000)%Z |}
      content_lines None None (lit "en_DK")
      [(lit "dtstart", PDatetime (mkDatetime 2020 1 1 12 0 0 (Some 7200%Z)))].
Proof.
  apply (create_ical_aware_ignores_local_zone env_plus_one content_lines None
           None (lit "en_DK")
           [(lit "dtstart", PDatetime (mkDatetime 2020 1 1 12 0 0 (Some 7200%Z)))]
           (fun _ => (-18000)%Z)).
  vm_compute. reflexivity.
Defined.

(** ** A fragment with a backslash in it *)

Lemma create_ical_construct_splices (env : environment) (lib : icalendar)
    (frag : str) (objtype : option str) (language : str) (props : dict) :
  search_line_start (lit "BEGIN:V") (to_normal_str frag) = false ->
  strip (to_normal_str frag) <> [] ->
  create_ical env lib (Some frag) objtype language props
  = ('(my_instance, component, props') <-
       construct env lib (to_normal_str frag) objtype language props ;;
     ret <- serialize env lib my_instance component props' ;;
     splice (strip (to_normal_str frag) ++ lit "\nEND:V") ret).
Proof.
  intros Hbegin Hne.
  unfold create_ical. cbn [to_normal_str_opt option_map].
  rewrite constructs_iff, Hbegin. cbn [negb].
  replace (match to_normal_str frag with [] => true | _ :: _ => true end)
    with true by (destruct (to_normal_str frag); reflexivity).
  destruct (construct env lib (to_normal_str frag) objtype language props)
    as [[[inst comp] props']|e]; [|reflexivity].
  cbn [bind]. destruct (serialize env lib inst comp props') as [ret|e];
    [|reflexivity].
  cbn [bind]. destruct (strip (to_normal_str frag)) as [|c t] eqn:E;
    [congruence|]. reflexivity.
Qed.

Lemma expand_template_app (whole a rest : str) :
  ~ In BACKSLASH a ->
  expand_template whole Literal (a ++ rest)
  = option_map (app a) (expand_template whole Literal rest).
Proof.
  induction a as [|c a IH]; intros H.
  - cbn [app]. destruct (expand_template whole Literal rest); reflexivity.
  - cbn [app expand_template].
    destruct (Ascii.eqb_spec c BACKSLASH) as [->|Hc].
    + exfalso. apply H. now left.
    + cbn [negb]. rewrite IH by (intros Hin; apply H; now right).
      destruct (expand_template whole Literal rest); reflexivity.
Qed.

Lemma no_backslash_end (b : str) :
  ~ In BACKSLASH b -> ~ In BACKSLASH (b ++ lit "\nEND:V").
Proof.
  intros H Hin. apply in_app_or in Hin. destruct Hin as [Hin | Hin]; [auto|].
  vm_compute in Hin. repeat (destruct Hin as [Hin | Hin]; [discriminate|]).
  exact Hin.
Qed.

(** X24.  The fragment is the replacement text of a substitution: where
    it has a backslash followed by the letter n, a newline is put into
    the text returned. *)
Theorem create_ical_fragment_backslash_n_is_a_newline :
  forall (env : environment) (lib : icalendar) (frag : str)
         (objtype : option str) (language : str) (props : dict) (a b : str),
    search_line_start (lit "BEGIN:V") (to_normal_str frag) = false ->
    strip (to_normal_str frag) = a ++ BACKSLASH :: "n"%char :: b ->
    ~ In BACKSLASH a -> ~ In BACKSLASH b ->
    create_ical env lib (Some frag) objtype language props
    = ('(my_instance, component, props') <-
         construct env lib (to_normal_str frag) objtype language props ;;
       ret <- serialize env lib my_instance component props' ;;
       Returns (insert_before_first_end (a ++ NL :: b) ret)).
Proof.
  intros env lib frag objtype language props a b Hbegin Hs Ha Hb.
  rewrite create_ical_construct_splices;
    [|exact Hbegin | rewrite Hs; now destruct a].
  rewrite Hs.
  destruct (construct env lib (to_normal_str frag) objtype language props)
    as [[[inst comp] props']|e]; [|reflexivity].
  cbn [bind]. destruct (serialize env lib inst comp props') as [ret|e];
    [|reflexivity].
  cbn [bind]. unfold splice. rewrite <- app_assoc.
  rewrite expand_template_app by exact Ha.
  cbn [app]. cbn [expand_template].
  change (negb (Ascii.eqb BACKSLASH BACKSLASH)) with false.
  change (Ascii.eqb "n" "g") with false. change (Ascii.eqb "n" "0") with false.
  change (isdigit "n") with false. change (escape_char "n") with (Some NL).
  cbv iota.
  rewrite (expand_template_plain _ (b ++ lit "\nEND:V") (no_backslash_end b Hb)).
  cbn [option_map]. unfold re_sub, insert_before_first_end. f_equal.
  apply re_sub_end_once. rewrite <- !app_assoc. reflexivity.
Qed.

Lemma create_ical_fragment_backslash_n_is_a_newline_witness :
  create_ical env_plus_one content_lines (Some (lit "DESCRIPTION:a\\nb"))
    None (lit "en_DK") []
  = ('(my_instance, component, props') <-
       construct env_plus_one content_lines
         (to_normal_str (lit "DESCRIPTION:a\\nb")) None (lit "en_DK") [] ;;
     ret <- serialize env_plus_one content_lines my_instance component props' ;;
     Returns (insert_before_first_end (lit "DESCRIPTION:a" ++ NL :: lit "b") ret)).
Proof.
  apply (create_ical_fragment_backslash_n_is_a_newline env_plus_one
           content_lines (lit "DESCRIPTION:a\\nb") None (lit "en_DK") []
           (lit "DESCRIPTION:a") (lit "b")).
  - vm_compute. reflexivity.
  - vm_compute. reflexivity.
  - vm_compute. intros H. repeat (destruct H as [H | H]; [discriminate|]).
    exact H.
  - vm_compute. intros H. repeat (destruct H as [H | H]; [discriminate|]).
    exact H.
Defined.

Lemma letter_not_digit (e : ascii) :
  is_ascii_letter e = true -> isdigit e = false /\ Ascii.eqb e "0" = false.
Proof.
  intros H. assert (Hd : isdigit e = false).
  { unfold is_ascii_letter, isdigit in *.
    destruct (Nat.leb_spec 48 (nat_of_ascii e)); [|reflexivity].
    destruct (Nat.leb_spec (nat_of_ascii e) 57); [|reflexivity].
    destruct (Nat.leb_spec 65 (nat_of_ascii e)); [lia|].
    destruct (Nat.leb_spec 97 (nat_of_ascii e)); [lia|]. discriminate. }
  split; [exact Hd|].
  destruct (Ascii.eqb_spec e "0") as [->|]; [discriminate | reflexivity].
Qed.

(** X25.  A fragment with a backslash before a letter that is no escape
    of a replacement text (any letter but a, b, f, g, n, r, t, v), and
    no backslash before it, makes [create_ical] raise an error, after
    the calendar has been built. *)
Theorem create_ical_fragment_bad_escape_raises :
  forall (env : environment) (lib : icalendar) (frag : str)
         (objtype : option str) (language : str) (props : dict)
         (a : str) (e : ascii) (b : str),
    search_line_start (lit "BEGIN:V") (to_normal_str frag) = false ->
    strip (to_normal_str frag) = a ++ BACKSLASH :: e :: b ->
    ~ In BACKSLASH a ->
    is_ascii_letter e = true -> escape_char e = None -> Ascii.eqb e "g" = false ->
    create_ical env lib (Some frag) objtype language props
    = ('(my_instance, component, props') <-
         construct env lib (to_normal_str frag) objtype language props ;;
       ret <- serialize env lib my_instance component props' ;;
       Raises ReError).
Proof.
  intros env lib frag objtype language props a e b Hbegin Hs Ha Hl He Hg.
  rewrite create_ical_construct_splices;
    [|exact Hbegin | rewrite Hs; now destruct a].
  rewrite Hs.
  destruct (construct env lib (to_normal_str frag) objtype language props)
    as [[[inst comp] props']|x]; [|reflexivity].
  cbn [bind]. destruct (serialize env lib inst comp props') as [ret|x];
    [|reflexivity].
  cbn [bind]. unfold splice. rewrite <- app_assoc.
  rewrite expand_template_app by exact Ha.
  cbn [app]. cbn [expand_template].
  change (negb (Ascii.eqb BACKSLASH BACKSLASH)) with false. cbv iota.
  destruct (letter_not_digit e Hl) as [Hd H0].
  rewrite Hg, H0, Hd, He, Hl. reflexivity.
Qed.

Lemma create_ical_fragment_bad_escape_raises_witness :
  create_ical env_plus_one content_lines (Some (lit "DESCRIPTION:a\\Nb"))
    None (lit "en_DK") []
  = ('(my_instance, component, props') <-
       construct env_plus_one content_lines
         (to_normal_str (lit "DESCRIPTION:a\\Nb")) None (lit "en_DK") [] ;;
     ret <- serialize env_plus_one content_lines my_instance component props' ;;
     Raises ReError).
Proof.
  apply (create_ical_fragment_bad_escape_raises env_plus_one
           content_lines (lit "DESCRIPTION:a\\Nb") None (lit "en_DK") []
           (lit "DESCRIPTION:a") "N"%char (lit "b")).
  - vm_compute. reflexivity.
  - vm_compute. reflexivity.
  - vm_compute. intros H. repeat (destruct H as [H | H]; [discriminate|]).
    exact H.
  - vm_compute. reflexivity.
  - vm_compute. reflexivity.
  - vm_compute. reflexivity.
Defined.

(** ** A fragment of white space *)

Lemma search_white (p : str) (c0 : ascii) (p' : str) (s : str) (prev : option ascii) :
  p = c0 :: p' -> isspace c0 = false ->
  Forall (fun c => isspace c = true) s -> search_from p prev s = false.
Proof.
  intros -> H0 Hs. revert prev. induction Hs as [|c s Hc _ IH]; intros prev.
  - cbn. now rewrite andb_false_r.
  - cbn [search_from startswith].
    destruct (Ascii.eqb_spec c0 c) as [->|]; [congruence|].
    cbn [andb]. rewrite andb_false_r. apply IH.
Qed.

Lemma contains_white (k : ascii) (needle : str) (s : str) :
  isspace k = false ->
  Forall (fun c => isspace c = true) s ->
  contains (NL :: k :: needle) s = false.
Proof.
  intros Hk Hs. induction Hs as [|c s Hc Hs IH]; [reflexivity|].
  cbn [contains]. rewrite IH, orb_false_r. cbn [startswith].
  destruct (Ascii.eqb NL c); [|reflexivity]. cbn [andb].
  destruct Hs as [|d s Hd Hs]; [reflexivity|]. cbn [startswith].
  destruct (Ascii.eqb_spec k d) as [->|]; [congruence | reflexivity].
Qed.

(** X27.  A fragment of white space only (the empty text is one) is as
    good as no fragment: the calendar is built, with its defaults, and
    nothing is put into the serialization. *)
Theorem create_ical_blank_fragment_is_no_fragment :
  forall (env : environment) (lib : icalendar) (frag : str)
         (objtype : option str) (language : str) (props : dict),
    forallb isspace frag = true ->
    create_ical env lib (Some frag) objtype language props
    = create_ical env lib None objtype language props.
Proof.
  intros env lib frag objtype language props H.
  assert (Hw : Forall (fun c => isspace c = true) (to_normal_str frag)).
  { apply replace2_white. apply Forall_forall.
    rewrite forallb_forall in H. exact H. }
  unfold create_ical. cbn [to_normal_str_opt option_map].
  rewrite constructs_iff. unfold search_line_start.
  rewrite (search_white (lit "BEGIN:V") "B" (lit "EGIN:V") _ None eq_refl eq_refl Hw).
  replace (match to_normal_str frag with [] => true | _ :: _ => negb false end)
    with true by (destruct (to_normal_str frag); reflexivity).
  cbn [constructs]. unfold construct.
  assert (HU : contains (NL :: lit "UID:") (to_normal_str frag) = false)
    by exact (contains_white "U" (lit "ID:") _ eq_refl Hw).
  assert (HS : contains (NL :: lit "STATUS:") (to_normal_str frag) = false)
    by exact (contains_white "S" (lit "TATUS:") _ eq_refl Hw).
  rewrite HU, HS.
  change (contains (NL :: lit "UID:") []) with false.
  change (contains (NL :: lit "STATUS:") []) with false.
  destruct (component_factory lib _) as [c0|]; [|reflexivity].
  cbn [bind]. destruct (serialize env lib _ _ _) as [ret|e]; [|reflexivity].
  cbn [bind]. now rewrite (strip_white _ Hw).
Qed.

Lemma create_ical_blank_fragment_is_no_fragment_witness :
  create_ical env_plus_one content_lines (Some (lit " \r\n\t")) None
    (lit "en_DK") [(lit "summary", PStr (lit "x"))]
  = create_ical env_plus_one content_lines None None
      (lit "en_DK") [(lit "summary", PStr (lit "x"))].
Proof.
  apply (create_ical_blank_fragment_is_no_fragment env_plus_one content_lines
           (lit " \r\n\t") None (lit "en_DK")
           [(lit "summary", PStr (lit "x"))]).
  vm_compute. reflexivity.
Defined.
